(** * lantz-tmail: the IMAP provider's session codec, mailbox query engine,
      content extractor, error classifier and connection pool

    A shallow embedding of [src/src/utils/crypto.ts], of the two providers in
    [src/src/providers/imap.ts] (IMAP and TempMailSafe), of the helpers in
    [src/unnamed/part_001], of the API key check in [src/unnamed/part_000]
    and of the checks of the routes in [src/src/routes/mail.ts].

    Conventions.
    - A JavaScript string is a [string]: the sequence of the bytes of its
      UTF-8 encoding (well-formed strings only).  [Buffer.from(s)] and
      [buf.toString('utf-8')] are then the conversions between [string] and
      [Buffer] that keep the bytes.  [toLowerCase] acts on the letters A to Z.
    - A [Buffer] is a [list ascii] (one [ascii] per byte).
    - Numbers are integers ([Z]); [NaN] is [None] where a function can yield it.
    - A call that may throw returns a [result]: [Ok x] or [Throw e].  Of a
      thrown [Error] the provider reads the message, which it classifies by
      substring tests, and the code.
    - Clock readings ([Date.now()], [new Date()]), random bytes
      ([crypto.randomBytes]) and the readings of [Math.random()] (rationals
      from 0 up to, not including, 1) are explicit arguments.
    - What the provider takes from libraries is a record of functions: Node's
      cryptography ([Node]) and the IMAP client ([Client]).  The base64, hex
      and JSON functions of the run time are written out.
    - The connection pool, a [Map], is the list of its entries in insertion
      order; an operation takes the pool and returns the pool it leaves.  One
      request runs at a time: the events of a connection that arrive while a
      request waits are not modelled.  The counters of the IMAP provider's
      [stats] are left out.
    - [truncateText] and [simpleHash], which count and read UTF-16 code
      units, take the list of the code units of their text. *)

From Stdlib Require Import ZArith NArith List String Ascii Bool Arith Lia.
From Stdlib Require Import Permutation Sorted DecimalN DecimalPos DecimalFacts DecimalZ.
From Stdlib Require Import QArith Qround.
Import ListNotations.

Local Close Scope Q_scope.
Local Open Scope list_scope.
Local Open Scope string_scope.
Local Set Warnings "-register-all".

Definition Buffer := list ascii.

(** [Buffer.from(s, 'utf8')] and [buf.toString('utf-8')]. *)
Definition Buffer_from (s : string) : Buffer := list_ascii_of_string s.
Definition Buffer_toString (b : Buffer) : string := string_of_list_ascii b.

Lemma Buffer_toString_from s : Buffer_toString (Buffer_from s) = s.
Proof. apply string_of_list_ascii_of_string. Qed.

(** ** Base64, as Node's [Buffer] implements it

    Encoding is RFC 4648 with padding.  Decoding is Node's forgiving decoder:
    characters outside the alphabet are skipped, both the standard and the
    URL-safe alphabet are accepted, decoding stops at the first ['='], and a
    final group of two or three sextets yields one or two bytes. *)
Module Base64.

(** A sextet is a byte whose two high bits are clear. *)
Definition sextet (s0 s1 s2 s3 s4 s5 : bool) : ascii :=
  Ascii s0 s1 s2 s3 s4 s5 false false.

Definition alphabet : string :=
  "ABCDEFGHIJKLMNOPQRSTUVWXYZabcdefghijklmnopqrstuvwxyz0123456789+/".

Definition base64_char (v : ascii) : ascii :=
  match String.get (nat_of_ascii v) alphabet with
  | Some c => c
  | None => "="%char
  end.

Definition in_range (lo hi c : ascii) : bool :=
  ((nat_of_ascii lo <=? nat_of_ascii c) && (nat_of_ascii c <=? nat_of_ascii hi))%nat.

(** [unbase64]: the value of a legal character, [None] for any other. *)
Definition unbase64 (c : ascii) : option ascii :=
  let n := nat_of_ascii c in
  if in_range "A" "Z" c then Some (ascii_of_nat (n - 65))
  else if in_range "a" "z" c then Some (ascii_of_nat (n - 97 + 26))
  else if in_range "0" "9" c then Some (ascii_of_nat (n - 48 + 52))
  else if (Ascii.eqb c "+" || Ascii.eqb c "-")%bool then Some (ascii_of_nat 62)
  else if (Ascii.eqb c "/" || Ascii.eqb c "_")%bool then Some (ascii_of_nat 63)
  else None.

(** The four sextets of three bytes, most significant bits first; Rocq's
    [Ascii] lists the bits of a byte least significant first. *)
Definition hi6 (x : ascii) : ascii :=
  let '(Ascii _ _ x2 x3 x4 x5 x6 x7) := x in sextet x2 x3 x4 x5 x6 x7.
Definition lo2_hi4 (x y : ascii) : ascii :=
  let '(Ascii x0 x1 _ _ _ _ _ _) := x in
  let '(Ascii _ _ _ _ y4 y5 y6 y7) := y in sextet y4 y5 y6 y7 x0 x1.
Definition lo4_hi2 (y z : ascii) : ascii :=
  let '(Ascii y0 y1 y2 y3 _ _ _ _) := y in
  let '(Ascii _ _ _ _ _ _ z6 z7) := z in sextet z6 z7 y0 y1 y2 y3.
Definition lo6 (z : ascii) : ascii :=
  let '(Ascii z0 z1 z2 z3 z4 z5 _ _) := z in sextet z0 z1 z2 z3 z4 z5.

(** [buf.toString('base64')]. *)
Fixpoint encode (b : Buffer) : string :=
  match b with
  | [] => ""
  | [x] =>
      String (base64_char (hi6 x))
        (String (base64_char (lo2_hi4 x zero)) "==")
  | [x; y] =>
      String (base64_char (hi6 x))
        (String (base64_char (lo2_hi4 x y))
           (String (base64_char (lo4_hi2 y zero)) "="))
  | x :: y :: z :: rest =>
      String (base64_char (hi6 x))
        (String (base64_char (lo2_hi4 x y))
           (String (base64_char (lo4_hi2 y z))
              (String (base64_char (lo6 z)) (encode rest))))
  end.

(** The legal characters of the input up to the first ['='], as sextets. *)
Fixpoint sextets (s : string) : list ascii :=
  match s with
  | EmptyString => []
  | String c r =>
      match unbase64 c with
      | Some v => v :: sextets r
      | None => if Ascii.eqb c "=" then [] else sextets r
      end
  end.

(** [dst = ((hi & 0x3F) << 2) | ((lo & 0x30) >> 4)], and the two others. *)
Definition byte0 (a b : ascii) : ascii :=
  let '(Ascii a0 a1 a2 a3 a4 a5 _ _) := a in
  let '(Ascii _ _ _ _ b4 b5 _ _) := b in Ascii b4 b5 a0 a1 a2 a3 a4 a5.
Definition byte1 (b c : ascii) : ascii :=
  let '(Ascii b0 b1 b2 b3 _ _ _ _) := b in
  let '(Ascii _ _ c2 c3 c4 c5 _ _) := c in Ascii c2 c3 c4 c5 b0 b1 b2 b3.
Definition byte2 (c d : ascii) : ascii :=
  let '(Ascii c0 c1 _ _ _ _ _ _) := c in
  let '(Ascii e0 e1 e2 e3 e4 e5 _ _) := d in Ascii e0 e1 e2 e3 e4 e5 c0 c1.

Fixpoint pack (l : list ascii) : Buffer :=
  match l with
  | a :: b :: c :: d :: rest => byte0 a b :: byte1 b c :: byte2 c d :: pack rest
  | [a; b; c] => [byte0 a b; byte1 b c]
  | [a; b] => [byte0 a b]
  | _ => []
  end.

(** [Buffer.from(s, 'base64')]. *)
Definition decode (s : string) : Buffer := pack (sextets s).

Lemma unbase64_char s0 s1 s2 s3 s4 s5 :
  unbase64 (base64_char (sextet s0 s1 s2 s3 s4 s5)) = Some (sextet s0 s1 s2 s3 s4 s5).
Proof. destruct s0, s1, s2, s3, s4, s5; reflexivity. Qed.

Lemma hi6_sextet x : exists a b c d e f, hi6 x = sextet a b c d e f.
Proof. destruct x; simpl; eauto 7. Qed.
Lemma lo2_hi4_sextet x y : exists a b c d e f, lo2_hi4 x y = sextet a b c d e f.
Proof. destruct x, y; simpl; eauto 7. Qed.
Lemma lo4_hi2_sextet x y : exists a b c d e f, lo4_hi2 x y = sextet a b c d e f.
Proof. destruct x, y; simpl; eauto 7. Qed.
Lemma lo6_sextet x : exists a b c d e f, lo6 x = sextet a b c d e f.
Proof. destruct x; simpl; eauto 7. Qed.

Lemma unbase64_hi6 x : unbase64 (base64_char (hi6 x)) = Some (hi6 x).
Proof. destruct (hi6_sextet x) as (a & b & c & d & e & f & ->). apply unbase64_char. Qed.
Lemma unbase64_lo2_hi4 x y : unbase64 (base64_char (lo2_hi4 x y)) = Some (lo2_hi4 x y).
Proof. destruct (lo2_hi4_sextet x y) as (a & b & c & d & e & f & ->). apply unbase64_char. Qed.
Lemma unbase64_lo4_hi2 x y : unbase64 (base64_char (lo4_hi2 x y)) = Some (lo4_hi2 x y).
Proof. destruct (lo4_hi2_sextet x y) as (a & b & c & d & e & f & ->). apply unbase64_char. Qed.
Lemma unbase64_lo6 x : unbase64 (base64_char (lo6 x)) = Some (lo6 x).
Proof. destruct (lo6_sextet x) as (a & b & c & d & e & f & ->). apply unbase64_char. Qed.

Lemma byte0_split x y : byte0 (hi6 x) (lo2_hi4 x y) = x.
Proof. destruct x, y; reflexivity. Qed.
Lemma byte1_split x y z : byte1 (lo2_hi4 x y) (lo4_hi2 y z) = y.
Proof. destruct x, y, z; reflexivity. Qed.
Lemma byte2_split y z : byte2 (lo4_hi2 y z) (lo6 z) = z.
Proof. destruct y, z; reflexivity. Qed.

(** Lists are consumed three bytes at a time. *)
Lemma list_ind3 {A} (P : list A -> Prop) :
  P [] -> (forall x, P [x]) -> (forall x y, P [x; y]) ->
  (forall x y z l, P l -> P (x :: y :: z :: l)) ->
  forall l, P l.
Proof.
  intros H0 H1 H2 H3.
  fix IH 1. intros [|x [|y [|z l]]].
  - exact H0.
  - apply H1.
  - apply H2.
  - apply H3, IH.
Qed.

(** Decoding an encoded buffer gives the buffer back. *)
Lemma base64_decode_encode b : decode (encode b) = b.
Proof.
  unfold decode. induction b as [|x|x y|x y z l IH] using list_ind3.
  - reflexivity.
  - simpl. rewrite unbase64_hi6, unbase64_lo2_hi4. simpl.
    now rewrite byte0_split.
  - simpl. rewrite unbase64_hi6, unbase64_lo2_hi4, unbase64_lo4_hi2. simpl.
    now rewrite byte0_split, byte1_split.
  - cbn [encode sextets]. rewrite unbase64_hi6, unbase64_lo2_hi4, unbase64_lo4_hi2, unbase64_lo6.
    cbn [pack]. now rewrite byte0_split, byte1_split, byte2_split, IH.
Qed.

Lemma encode_inj b b' : encode b = encode b' -> b = b'.
Proof. intros H. rewrite <- (base64_decode_encode b), <- (base64_decode_encode b'). now rewrite H. Qed.



End Base64.

(** ** Hexadecimal, as [buf.toString('hex')] and [Buffer.from(s, 'hex')] *)
Module Hex.

Definition digits : string := "0123456789abcdef".

Definition hex_digit (n : nat) : ascii :=
  match String.get n digits with
  | Some c => c
  | None => "0"%char
  end.

Definition hex_value (c : ascii) : option nat :=
  let n := nat_of_ascii c in
  if Base64.in_range "0" "9" c then Some (n - 48)
  else if Base64.in_range "a" "f" c then Some (n - 97 + 10)
  else if Base64.in_range "A" "F" c then Some (n - 65 + 10)
  else None.

Fixpoint encode (b : Buffer) : string :=
  match b with
  | [] => ""
  | x :: rest =>
      String (hex_digit (nat_of_ascii x / 16))
        (String (hex_digit (nat_of_ascii x mod 16)) (encode rest))
  end.

(** Decoding stops at the first pair that is not two hex digits. *)
Fixpoint decode (s : string) : Buffer :=
  match s with
  | String h (String l rest) =>
      match hex_value h, hex_value l with
      | Some a, Some b => ascii_of_nat (16 * a + b) :: decode rest
      | _, _ => []
      end
  | _ => []
  end.

Lemma hex_decode_encode b : decode (encode b) = b.
Proof.
  induction b as [|x b IH]; [reflexivity|].
  cbn [encode decode].
  replace (hex_value (hex_digit (nat_of_ascii x / 16))) with (Some (nat_of_ascii x / 16))
    by (destruct x as [[] [] [] [] [] [] [] []]; reflexivity).
  replace (hex_value (hex_digit (nat_of_ascii x mod 16))) with (Some (nat_of_ascii x mod 16))
    by (destruct x as [[] [] [] [] [] [] [] []]; reflexivity).
  rewrite IH. f_equal.
  destruct x as [[] [] [] [] [] [] [] []]; reflexivity.
Qed.

End Hex.

(** ** JSON values, [JSON.stringify] and [JSON.parse]

    Numbers are integers: the sessions carry a port and a millisecond
    timestamp.  A number literal with a fraction or an exponent has no value
    in this model and [parse] gives [None] on it, as it does on a syntax
    error.  An object is the list of its members in insertion order. *)
Module JSON.

Inductive value : Type :=
| Null
| Bool (b : bool)
| Number (n : Z)
| Str (s : string)
| Array (items : list value)
| Object (members : list (string * value)).

Definition dquote : ascii := "034"%char.
Definition backslash : ascii := "092"%char.

(** *** Printing *)

(** [QuoteJSONString]: the two-character escapes, [\u00xx] for the other
    control characters, every other byte as it is. *)
Definition escape_char (c : ascii) : string :=
  if Ascii.eqb c dquote then String backslash (String dquote "")
  else if Ascii.eqb c backslash then String backslash (String backslash "")
  else if Ascii.eqb c "008" then String backslash "b"
  else if Ascii.eqb c "012" then String backslash "f"
  else if Ascii.eqb c "010" then String backslash "n"
  else if Ascii.eqb c "013" then String backslash "r"
  else if Ascii.eqb c "009" then String backslash "t"
  else if (nat_of_ascii c <? 32)%nat then
    String backslash
      (String "u" (String "0" (String "0"
         (String (Hex.hex_digit (nat_of_ascii c / 16))
            (String (Hex.hex_digit (nat_of_ascii c mod 16)) "")))))
  else String c "".

Fixpoint escape (s : string) : string :=
  match s with
  | EmptyString => ""
  | String c r => escape_char c ++ escape r
  end.

Definition quote (s : string) : string :=
  String dquote (escape s ++ String dquote "").

Fixpoint print_uint (u : Decimal.uint) : string :=
  match u with
  | Decimal.Nil => ""
  | Decimal.D0 r => String "0" (print_uint r)
  | Decimal.D1 r => String "1" (print_uint r)
  | Decimal.D2 r => String "2" (print_uint r)
  | Decimal.D3 r => String "3" (print_uint r)
  | Decimal.D4 r => String "4" (print_uint r)
  | Decimal.D5 r => String "5" (print_uint r)
  | Decimal.D6 r => String "6" (print_uint r)
  | Decimal.D7 r => String "7" (print_uint r)
  | Decimal.D8 r => String "8" (print_uint r)
  | Decimal.D9 r => String "9" (print_uint r)
  end.

(** [Number.prototype.toString] on an integer. *)
Definition print_number (n : Z) : string :=
  match Z.to_int n with
  | Decimal.Pos u => print_uint u
  | Decimal.Neg u => String "-" (print_uint u)
  end.

Fixpoint join (l : list string) : string :=
  match l with
  | [] => ""
  | [x] => x
  | x :: r => x ++ String "," (join r)
  end.

(** [JSON.stringify(v)] with no indentation. *)
Fixpoint stringify (v : value) : string :=
  match v with
  | Null => "null"
  | Bool true => "true"
  | Bool false => "false"
  | Number n => print_number n
  | Str s => quote s
  | Array items => String "[" (join (map stringify items) ++ "]")
  | Object members =>
      String "{"
        (join (map (fun kv : string * value =>
                      let (k, x) := kv in quote k ++ String ":" (stringify x))
                   members) ++ "}")
  end.

(** *** Parsing *)

Definition is_ws (c : ascii) : bool :=
  (Ascii.eqb c " " || Ascii.eqb c "009" || Ascii.eqb c "010" || Ascii.eqb c "013")%bool.

Fixpoint skip_ws (s : string) : string :=
  match s with
  | String c r => if is_ws c then skip_ws r else s
  | EmptyString => s
  end.

Definition push (c : string) (res : option (string * string)) : option (string * string) :=
  match res with
  | Some (s, rest) => Some (c ++ s, rest)
  | None => None
  end.

(** The bytes a [\uXXXX] escape stands for: the (generalised) UTF-8
    encoding of the code unit. *)
Definition utf8_of_code_unit (n : N) : string :=
  if (n <? 128)%N then String (ascii_of_N n) ""
  else if (n <? 2048)%N then
    String (ascii_of_N (192 + n / 64)) (String (ascii_of_N (128 + n mod 64)) "")
  else
    String (ascii_of_N (224 + n / 4096))
      (String (ascii_of_N (128 + (n / 64) mod 64))
         (String (ascii_of_N (128 + n mod 64)) "")).

Definition code_unit (h1 h2 h3 h4 : ascii) : option N :=
  match Hex.hex_value h1, Hex.hex_value h2, Hex.hex_value h3, Hex.hex_value h4 with
  | Some a, Some b, Some c, Some d =>
      Some (N.of_nat (((a * 16 + b) * 16 + c) * 16 + d))
  | _, _, _, _ => None
  end.

Definition simple_escape (e : ascii) : option ascii :=
  if Ascii.eqb e dquote then Some dquote
  else if Ascii.eqb e backslash then Some backslash
  else if Ascii.eqb e "/" then Some "/"%char
  else if Ascii.eqb e "b" then Some "008"%char
  else if Ascii.eqb e "f" then Some "012"%char
  else if Ascii.eqb e "n" then Some "010"%char
  else if Ascii.eqb e "r" then Some "013"%char
  else if Ascii.eqb e "t" then Some "009"%char
  else None.

(** The characters of a string literal, after its opening quote. *)
Fixpoint parse_chars (s : string) : option (string * string) :=
  match s with
  | EmptyString => None
  | String c r =>
      if Ascii.eqb c dquote then Some ("", r)
      else if Ascii.eqb c backslash then
        match r with
        | EmptyString => None
        | String e r1 =>
            match simple_escape e with
            | Some x => push (String x "") (parse_chars r1)
            | None =>
                if Ascii.eqb e "u" then
                  match r1 with
                  | String h1 (String h2 (String h3 (String h4 r2))) =>
                      match code_unit h1 h2 h3 h4 with
                      | Some n => push (utf8_of_code_unit n) (parse_chars r2)
                      | None => None
                      end
                  | _ => None
                  end
                else None
            end
        end
      else if (nat_of_ascii c <? 32)%nat then None
      else push (String c "") (parse_chars r)
  end.

Definition digit_of (c : ascii) : option (Decimal.uint -> Decimal.uint) :=
  if Ascii.eqb c "0" then Some Decimal.D0
  else if Ascii.eqb c "1" then Some Decimal.D1
  else if Ascii.eqb c "2" then Some Decimal.D2
  else if Ascii.eqb c "3" then Some Decimal.D3
  else if Ascii.eqb c "4" then Some Decimal.D4
  else if Ascii.eqb c "5" then Some Decimal.D5
  else if Ascii.eqb c "6" then Some Decimal.D6
  else if Ascii.eqb c "7" then Some Decimal.D7
  else if Ascii.eqb c "8" then Some Decimal.D8
  else if Ascii.eqb c "9" then Some Decimal.D9
  else None.

(** The longest run of digits at the head of the input. *)
Fixpoint read_digits (s : string) : Decimal.uint * string :=
  match s with
  | EmptyString => (Decimal.Nil, s)
  | String c r =>
      match digit_of c with
      | Some d => let (u, rest) := read_digits r in (d u, rest)
      | None => (Decimal.Nil, s)
      end
  end.

(** The integer part of a JSON number is [0] or has no leading zero. *)
Definition int_part_ok (u : Decimal.uint) : bool :=
  match u with
  | Decimal.Nil => false
  | Decimal.D0 Decimal.Nil => true
  | Decimal.D0 _ => false
  | _ => true
  end.

(** What follows an integer literal: a fraction or an exponent would
    continue the number. *)
Definition continues_number (rest : string) : bool :=
  match rest with
  | EmptyString => false
  | String c _ => (Ascii.eqb c "." || Ascii.eqb c "e" || Ascii.eqb c "E")%bool
  end.

Definition parse_number (s : string) : option (Z * string) :=
  let '(neg, body) :=
    match s with
    | String c r => if Ascii.eqb c "-" then (true, r) else (false, s)
    | EmptyString => (false, s)
    end in
  let (u, rest) := read_digits body in
  if int_part_ok u && negb (continues_number rest) then
    Some (Z.of_int (if neg then Decimal.Neg u else Decimal.Pos u), rest)
  else None.

Fixpoint expect (lit : string) (s : string) : option string :=
  match lit, s with
  | EmptyString, _ => Some s
  | String a l, String b r => if Ascii.eqb a b then expect l r else None
  | String _ _, EmptyString => None
  end.

(** [obj[k] = v]: a repeated key keeps its place and takes the last value. *)
Fixpoint obj_set (k : string) (v : value) (m : list (string * value)) :=
  match m with
  | [] => [(k, v)]
  | (k', v') :: r =>
      if String.eqb k k' then (k, v) :: r else (k', v') :: obj_set k v r
  end.

Section Lists.
Variable parse_one : string -> option (value * string).

(** The elements of an array after its ['['], up to the [']']. *)
Fixpoint parse_items (n : nat) (s : string) : option (list value * string) :=
  match n with
  | O => None
  | S n' =>
      match parse_one s with
      | None => None
      | Some (v, r) =>
          match skip_ws r with
          | EmptyString => None
          | String c r' =>
              if Ascii.eqb c "," then
                match parse_items n' r' with
                | Some (l, r'') => Some (v :: l, r'')
                | None => None
                end
              else if Ascii.eqb c "]" then Some ([v], r')
              else None
          end
      end
  end.

(** The members of an object after its ['{'], up to the ['}']. *)
Fixpoint parse_members (n : nat) (s : string) (acc : list (string * value))
  : option (list (string * value) * string) :=
  match n with
  | O => None
  | S n' =>
      match skip_ws s with
      | EmptyString => None
      | String q r =>
          if Ascii.eqb q dquote then
            match parse_chars r with
            | None => None
            | Some (k, r1) =>
                match skip_ws r1 with
                | EmptyString => None
                | String c r2 =>
                    if Ascii.eqb c ":" then
                      match parse_one r2 with
                      | None => None
                      | Some (v, r3) =>
                          match skip_ws r3 with
                          | EmptyString => None
                          | String d r4 =>
                              if Ascii.eqb d "," then parse_members n' r4 (obj_set k v acc)
                              else if Ascii.eqb d "}" then Some (obj_set k v acc, r4)
                              else None
                          end
                      end
                    else None
                end
            end
          else None
      end
  end.
End Lists.

(** The input after the closing bracket [c], when it starts with it. *)
Definition closing (c : ascii) (s : string) : option string :=
  match s with
  | String x r => if Ascii.eqb x c then Some r else None
  | EmptyString => None
  end.

Fixpoint parse_value (fuel : nat) (s : string) : option (value * string) :=
  match fuel with
  | O => None
  | S f =>
      match skip_ws s with
      | EmptyString => None
      | String c r =>
          if Ascii.eqb c "n" then option_map (pair Null) (expect "ull" r)
          else if Ascii.eqb c "t" then option_map (pair (Bool true)) (expect "rue" r)
          else if Ascii.eqb c "f" then option_map (pair (Bool false)) (expect "alse" r)
          else if Ascii.eqb c dquote then
            match parse_chars r with
            | Some (str, r') => Some (Str str, r')
            | None => None
            end
          else if Ascii.eqb c "[" then
            match closing "]" (skip_ws r) with
            | Some r' => Some (Array [], r')
            | None =>
                match parse_items (parse_value f) f r with
                | Some (l, r') => Some (Array l, r')
                | None => None
                end
            end
          else if Ascii.eqb c "{" then
            match closing "}" (skip_ws r) with
            | Some r' => Some (Object [], r')
            | None =>
                match parse_members (parse_value f) f r [] with
                | Some (m, r') => Some (Object m, r')
                | None => None
                end
            end
          else
            match parse_number (String c r) with
            | Some (n, r') => Some (Number n, r')
            | None => None
            end
      end
  end.

(** [JSON.parse(text)]: one value, then nothing but white space.  The fuel
    is the length of the text, which bounds the nesting and the number of
    elements of any value written in it. *)
Definition parse (text : string) : option value :=
  match parse_value (S (String.length text)) text with
  | Some (v, rest) =>
      match skip_ws rest with
      | EmptyString => Some v
      | String _ _ => None
      end
  | None => None
  end.

(** *** [parse] undoes [stringify] *)

Lemma append_assoc (a b c : string) : (a ++ b) ++ c = a ++ (b ++ c).
Proof. induction a; simpl; congruence. Qed.

Lemma parse_chars_escape_char c t :
  parse_chars (escape_char c ++ t) = push (String c "") (parse_chars t).
Proof.
  destruct c as [[] [] [] [] [] [] [] []]; reflexivity.
Qed.

Lemma parse_chars_escape s rest :
  parse_chars (escape s ++ String dquote rest) = Some (s, rest).
Proof.
  induction s as [|c s IH]; [reflexivity|].
  cbn [escape]. rewrite append_assoc, parse_chars_escape_char, IH. reflexivity.
Qed.

(** Numbers *)
Definition ends_number (rest : string) : bool :=
  match rest with
  | EmptyString => true
  | String c _ =>
      match digit_of c with
      | Some _ => false
      | None => negb (Ascii.eqb c "." || Ascii.eqb c "e" || Ascii.eqb c "E")
      end
  end.

Lemma read_digits_print u rest :
  ends_number rest = true -> read_digits (print_uint u ++ rest) = (u, rest).
Proof.
  intros H. induction u; cbn [print_uint append read_digits];
    try (cbn [digit_of Ascii.eqb Bool.eqb]; rewrite IHu; reflexivity).
  destruct rest as [|c r]; [reflexivity|].
  cbn [read_digits]. simpl in H. destruct (digit_of c); [discriminate|reflexivity].
Qed.

Lemma ends_number_continues rest : ends_number rest = true -> continues_number rest = false.
Proof.
  destruct rest as [|c r]; [reflexivity|]. simpl.
  destruct (digit_of c); [discriminate|]. now destruct (_ || _ || _)%bool.
Qed.

Lemma int_part_ok_unorm u : int_part_ok (Decimal.unorm u) = true.
Proof.
  induction u; try reflexivity. simpl. exact IHu.
Qed.

Lemma int_part_ok_nzhead u : Decimal.nzhead u <> Decimal.Nil -> int_part_ok (Decimal.nzhead u) = true.
Proof.
  induction u; simpl; try reflexivity; try congruence. 
  exact IHu.
Qed.

Lemma to_int_normal n :
  match Z.to_int n with
  | Decimal.Pos u => int_part_ok u = true
  | Decimal.Neg u => int_part_ok u = true
  end.
Proof.
  pose proof (DecimalZ.to_of (Z.to_int n)) as H. rewrite DecimalZ.of_to in H.
  destruct (Z.to_int n) as [u|u]; simpl in H.
  - injection H as ->. apply int_part_ok_unorm.
  - pose proof (int_part_ok_nzhead u) as K.
    destruct (Decimal.nzhead u) eqn:E; try discriminate;
      injection H as H; subst u; apply K; discriminate.
Qed.

Lemma parse_number_print n rest :
  ends_number rest = true -> parse_number (print_number n ++ rest) = Some (n, rest).
Proof.
  intros H. pose proof (to_int_normal n) as Hn. pose proof (DecimalZ.of_to n) as Hof.
  unfold print_number. destruct (Z.to_int n) as [u|u].
  - unfold parse_number.
    replace (match print_uint u ++ rest with
             | "" => (false, print_uint u ++ rest)
             | String c r => if Ascii.eqb c "-" then (true, r) else (false, print_uint u ++ rest)
             end) with (false, print_uint u ++ rest).
    + rewrite read_digits_print, Hn, (ends_number_continues _ H) by assumption.
      cbn [andb negb]. now rewrite Hof.
    + destruct u; simpl in *; try discriminate; reflexivity.
  - unfold parse_number. simpl append. cbn [Ascii.eqb Bool.eqb].
    rewrite read_digits_print, Hn, (ends_number_continues _ H) by assumption.
    cbn [andb negb]. now rewrite Hof.
Qed.

Fixpoint size (v : value) : nat :=
  match v with
  | Array items => S (list_sum (map size items))
  | Object members => S (list_sum (map (fun kv : string * value => size (snd kv)) members))
  | _ => 1
  end.

Fixpoint distinct (l : list string) : bool :=
  match l with
  | [] => true
  | k :: r => negb (existsb (String.eqb k) r) && distinct r
  end.

(** No object of the value has a repeated key. *)
Fixpoint wf (v : value) : bool :=
  match v with
  | Array items => forallb wf items
  | Object members =>
      distinct (map fst members) && forallb (fun kv : string * value => wf (snd kv)) members
  | _ => true
  end.

Lemma value_ind' (P : value -> Prop) :
  P Null -> (forall b, P (Bool b)) -> (forall n, P (Number n)) -> (forall s, P (Str s)) ->
  (forall items, Forall P items -> P (Array items)) ->
  (forall members, Forall (fun kv => P (snd kv)) members -> P (Object members)) ->
  forall v, P v.
Proof.
  intros HN HB HZ HS HA HO. fix IH 1. intros [| b | n | s | items | members].
  - exact HN.
  - apply HB.
  - apply HZ.
  - apply HS.
  - apply HA. induction items as [|x items IHi]; constructor; [apply IH | exact IHi].
  - apply HO. induction members as [|[k x] members IHm]; constructor; [apply IH | exact IHm].
Qed.

Definition member (kv : string * value) : string :=
  let (k, x) := kv in quote k ++ String ":" (stringify x).

Lemma size_pos v : 1 <= size v.
Proof. destruct v; simpl; lia. Qed.

(** The first character of a printed value is no white space and closes
    no bracket. *)
Lemma stringify_head v rest :
  exists c t, stringify v ++ rest = String c t /\ is_ws c = false /\
              Ascii.eqb c "]" = false /\ Ascii.eqb c "}" = false.
Proof.
  destruct v as [| [] | n | s | items | members]; simpl;
    try (eexists _, _; split; [reflexivity|]; repeat split; reflexivity).
  pose proof (to_int_normal n) as Hn. unfold print_number.
  destruct (Z.to_int n) as [u|u].
  - destruct u; simpl in *; try discriminate;
      eexists _, _; (split; [reflexivity|]); repeat split; reflexivity.
  - simpl. eexists _, _; (split; [reflexivity|]); repeat split; reflexivity.
Qed.

Lemma quote_app k t : quote k ++ t = String dquote (escape k ++ String dquote t).
Proof. unfold quote. cbn [append]. now rewrite append_assoc. Qed.

Lemma is_ws_dquote : is_ws dquote = false.
Proof. reflexivity. Qed.

Section ListRoundTrip.
Variable parse_one : string -> option (value * string).

Definition parses (v : value) : Prop :=
  forall rest, ends_number rest = true -> parse_one (stringify v ++ rest) = Some (v, rest).

Lemma parse_items_join (items : list value) : forall n rest,
  items <> [] -> List.length items <= n -> Forall parses items ->
  parse_items parse_one n (join (map stringify items) ++ String "]" rest) = Some (items, rest).
Proof.
  induction items as [|x items IH]; intros n rest Hne Hlen Hall; [congruence|].
  inversion Hall as [|? ? Hx Hitems]; subst.
  destruct n as [|n]; [simpl in Hlen; lia|].
  destruct items as [|y items].
  - cbn [map join parse_items]. rewrite Hx by reflexivity. reflexivity.
  - cbn [parse_items]. change (join (map stringify (x :: y :: items)))
      with (stringify x ++ String "," (join (map stringify (y :: items)))).
    rewrite append_assoc. rewrite Hx by reflexivity.
    cbn [append skip_ws is_ws Ascii.eqb Bool.eqb orb].
    rewrite IH; [reflexivity | discriminate | simpl in *; lia | assumption].
Qed.

Definition set_all (m acc : list (string * value)) :=
  fold_left (fun a (kv : string * value) => obj_set (fst kv) (snd kv) a) m acc.

Lemma parse_members_join (m : list (string * value)) : forall n rest acc,
  m <> [] -> List.length m <= n -> Forall (fun kv => parses (snd kv)) m ->
  parse_members parse_one n (join (map member m) ++ String "}" rest) acc
  = Some (set_all m acc, rest).
Proof.
  induction m as [|[k x] m IH]; intros n rest acc Hne Hlen Hall; [congruence|].
  inversion Hall as [|? ? Hx Hm]; subst. simpl in Hx.
  destruct n as [|n]; [simpl in Hlen; lia|].
  destruct m as [|y m].
  - cbn [map join member parse_members].
    rewrite append_assoc, quote_app. cbn [skip_ws]. rewrite is_ws_dquote, Ascii.eqb_refl.
    rewrite parse_chars_escape.
    cbn [append skip_ws is_ws Ascii.eqb Bool.eqb orb].
    rewrite Hx by reflexivity. reflexivity.
  - cbn [parse_members]. change (join (map member ((k, x) :: y :: m)))
      with (member (k, x) ++ String "," (join (map member (y :: m)))).
    cbn [member].
    rewrite !append_assoc, quote_app. cbn [skip_ws]. rewrite is_ws_dquote, Ascii.eqb_refl.
    rewrite parse_chars_escape.
    cbn [append skip_ws is_ws Ascii.eqb Bool.eqb orb].
    rewrite Hx by reflexivity.
    cbn [append skip_ws is_ws Ascii.eqb Bool.eqb orb].
    rewrite IH; [reflexivity | discriminate | simpl in *; lia | assumption].
Qed.
End ListRoundTrip.

Lemma obj_set_fresh k v acc :
  existsb (String.eqb k) (map fst acc) = false -> obj_set k v acc = (acc ++ [(k, v)])%list.
Proof.
  induction acc as [|[k' v'] acc IH]; simpl; [reflexivity|].
  intros H. apply orb_false_iff in H as [H1 H2]. rewrite H1, IH by assumption. reflexivity.
Qed.

Lemma set_all_distinct m : forall acc,
  distinct (map fst acc ++ map fst m)%list = true -> set_all m acc = (acc ++ m)%list.
Proof.
  induction m as [|[k v] m IH]; intros acc H; simpl.
  - now rewrite List.app_nil_r.
  - unfold set_all in *. simpl.
    assert (Hk : existsb (String.eqb k) (map fst acc) = false).
    { clear IH. induction acc as [|[k' v'] acc IHa]; simpl in *; [reflexivity|].
      apply andb_true_iff in H as [H1 H2]. rewrite IHa by assumption.
      apply negb_true_iff in H1. rewrite List.existsb_app in H1. apply orb_false_iff in H1 as [_ H1].
      simpl in H1. apply orb_false_iff in H1 as [H1 _].
      rewrite String.eqb_sym, H1. reflexivity. }
    rewrite obj_set_fresh by assumption.
    rewrite IH.
    + now rewrite <- List.app_assoc.
    + rewrite List.map_app. simpl. now rewrite <- List.app_assoc.
Qed.

Lemma list_sum_ge {A} (f : A -> nat) l x : In x l -> f x <= list_sum (map f l).
Proof. induction l; simpl; [tauto|]. intros [->|H]; [lia|]. specialize (IHl H). lia. Qed.

Lemma list_sum_length {A} (f : A -> nat) (l : list A) :
  (forall x, 1 <= f x) -> List.length l <= list_sum (map f l).
Proof. intros H. induction l; simpl; [lia|]. specialize (H a). lia. Qed.

Lemma parse_value_stringify v : forall fuel rest,
  size v <= fuel -> wf v = true -> ends_number rest = true ->
  parse_value fuel (stringify v ++ rest) = Some (v, rest).
Proof.
  induction v as [| b | n | s | items IH | members IH] using value_ind';
    intros [|f] rest Hf Hwf Hrest; try (simpl in Hf; lia).
  - reflexivity.
  - destruct b; reflexivity.
  - pose proof (parse_number_print n rest Hrest) as Hn.
    destruct (stringify_head (Number n) rest) as (c & t & E & Hws & _).
    cbn [stringify] in *. cbn [parse_value]. rewrite E in *.
    cbn [skip_ws]. rewrite Hws. rewrite Hn.
    unfold print_number in E. pose proof (to_int_normal n) as Hok.
    destruct (Z.to_int n) as [u|u].
    + destruct u; simpl in Hok; try discriminate; simpl in E; injection E as <- _; reflexivity.
    + simpl in E. injection E as <- _. reflexivity.
  - cbn [stringify parse_value]. rewrite quote_app. cbn [skip_ws].
    rewrite is_ws_dquote, Ascii.eqb_refl.
    replace (Ascii.eqb dquote "n") with false by reflexivity.
    replace (Ascii.eqb dquote "t") with false by reflexivity.
    replace (Ascii.eqb dquote "f") with false by reflexivity.
    now rewrite parse_chars_escape.
  - cbn [stringify parse_value append skip_ws is_ws Ascii.eqb Bool.eqb orb].
    simpl in Hf, Hwf.
    destruct items as [|x items].
    + reflexivity.
    + rewrite append_assoc. cbn [append].
      replace (closing "]" (skip_ws (join (map stringify (x :: items)) ++ String "]" rest)))
        with (@None string).
      * rewrite parse_items_join; [reflexivity | discriminate | | ].
        -- etransitivity; [apply (list_sum_length size), size_pos|]. lia.
        -- rewrite Forall_forall in IH |- *. intros y Hy rest' Hrest'.
           apply IH; [assumption | | | assumption].
           ++ pose proof (list_sum_ge size _ _ Hy). lia.
           ++ rewrite forallb_forall in Hwf. now apply Hwf.
      * destruct (stringify_head x
          (match items with [] => "" | _ => String "," (join (map stringify items)) end
           ++ String "]" rest)) as (c & t & E & Hws & Hc & _).
        replace (join (map stringify (x :: items)) ++ String "]" rest) with (String c t).
        -- cbn [skip_ws]. rewrite Hws. cbn [closing]. now rewrite Hc.
        -- rewrite <- E. destruct items; cbn [map join]; [reflexivity|].
           now rewrite append_assoc.
  - cbn [stringify parse_value append skip_ws is_ws Ascii.eqb Bool.eqb orb].
    simpl in Hf, Hwf. apply andb_true_iff in Hwf as [Hd Hwf].
    destruct members as [|[k x] members].
    + reflexivity.
    + rewrite append_assoc. cbn [append].
      change (fun kv : string * value => let (k0, x0) := kv in quote k0 ++ String ":" (stringify x0))
        with member.
      replace (closing "}" (skip_ws (join (map member ((k, x) :: members)) ++ String "}" rest)))
        with (@None string).
      * rewrite parse_members_join; [ | discriminate | | ].
        -- rewrite set_all_distinct by exact Hd. reflexivity.
        -- etransitivity; [apply (list_sum_length (fun kv => size (snd kv))); intros; apply size_pos|]. lia.
        -- rewrite Forall_forall in IH |- *. intros y Hy rest' Hrest'.
           apply IH; [assumption | | | assumption].
           ++ pose proof (list_sum_ge (fun kv => size (snd kv)) _ _ Hy). simpl in *. lia.
           ++ rewrite forallb_forall in Hwf. now apply Hwf.
      * destruct members; reflexivity.
Qed.

Lemma length_append (a b : string) : String.length (a ++ b) = String.length a + String.length b.
Proof. induction a; simpl; congruence. Qed.

Lemma append_empty (a : string) : a ++ "" = a.
Proof. induction a; simpl; congruence. Qed.

Lemma join_length (l : list string) :
  list_sum (map String.length l) <= String.length (join l).
Proof.
  induction l as [|x [|y l] IH]; simpl in *; try lia.
  rewrite length_append. simpl. lia.
Qed.

Lemma list_sum_le {A} (f g : A -> nat) (l : list A) :
  Forall (fun x => f x <= g x) l -> list_sum (map f l) <= list_sum (map g l).
Proof. induction 1; simpl; lia. Qed.

Lemma size_le_length v : size v <= String.length (stringify v).
Proof.
  induction v as [| b | n | s | items IH | members IH] using value_ind';
    try (match goal with |- _ <= String.length (stringify ?x) =>
           destruct (stringify_head x "") as (c & t & E & _) end;
         rewrite append_empty in E; rewrite E; simpl; lia).
  - cbn [size stringify String.length]. rewrite length_append.
    pose proof (join_length (map stringify items)) as J. rewrite map_map in J.
    pose proof (list_sum_le _ _ _ IH). simpl. lia.
  - cbn [size stringify String.length]. rewrite length_append.
    change (fun kv : string * value => let (k0, x0) := kv in quote k0 ++ String ":" (stringify x0))
      with member.
    pose proof (join_length (map member members)) as J. rewrite map_map in J.
    assert (list_sum (map (fun kv => size (snd kv)) members)
            <= list_sum (map (fun kv => String.length (member kv)) members)).
    { apply list_sum_le. eapply Forall_impl; [|exact IH].
      intros [k x] H. simpl in *. rewrite length_append. simpl. lia. }
    simpl. lia.
Qed.

(** [JSON.parse(JSON.stringify(v))] is [v] again. *)
Lemma parse_stringify v : wf v = true -> parse (stringify v) = Some v.
Proof.
  intros Hwf. unfold parse.
  rewrite <- (append_empty (stringify v)) at 2.
  rewrite parse_value_stringify; [reflexivity | | assumption | reflexivity].
  pose proof (size_le_length v). lia.
Qed.

End JSON.

(** ** Thrown errors *)

(** A JavaScript [Error]: its message and, for system errors, its code. *)
Record JsError := mkError { message : string; code : option string }.

Definition Error (msg : string) : JsError := {| message := msg; code := None |}.

(** The outcome of a call that may throw. *)
Inductive result (A : Type) : Type :=
| Ok (x : A)
| Throw (e : JsError).
Arguments Ok {A} x.
Arguments Throw {A} e.

Definition bind {A B} (r : result A) (k : A -> result B) : result B :=
  match r with
  | Ok x => k x
  | Throw e => Throw e
  end.

Notation "'do' x <- r ;; k" := (bind r (fun x => k))
  (at level 10, x name, r at level 100, k at level 200).

(** ** Sessions ([src/src/types/email.ts]) *)

Record ImapConfig := mkImapConfig {
  domain : string;
  imap_server : string;
  imap_port : option Z;
  imap_user : string;
  imap_pass : string;
  imap_dir : option string
}.

(** [timestamp] is the field [generateAccessToken] adds; tokens issued
    before it existed have none. *)
Record ImapSession := mkImapSession {
  tempEmailAddress : string;
  imapConfig : ImapConfig;
  timestamp : option Z
}.

Definition MAX_SAFE_INTEGER : Z := 9007199254740991.

Definition safe_integer (n : Z) : Prop := (- MAX_SAFE_INTEGER <= n <= MAX_SAFE_INTEGER)%Z.

Definition safe_opt (o : option Z) : Prop :=
  match o with
  | Some n => safe_integer n
  | None => True
  end.

(** A valid session: its numbers are integers a JavaScript number holds
    exactly, which [JSON.stringify] prints in plain decimal. *)
Definition valid_session (s : ImapSession) : Prop :=
  safe_opt (imap_port (imapConfig s)) /\ safe_opt (timestamp s).

(** The object a session is at run time, and the typed reading of a parsed
    object.  An [undefined] field is not a member. *)
Module SessionJSON.
Import JSON.

Definition optional {A} (k : string) (f : A -> value) (o : option A) : list (string * value) :=
  match o with
  | Some x => [(k, f x)]
  | None => []
  end.

Definition config_to_json (c : ImapConfig) : value :=
  Object ([("domain", Str (domain c)); ("imap_server", Str (imap_server c))]
          ++ optional "imap_port" Number (imap_port c)
          ++ [("imap_user", Str (imap_user c)); ("imap_pass", Str (imap_pass c))]
          ++ optional "imap_dir" Str (imap_dir c))%list.

Definition to_json (s : ImapSession) : value :=
  Object ([("tempEmailAddress", Str (tempEmailAddress s));
           ("imapConfig", config_to_json (imapConfig s))]
          ++ optional "timestamp" Number (timestamp s))%list.

Fixpoint get (k : string) (m : list (string * value)) : option value :=
  match m with
  | [] => None
  | (k', v) :: r => if String.eqb k k' then Some v else get k r
  end.

Definition get_string (k : string) (m : list (string * value)) : option string :=
  match get k m with
  | Some (Str s) => Some s
  | _ => None
  end.

Definition get_optional_string (k : string) (m : list (string * value)) : option (option string) :=
  match get k m with
  | None => Some None
  | Some (Str s) => Some (Some s)
  | Some _ => None
  end.

Definition get_optional_number (k : string) (m : list (string * value)) : option (option Z) :=
  match get k m with
  | None => Some None
  | Some (Number n) => Some (Some n)
  | Some _ => None
  end.

Definition config_of_json (v : value) : option ImapConfig :=
  match v with
  | Object m =>
      match get_string "domain" m, get_string "imap_server" m,
            get_optional_number "imap_port" m,
            get_string "imap_user" m, get_string "imap_pass" m,
            get_optional_string "imap_dir" m with
      | Some d, Some s, Some p, Some u, Some w, Some f => Some (mkImapConfig d s p u w f)
      | _, _, _, _, _, _ => None
      end
  | _ => None
  end.

(** The cast [JSON.parse(...) as ImapSession].  TypeScript checks nothing
    at run time; a value of another shape has no counterpart in
    [ImapSession] and is [None] here. *)
Definition of_json (v : value) : option ImapSession :=
  match v with
  | Object m =>
      match get_string "tempEmailAddress" m, get "imapConfig" m,
            get_optional_number "timestamp" m with
      | Some a, Some c, Some t =>
          match config_of_json c with
          | Some cfg => Some (mkImapSession a cfg t)
          | None => None
          end
      | _, _, _ => None
      end
  | _ => None
  end.

Lemma of_to_json s : of_json (to_json s) = Some s.
Proof. destruct s as [a [d sv [p|] u w [f|]] [t|]]; reflexivity. Qed.

Lemma to_json_wf s : wf (to_json s) = true.
Proof. destruct s as [a [d sv [p|] u w [f|]] [t|]]; reflexivity. Qed.

End SessionJSON.

(** ** The session codec ([src/src/utils/crypto.ts]) *)

(** What the codec takes from Node: SHA-256, AES-256-GCM and the message
    of the [SyntaxError] that [JSON.parse] throws on a text.
    [gcm_encrypt key iv plaintext] is the ciphertext and the tag.
    [gcm_decrypt key iv authTag ciphertext] stands for [createDecipheriv],
    [setAuthTag], [update] and [final] together: it is [None] when one of
    them throws, that is when the initialisation vector or the tag is not
    acceptable and when the tag does not authenticate the ciphertext. *)
Record Node := mkNode {
  sha256 : Buffer -> Buffer;
  gcm_encrypt : Buffer -> Buffer -> Buffer -> Buffer * Buffer;
  gcm_decrypt : Buffer -> Buffer -> Buffer -> Buffer -> option Buffer;
  syntax_error_message : string -> string
}.

(** AES-256-GCM decrypts what it encrypted; the ciphertext is as long as the
    plaintext and the tag has 16 bytes. *)
Definition gcm_correct (node : Node) : Prop :=
  forall key iv plaintext,
    let (ciphertext, authTag) := gcm_encrypt node key iv plaintext in
    List.length ciphertext = List.length plaintext /\
    List.length authTag = 16 /\
    gcm_decrypt node key iv authTag ciphertext = Some plaintext.

(** The error of a failed decryption.  Node's messages for it are English
    text; this is the one for a tag that does not authenticate. *)
Definition gcm_error : JsError :=
  Error "Unsupported state or unable to authenticate data".

Module CryptoUtil.
Section WithNode.
Variable node : Node.

(** [JSON.parse(text)] read as an [ImapSession].  A text that parses to a
    value of another shape has no typed counterpart; it is reported as a
    failure here, where the cast lets it through at run time. *)
Definition parse_session (text : string) : result ImapSession :=
  match JSON.parse text with
  | None => Throw (Error (syntax_error_message node text))
  | Some v =>
      match SessionJSON.of_json v with
      | Some s => Ok s
      | None => Throw (Error "not an ImapSession")
      end
  end.

Definition stringify_session (session : ImapSession) : string :=
  JSON.stringify (SessionJSON.to_json session).

(** [iv] is the value of [crypto.randomBytes(16)]. *)
Definition encryptImapSession (iv : Buffer) (session : ImapSession) (secretKey : string)
  : string :=
  let key := sha256 node (Buffer_from secretKey) in
  let plaintext := stringify_session session in
  let (ciphertext, authTag) := gcm_encrypt node key iv (Buffer_from plaintext) in
  let encrypted := Hex.encode ciphertext in
  let combined := (iv ++ authTag ++ Hex.decode encrypted)%list in
  Base64.encode combined.

Definition decryptImapSession (token : string) (secretKey : string) : result ImapSession :=
  let combined := Base64.decode token in
  let iv := firstn 16 combined in
  let authTag := firstn 16 (skipn 16 combined) in
  let encrypted := skipn 32 combined in
  let key := sha256 node (Buffer_from secretKey) in
  match gcm_decrypt node key iv authTag (Hex.decode (Hex.encode encrypted)) with
  | Some decrypted => parse_session (Buffer_toString decrypted)
  | None => Throw gcm_error
  end.

Definition encodeImapSession (session : ImapSession) : string :=
  Base64.encode (Buffer_from (stringify_session session)).

Definition decodeImapSession (token : string) : result ImapSession :=
  let json := Buffer_toString (Base64.decode token) in
  parse_session json.

Lemma parse_stringify_session s : parse_session (stringify_session s) = Ok s.
Proof.
  unfold parse_session, stringify_session.
  now rewrite JSON.parse_stringify, SessionJSON.of_to_json by apply SessionJSON.to_json_wf.
Qed.

Lemma decodeImapSession_encode s : decodeImapSession (encodeImapSession s) = Ok s.
Proof.
  unfold decodeImapSession, encodeImapSession.
  now rewrite Base64.base64_decode_encode, Buffer_toString_from, parse_stringify_session.
Qed.

Lemma split_combined (iv authTag ciphertext : Buffer) :
  List.length iv = 16 -> List.length authTag = 16 ->
  let combined := (iv ++ authTag ++ ciphertext)%list in
  firstn 16 combined = iv /\ firstn 16 (skipn 16 combined) = authTag /\
  skipn 32 combined = ciphertext.
Proof.
  intros Hiv Htag. cbv zeta. repeat split.
  - rewrite <- Hiv at 1. now rewrite firstn_app, Nat.sub_diag, firstn_O, firstn_all, List.app_nil_r.
  - rewrite <- Hiv at 2. rewrite skipn_app, Nat.sub_diag, skipn_all, skipn_O. cbn [app].
    rewrite <- Htag at 1. now rewrite firstn_app, Nat.sub_diag, firstn_O, firstn_all, List.app_nil_r.
  - change 32 with (16 + 16). rewrite <- skipn_skipn.
    rewrite <- Hiv at 2. rewrite skipn_app, Nat.sub_diag, skipn_all, skipn_O. cbn [app].
    rewrite <- Htag at 1. now rewrite skipn_app, Nat.sub_diag, skipn_all, skipn_O.
Qed.

Lemma decrypt_encrypt iv s k :
  gcm_correct node -> List.length iv = 16 ->
  decryptImapSession (encryptImapSession iv s k) k = Ok s.
Proof.
  intros Hgcm Hiv. unfold decryptImapSession, encryptImapSession.
  specialize (Hgcm (sha256 node (Buffer_from k)) iv (Buffer_from (stringify_session s))).
  destruct (gcm_encrypt node _ iv _) as [ciphertext authTag].
  destruct Hgcm as (_ & Htag & Hdec).
  rewrite Base64.base64_decode_encode, !Hex.hex_decode_encode.
  destruct (split_combined iv authTag ciphertext Hiv Htag) as (-> & -> & ->).
  rewrite Hdec. now rewrite Buffer_toString_from, parse_stringify_session.
Qed.

End WithNode.
End CryptoUtil.

(** ** JavaScript string functions the provider uses *)
Module Js.

(** [s.toLowerCase()], on the letters A to Z; every other byte is kept. *)
Definition lower_char (c : ascii) : ascii :=
  if Base64.in_range "A" "Z" c then ascii_of_nat (nat_of_ascii c + 32) else c.

Fixpoint toLowerCase (s : string) : string :=
  match s with
  | EmptyString => ""
  | String c r => String (lower_char c) (toLowerCase r)
  end.

(** [s.startsWith(p)]. *)
Definition startsWith (p s : string) : bool := String.prefix p s.

(** [s.includes(needle)]. *)
Fixpoint includes (needle s : string) : bool :=
  (String.prefix needle s ||
   match s with
   | EmptyString => false
   | String _ r => includes needle r
   end)%bool.

(** [!s] on a string that may be [undefined]: absent or empty. *)
Definition truthy (o : option string) : bool :=
  match o with
  | Some (String _ _) => true
  | _ => false
  end.

(** [a || b] on strings. *)
Definition or_else (o : option string) (d : string) : string :=
  match o with
  | Some (String c r) => String c r
  | _ => d
  end.

Definition is_space (c : ascii) : bool :=
  (Ascii.eqb c " " || ((9 <=? nat_of_ascii c)%nat && (nat_of_ascii c <=? 13)%nat))%bool.

Fixpoint trim_start (s : string) : string :=
  match s with
  | String c r => if is_space c then trim_start r else s
  | EmptyString => s
  end.

(** [parseInt(s, 10)]: leading white space, a sign, then the longest run
    of digits; [None] is [NaN]. *)
Definition parseInt (s : string) : option Z :=
  let '(neg, body) :=
    match trim_start s with
    | String c r =>
        if Ascii.eqb c "-" then (true, r)
        else if Ascii.eqb c "+" then (false, r)
        else (false, String c r)
    | EmptyString => (false, "")
    end in
  match fst (JSON.read_digits body) with
  | Decimal.Nil => None
  | u => Some (if neg then - Z.of_uint u else Z.of_uint u)%Z
  end.

(** [String(n)] for a number that may be [NaN]. *)
Definition number_toString (n : option Z) : string :=
  match n with
  | Some z => JSON.print_number z
  | None => "NaN"
  end.

End Js.

(** ** The IMAP provider ([src/src/providers/imap.ts]): access tokens *)

(** The environment variables the provider reads. *)
Record Env := mkEnv {
  IMAP_ENCRYPT_TOKEN : option string;
  IMAP_ENCRYPTION_KEY : option string;
  IMAP_TOKEN_TTL_HOURS : option string
}.

Module Token.
Section WithEnv.
Variable node : Node.
Variable env : Env.

Definition encryptEnabled : bool :=
  match IMAP_ENCRYPT_TOKEN env with
  | Some v => String.eqb v "true"
  | None => false
  end.

Definition expired_message (ttlHours : Z) : string :=
  "accessToken 已过期（有效期 " ++ JSON.print_number ttlHours ++ " 小时），请重新创建邮箱".

(** [now] is the value of [Date.now()], [iv] that of [randomBytes(16)]. *)
Definition generateAccessToken (now : Z) (iv : Buffer)
    (config : ImapConfig) (tempEmailAddress : string) : result string :=
  let session :=
    {| tempEmailAddress := tempEmailAddress;
       imapConfig := config;
       timestamp := Some now |} in
  if encryptEnabled then
    match IMAP_ENCRYPTION_KEY env with
    | Some (String c r) =>
        Ok (CryptoUtil.encryptImapSession node iv session (String c r))
    | _ => Throw (Error "IMAP_ENCRYPTION_KEY 环境变量未设置（启用加密时必须设置）")
    end
  else Ok (CryptoUtil.encodeImapSession session).

Definition validateTokenExpiration (now : Z) (session : ImapSession) : result unit :=
  let ttlHours := Js.parseInt (Js.or_else (IMAP_TOKEN_TTL_HOURS env) "0") in
  if match ttlHours with Some t => (t <=? 0)%Z | None => false end then Ok tt
  else
    match timestamp session with
    | None => Ok tt
    | Some 0%Z => Ok tt
    | Some issued =>
        let tokenAge := (now - issued)%Z in
        match ttlHours with
        | Some t =>
            let ttlMs := (t * 60 * 60 * 1000)%Z in
            if (tokenAge >? ttlMs)%Z then Throw (Error (expired_message t)) else Ok tt
        | None => Ok tt
        end
    end.

Definition invalid_token : JsError := Error "无效的 accessToken".

Definition parseAccessToken (now : Z) (token : string) : result ImapSession :=
  let attempt :=
    do session <-
      (if encryptEnabled then
         match IMAP_ENCRYPTION_KEY env with
         | Some (String c r) => CryptoUtil.decryptImapSession node token (String c r)
         | _ => Throw (Error "IMAP_ENCRYPTION_KEY 环境变量未设置")
         end
       else CryptoUtil.decodeImapSession node token) ;;
    do _ <- validateTokenExpiration now session ;;
    Ok session in
  match attempt with
  | Ok session => Ok session
  | Throw error =>
      if Js.includes "已过期" (message error) then Throw error
      else Throw invalid_token
  end.

End WithEnv.
End Token.

(** ** The IMAP provider: messages *)

Record EmailContact := mkContact {
  email : string;
  name : option string
}.

Record EmailAttachment := mkAttachment {
  att_id : string;
  filename : string;
  contentType : string;
  att_size : Z;
  inline : bool;
  contentId : option string
}.

Record EmailMessage := mkMessage {
  id : string;
  from : EmailContact;
  to : list EmailContact;
  cc : option (list EmailContact);
  subject : string;
  textContent : option string;
  htmlContent : option string;
  attachments : option (list EmailAttachment);
  receivedAt : Z;
  isRead : bool;
  size : option Z;
  provider : string;
  messageId : option string
}.

(** What the IMAP client library hands over for one message. *)

Record Address := mkAddress {
  address : option string;
  addr_name : option string
}.

Record Envelope := mkEnvelope {
  env_from : option (list Address);
  env_to : option (list Address);
  env_cc : option (list Address);
  env_bcc : option (list Address);
  env_subject : option string;
  env_messageId : option string
}.

(** A node of the [bodyStructure] tree.  [childNodes] is [None] when the
    field is not an array. *)
Inductive BodyStructure : Type := mkStructure {
  type : option string;
  subtype : option string;
  part : option string;
  disposition : option string;
  dispositionParameters_filename : option string;
  parameters_name : option string;
  node_size : option Z;
  node_id : option string;
  childNodes : option (list BodyStructure)
}.

Record FetchedMessage := mkFetched {
  uid : Z;
  envelope : Envelope;
  internalDate : option Z;
  seen : option bool;
  msg_size : option Z;
  bodyStructure : option BodyStructure;
  source : option string
}.

Module Mime.

(** The full MIME type of a node: [type] when it already holds a slash,
    [type/subtype] when there is a subtype, [type] alone otherwise; in
    lower case. *)
Definition fullType (structure : BodyStructure) : string :=
  let typeStr := Js.or_else (option_map Js.toLowerCase (type structure)) "" in
  if Js.includes "/" typeStr then typeStr
  else
    let subtypeStr := Js.or_else (option_map Js.toLowerCase (subtype structure)) "" in
    match subtypeStr with
    | EmptyString => typeStr
    | _ => typeStr ++ "/" ++ subtypeStr
    end.

Definition is_multipart (structure : BodyStructure) : bool :=
  Js.startsWith "multipart/" (fullType structure).

Fixpoint findBodyPart (structure : BodyStructure) (mimeType : string) : option string :=
  if String.eqb (fullType structure) (Js.toLowerCase mimeType) then
    Some (Js.or_else (part structure) "1")
  else if is_multipart structure then
    match childNodes structure with
    | Some children =>
        (fix each (l : list BodyStructure) : option string :=
           match l with
           | [] => None
           | childNode :: rest =>
               match findBodyPart childNode mimeType with
               | Some (String c r) => Some (String c r)
               | _ => each rest
               end
           end) children
    | None => None
    end
  else None.

(** [findBodyPart(structure, mimeType)] on a structure that may be missing. *)
Definition findBodyPart_opt (structure : option BodyStructure) (mimeType : string)
  : option string :=
  match structure with
  | Some s => findBodyPart s mimeType
  | None => None
  end.

(** [isAttachment], as the truth value of the disjunction. *)
Definition isAttachment (structure : BodyStructure) : bool :=
  let disposition := option_map Js.toLowerCase (disposition structure) in
  match disposition with
  | Some d => String.eqb d "attachment" || String.eqb d "inline"
  | None => false
  end
  || Js.truthy (dispositionParameters_filename structure)
  || Js.truthy (parameters_name structure).

Definition isTextContent (structure : BodyStructure) : bool :=
  String.eqb (fullType structure) "text/plain" || String.eqb (fullType structure) "text/html".

Definition nat_toString (n : nat) : string := JSON.print_number (Z.of_nat n).

(** The entry pushed for a node when the list already holds [n] entries. *)
Definition attachment_entry (structure : BodyStructure) (n : nat) : EmailAttachment :=
  let filename :=
    Js.or_else (dispositionParameters_filename structure)
      (Js.or_else (parameters_name structure) ("attachment-" ++ nat_toString (n + 1))) in
  {| att_id := Js.or_else (part structure) (nat_toString (n + 1));
     filename := filename;
     contentType := fullType structure;
     att_size := match node_size structure with
                 | Some 0%Z | None => 0%Z
                 | Some z => z
                 end;
     inline := match option_map Js.toLowerCase (disposition structure) with
               | Some d => String.eqb d "inline"
               | None => false
               end;
     contentId := node_id structure |}.

(** The array [attachments] is threaded through the traversal. *)
Fixpoint findAttachments (structure : BodyStructure) (attachments : list EmailAttachment)
  : list EmailAttachment :=
  let attachments :=
    if isAttachment structure && negb (isTextContent structure)
    then (attachments ++ [attachment_entry structure (List.length attachments)])%list
    else attachments in
  if is_multipart structure then
    match childNodes structure with
    | Some children =>
        (fix each (l : list BodyStructure) (acc : list EmailAttachment) :=
           match l with
           | [] => acc
           | childNode :: rest => each rest (findAttachments childNode acc)
           end) children attachments
    | None => attachments
    end
  else attachments.

Definition findAttachments_opt (structure : option BodyStructure)
    (attachments : list EmailAttachment) : list EmailAttachment :=
  match structure with
  | Some s => findAttachments s attachments
  | None => attachments
  end.

(** The nodes a traversal reaches, in the order it reaches them: a node,
    then, when it is [multipart/*], its children from left to right. *)
Fixpoint reached (structure : BodyStructure) : list BodyStructure :=
  structure ::
  (if is_multipart structure then
     match childNodes structure with
     | Some children => flat_map reached children
     | None => []
     end
   else []).

(** *** The traversals, node by node *)

(** Induction on a structure tree: the children of a node first. *)
Lemma BodyStructure_ind' (P : BodyStructure -> Prop) :
  (forall s, (forall children, childNodes s = Some children -> Forall P children) -> P s) ->
  forall s, P s.
Proof.
  intros H. fix IH 1. intros [t st p d df pn sz i cn]. apply H. cbn [childNodes].
  intros children E. destruct cn as [l|]; [|discriminate].
  injection E as E. subst children.
  induction l as [|x l IHl]; constructor; [apply IH | exact IHl].
Qed.

Section FirstFound.
Variable f : BodyStructure -> option string.

End FirstFound.



Definition path (s : BodyStructure) : string := Js.or_else (part s) "1".



Lemma reached_eq s :
  reached s = s :: (if is_multipart s then
                      match childNodes s with
                      | Some children => flat_map reached children
                      | None => []
                      end
                    else []).
Proof. destruct s as [t st p d df pn sz i [l|]]; reflexivity. Qed.


(** Attachments *)
Definition classified (s : BodyStructure) : bool :=
  isAttachment s && negb (isTextContent s).

Definition push (attachments : list EmailAttachment) (s : BodyStructure) :=
  if classified s
  then (attachments ++ [attachment_entry s (List.length attachments)])%list
  else attachments.

Lemma findAttachments_eq s attachments :
  findAttachments s attachments =
  if is_multipart s then
    match childNodes s with
    | Some children => fold_left (fun acc c => findAttachments c acc) children (push attachments s)
    | None => push attachments s
    end
  else push attachments s.
Proof. destruct s as [t st p d df pn sz i [l|]]; reflexivity. Qed.

Lemma findAttachments_reached s : forall attachments,
  findAttachments s attachments = fold_left push (reached s) attachments.
Proof.
  induction s as [s IH] using BodyStructure_ind'. intros attachments.
  rewrite findAttachments_eq, reached_eq. cbn [fold_left].
  destruct (is_multipart s); [|reflexivity].
  destruct (childNodes s) as [children|]; [|reflexivity].
  specialize (IH children eq_refl). generalize (push attachments s) as acc.
  induction IH as [|c l Hc Hl IHl]; intros acc; [reflexivity|].
  cbn [fold_left flat_map]. now rewrite fold_left_app, Hc, IHl.
Qed.



End Mime.

(** ** The IMAP provider: the mailbox query engine and the content extractor *)

(** The IMAP client, as the answers it gives.  [search since] is the list of
    matching identifiers ([None] when the library returns nothing), [fetch]
    the messages of a list of identifiers in the order the server sends them,
    [fetchOne uid] the message with that UID ([uid] is [None] when it is
    [NaN]), [download uid part] the decoded bytes of a part ([None] when there
    is no content). *)
Record Client := mkClient {
  mailboxOpen : string -> result unit;
  search : Z -> result (option (list Z));
  fetch : list Z -> result (list FetchedMessage);
  fetchOne : option Z -> result (option FetchedMessage);
  download : option Z -> string -> result (option string)
}.

Inductive ChannelErrorType :=
| NETWORK_ERROR
| AUTHENTICATION_ERROR
| API_ERROR
| UNKNOWN_ERROR.

Record ErrorDetails := mkDetails {
  reason : string;
  details_operation : string
}.

Record ChannelError := mkChannelError {
  error_message : string;
  error_type : ChannelErrorType;
  channelName : string;
  retryable : bool;
  context : option ErrorDetails
}.

Inductive ChannelResponse (A : Type) : Type :=
| Success (data : A)
| Failure (error : ChannelError) (operation : string) (details : option ErrorDetails).
Arguments Success {A} data.
Arguments Failure {A} error operation details.

Module ImapProvider.

Definition provider_name : string := "imap".

Definition unknown_address : string := "unknown@unknown.com".

Definition parseEmailContact (addr : option Address) : EmailContact :=
  match addr with
  | None => {| email := unknown_address; name := None |}
  | Some a => {| email := Js.or_else (address a) unknown_address; name := addr_name a |}
  end.

Definition or_empty {A} (o : option (list A)) : list A :=
  match o with
  | Some l => l
  | None => []
  end.

(** [envelope.to?.map(addr => addr.address?.toLowerCase()) || []]. *)
Definition lowered (l : option (list Address)) : list (option string) :=
  or_empty (option_map (map (fun addr => option_map Js.toLowerCase (address addr))) l).

Definition allRecipients (e : Envelope) : list (option string) :=
  (lowered (env_to e) ++ lowered (env_cc e) ++ lowered (env_bcc e))%list.

Definition same_value (a b : option string) : bool :=
  match a, b with
  | Some x, Some y => String.eqb x y
  | None, None => true
  | _, _ => false
  end.

(** [array.includes(x)]. *)
Definition array_includes (l : list (option string)) (x : option string) : bool :=
  existsb (same_value x) l.

Definition no_subject : string := "(无主题)".

(** The message pushed for a fetched message received at [receivedAt]. *)
Definition summary (msg : FetchedMessage) (receivedAt : Z) : EmailMessage :=
  let envelope := envelope msg in
  {| id := JSON.print_number (uid msg);
     from := parseEmailContact (hd_error (or_empty (env_from envelope)));
     to := or_empty (option_map (map (fun a => parseEmailContact (Some a))) (env_to envelope));
     cc := option_map (map (fun a => parseEmailContact (Some a))) (env_cc envelope);
     subject := Js.or_else (env_subject envelope) no_subject;
     textContent := None;
     htmlContent := None;
     attachments := None;
     receivedAt := receivedAt;
     isRead := match seen msg with Some b => b | None => false end;
     size := msg_size msg;
     provider := provider_name;
     messageId := env_messageId envelope |}.

(** [msg.internalDate || new Date()]: [clock] is the reading of the clock
    while the message is handled. *)
Definition received (msg : FetchedMessage) (clock : Z) : Z :=
  match internalDate msg with
  | Some d => d
  | None => clock
  end.

Definition addressed_to (tempEmailAddress : string) (msg : FetchedMessage) : bool :=
  array_includes (allRecipients (envelope msg)) (Some (Js.toLowerCase tempEmailAddress)).

(** The body of the [for await] loop: the messages pushed, in order.
    [clock i] is the reading of the clock while the [i]-th fetched message
    is handled. *)
Fixpoint collect (since : Z) (tempEmailAddress : string) (clock : nat -> Z)
    (i : nat) (msgs : list FetchedMessage) : list EmailMessage :=
  match msgs with
  | [] => []
  | msg :: rest =>
      let receivedAt := received msg (clock i) in
      if (receivedAt <? since)%Z then collect since tempEmailAddress clock (S i) rest
      else if negb (addressed_to tempEmailAddress msg)
      then collect since tempEmailAddress clock (S i) rest
      else summary msg receivedAt :: collect since tempEmailAddress clock (S i) rest
  end.

(** [messages.sort((a, b) => b.receivedAt - a.receivedAt)]: the sort is
    stable, so it is the insertion of each message before the first one
    that is not newer. *)
Fixpoint insert (m : EmailMessage) (l : list EmailMessage) : list EmailMessage :=
  match l with
  | [] => [m]
  | x :: r =>
      if (receivedAt x - receivedAt m <=? 0)%Z then m :: x :: r
      else x :: insert m r
  end.

Fixpoint sort (l : list EmailMessage) : list EmailMessage :=
  match l with
  | [] => []
  | m :: r => insert m (sort r)
  end.

Definition day_ms : Z := 24 * 60 * 60 * 1000.

(** [now] is the value of [Date.now()] on entry. *)
Definition fetchRecentMessages (now : Z) (clock : nat -> Z)
    (client : Client) (tempEmailAddress : string) : result (list EmailMessage) :=
  let since := (now - day_ms)%Z in
  do searchResults <- search client since ;;
  match searchResults with
  | None | Some [] => Ok []
  | Some uids =>
      do msgs <- fetch client uids ;;
      Ok (sort (collect since tempEmailAddress clock 0 msgs))
  end.

Section Content.
(** [parseEmailSource]: the text and the HTML found in a raw source by
    regular expressions; no claim below reads its result. *)
Variable parseEmailSource : string -> result (option string * option string).

Definition not_found_message (emailId : string) : string := "邮件不存在: " ++ emailId.

(** The body of one part, [None] when the download fails or is empty. *)
Definition part_content (client : Client) (uid : option Z) (path : option string)
  : option string :=
  match path with
  | Some (String c r) =>
      match download client uid (String c r) with
      | Ok content => content
      | Throw _ => None
      end
  | _ => None
  end.

Definition fetchMessageContent (clock : Z) (client : Client) (emailId : string)
  : result EmailMessage :=
  let uid := Js.parseInt emailId in
  do found <- fetchOne client uid ;;
  match found with
  | None => Throw (Error (not_found_message emailId))
  | Some message =>
      let envelope := envelope message in
      let textPart := Mime.findBodyPart_opt (bodyStructure message) "text/plain" in
      let htmlPart := Mime.findBodyPart_opt (bodyStructure message) "text/html" in
      let textContent := part_content client uid textPart in
      let htmlContent := part_content client uid htmlPart in
      let '(textContent, htmlContent) :=
        match source message with
        | Some src =>
            if negb (Js.truthy textContent) && negb (Js.truthy htmlContent) then
              match parseEmailSource src with
              | Ok parsed => parsed
              | Throw _ => (textContent, htmlContent)
              end
            else (textContent, htmlContent)
        | None => (textContent, htmlContent)
        end in
      let attachments := Mime.findAttachments_opt (bodyStructure message) [] in
      Ok {| id := Js.number_toString uid;
            from := parseEmailContact (hd_error (or_empty (env_from envelope)));
            to := or_empty (option_map (map (fun a => parseEmailContact (Some a)))
                              (env_to envelope));
            cc := option_map (map (fun a => parseEmailContact (Some a))) (env_cc envelope);
            subject := Js.or_else (env_subject envelope) no_subject;
            textContent := textContent;
            htmlContent := htmlContent;
            attachments := match attachments with [] => None | _ => Some attachments end;
            receivedAt := received message clock;
            isRead := match seen message with Some b => b | None => false end;
            size := msg_size message;
            provider := provider_name;
            messageId := env_messageId envelope |}
  end.
End Content.

(** [handleError]: the failure is classified by what its message contains. *)
Definition handleError {A} (error : JsError) (operation : string) : ChannelResponse A :=
  let errorMessage := message error in
  let '(detailedErrorMessage, errorType, errorDetails) :=
    if Js.includes "ECONNREFUSED" errorMessage || Js.includes "ETIMEDOUT" errorMessage then
      ("IMAP 连接失败：无法连接到服务器", NETWORK_ERROR,
       Some {| reason := "网络连接失败或服务器地址错误"; details_operation := operation |})
    else if Js.includes "AUTHENTICATIONFAILED" errorMessage
            || Js.includes "Invalid credentials" errorMessage then
      ("IMAP 认证失败：用户名或密码错误", AUTHENTICATION_ERROR,
       Some {| reason := "认证信息无效"; details_operation := operation |})
    else if Js.includes "Mailbox does not exist" errorMessage then
      ("IMAP 操作失败：邮箱目录不存在", API_ERROR,
       Some {| reason := "指定的邮箱目录不存在"; details_operation := operation |})
    else (errorMessage, UNKNOWN_ERROR, None) in
  Failure
    {| error_message := detailedErrorMessage;
       error_type := errorType;
       channelName := provider_name;
       retryable := match errorType with NETWORK_ERROR => true | _ => false end;
       context := errorDetails |}
    operation errorDetails.

Section Operations.
Variable node : Node.
Variable env : Env.
Variable parseEmailSource : string -> result (option string * option string).
(** [getConnection(config)]: a client from the pool or a new one. *)
Variable getConnection : ImapConfig -> result Client.

Definition respond {A} (operation : string) (r : result A) : ChannelResponse A :=
  match r with
  | Ok data => Success data
  | Throw error => handleError error operation
  end.

(** [entry] is the reading of the clock when the token is checked, [now]
    and [clock] the later readings. *)
Definition getEmails (entry now : Z) (clock : nat -> Z) (accessToken : option string)
  : ChannelResponse (list EmailMessage) :=
  respond "getEmails"
    (match accessToken with
     | Some (String c r) =>
         do session <- Token.parseAccessToken node env entry (String c r) ;;
         do client <- getConnection (imapConfig session) ;;
         let mailbox := Js.or_else (imap_dir (imapConfig session)) "INBOX" in
         do _ <- mailboxOpen client mailbox ;;
         fetchRecentMessages now clock client (tempEmailAddress session)
     | _ => Throw (Error "accessToken 为必填字段")
     end).

Definition getEmailContent (entry now : Z) (emailAddress emailId : string)
    (accessToken : option string) : ChannelResponse EmailMessage :=
  respond "getEmailContent"
    (match accessToken with
     | Some (String c r) =>
         do session <- Token.parseAccessToken node env entry (String c r) ;;
         do client <- getConnection (imapConfig session) ;;
         let mailbox := Js.or_else (imap_dir (imapConfig session)) "INBOX" in
         do _ <- mailboxOpen client mailbox ;;
         fetchMessageContent parseEmailSource now client emailId
     | _ => Throw (Error "accessToken 为必填字段")
     end).
End Operations.

(** *** The recipient test *)

Definition recipients (e : Envelope) : list Address :=
  (or_empty (env_to e) ++ or_empty (env_cc e) ++ or_empty (env_bcc e))%list.

(** One of the To, Cc and Bcc addresses is the temporary address, letter
    case apart. *)
Definition exact_recipient (tempEmailAddress : string) (msg : FetchedMessage) : Prop :=
  exists a s, In a (recipients (envelope msg)) /\ address a = Some s /\
              Js.toLowerCase s = Js.toLowerCase tempEmailAddress.

Lemma lowered_map l :
  lowered l = map (fun addr => option_map Js.toLowerCase (address addr)) (or_empty l).
Proof. destruct l; reflexivity. Qed.

Lemma allRecipients_map e :
  allRecipients e = map (fun addr => option_map Js.toLowerCase (address addr)) (recipients e).
Proof. unfold allRecipients, recipients. now rewrite !lowered_map, !List.map_app. Qed.

Lemma addressed_to_exact tempEmailAddress msg :
  addressed_to tempEmailAddress msg = true <-> exact_recipient tempEmailAddress msg.
Proof.
  unfold addressed_to, array_includes, exact_recipient.
  rewrite allRecipients_map, existsb_exists. split.
  - intros (x & Hin & Hx). apply in_map_iff in Hin as (a & <- & Ha).
    destruct (address a) as [s|] eqn:E; [|discriminate].
    exists a, s. simpl in Hx. apply String.eqb_eq in Hx. auto.
  - intros (a & s & Ha & E & Hs). exists (Some (Js.toLowerCase s)). split.
    + apply in_map_iff. exists a. now rewrite E.
    + simpl. apply String.eqb_eq. congruence.
Qed.

(** *** The loop *)

Definition survives (since : Z) (tempEmailAddress : string) (clock : nat -> Z)
    (p : nat * FetchedMessage) : bool :=
  (since <=? received (snd p) (clock (fst p)))%Z && addressed_to tempEmailAddress (snd p).

Definition pushed (clock : nat -> Z) (p : nat * FetchedMessage) : EmailMessage :=
  summary (snd p) (received (snd p) (clock (fst p))).

(** The fetched messages, each with its position in the stream. *)
Definition numbered (i : nat) (msgs : list FetchedMessage) : list (nat * FetchedMessage) :=
  combine (seq i (List.length msgs)) msgs.

Lemma collect_filter since tempEmailAddress clock msgs : forall i,
  collect since tempEmailAddress clock i msgs =
  map (pushed clock) (filter (survives since tempEmailAddress clock) (numbered i msgs)).
Proof.
  induction msgs as [|msg msgs IH]; intros i; [reflexivity|].
  cbn [collect numbered List.length seq combine filter]. unfold survives at 1. cbn [fst snd].
  rewrite (Z.leb_antisym _ since). fold (numbered (S i) msgs).
  destruct (received msg (clock i) <? since)%Z; cbn [negb andb]; [apply IH|].
  destruct (addressed_to tempEmailAddress msg); cbn [negb map]; [|apply IH].
  unfold pushed at 1. cbn [fst snd]. now rewrite IH.
Qed.

Lemma numbered_nth msgs : forall i j msg,
  nth_error msgs j = Some msg -> In (i + j, msg) (numbered i msgs).
Proof.
  induction msgs as [|m msgs IH]; intros i [|j] msg H; try discriminate; simpl in *.
  - left. injection H as ->. now rewrite Nat.add_0_r.
  - right. rewrite Nat.add_succ_r. apply (IH (S i)). exact H.
Qed.

Lemma numbered_In msgs : forall i k msg,
  In (k, msg) (numbered i msgs) -> exists j, k = i + j /\ nth_error msgs j = Some msg.
Proof.
  induction msgs as [|m msgs IH]; intros i k msg H; simpl in *; [tauto|].
  destruct H as [H|H].
  - injection H as <- <-. exists 0. now rewrite Nat.add_0_r.
  - apply (IH (S i)) in H as (j & -> & Hj). exists (S j). split; [lia|exact Hj].
Qed.

(** *** The sort *)

Definition newer_first (a b : EmailMessage) : Prop := (receivedAt a >= receivedAt b)%Z.

Lemma insert_perm m l : Permutation (insert m l) (m :: l).
Proof.
  induction l as [|x l IH]; simpl; [reflexivity|].
  destruct (receivedAt x - receivedAt m <=? 0)%Z; [reflexivity|].
  rewrite IH. apply perm_swap.
Qed.

Lemma sort_perm l : Permutation (sort l) l.
Proof.
  induction l as [|m l IH]; simpl; [reflexivity|].
  rewrite insert_perm. now constructor.
Qed.

Lemma insert_sorted m l :
  StronglySorted newer_first l -> StronglySorted newer_first (insert m l).
Proof.
  induction 1 as [|x l Hl IH Hx]; simpl.
  - repeat constructor.
  - destruct (receivedAt x - receivedAt m <=? 0)%Z eqn:E.
    + apply Z.leb_le in E. constructor; [now constructor|].
      constructor; [unfold newer_first; lia|].
      eapply Forall_impl; [|exact Hx]. unfold newer_first. intros; lia.
    + apply Z.leb_gt in E. constructor; [exact IH|].
      rewrite Forall_forall in Hx |- *. intros y Hy.
      apply (Permutation_in _ (insert_perm m l)) in Hy as [<-|Hy].
      * unfold newer_first; lia.
      * now apply Hx.
Qed.

Lemma sort_sorted l : StronglySorted newer_first (sort l).
Proof. induction l; simpl; [constructor|]. now apply insert_sorted. Qed.

(** *** The result of [fetchRecentMessages] *)

Lemma fetchRecentMessages_Ok now clock client tempEmailAddress result :
  fetchRecentMessages now clock client tempEmailAddress = Ok result ->
  (result = [] /\ (search client (now - day_ms) = Ok None \/
                   search client (now - day_ms) = Ok (Some []))) \/
  exists uids msgs,
    uids <> [] /\
    search client (now - day_ms) = Ok (Some uids) /\ fetch client uids = Ok msgs /\
    result = sort (collect (now - day_ms) tempEmailAddress clock 0 msgs).
Proof.
  unfold fetchRecentMessages. destruct (search client (now - day_ms)) as [[[|u uids]|]|e];
    cbn [bind]; try discriminate.
  - intros H; injection H as <-. left. split; [reflexivity|now right].
  - destruct (fetch client (u :: uids)) as [msgs|e] eqn:E; cbn [bind]; [|discriminate].
    intros H; injection H as <-. right. exists (u :: uids), msgs.
    split; [discriminate|]. now repeat split.
  - intros H; injection H as <-. left. split; [reflexivity|now left].
Qed.

Lemma parseEmailContact_email addr : email (parseEmailContact addr) <> "".
Proof.
  destruct addr as [[[[|c r]|] n]|]; discriminate.
Qed.

Lemma collect_from since tempEmailAddress clock msgs : forall i m,
  In m (collect since tempEmailAddress clock i msgs) -> email (from m) <> "".
Proof.
  intros i m. rewrite collect_filter. intros H.
  apply in_map_iff in H as ([k msg] & <- & _). apply parseEmailContact_email.
Qed.

End ImapProvider.

(** ** The connection pool ([connectionPool] and the methods that use it) *)
Module Pool.

(** A live [ImapFlow] object: its identity, which [===] compares, and the
    answers it gives. *)
Record Connection := mkConnection {
  conn_id : nat;
  conn_client : Client
}.

Record Pooled := mkPooled {
  client : Connection;
  lastUsed : Z
}.

(** A [Map] with string keys: its entries in insertion order, no key twice. *)
Section MapOf.
Context {V : Type}.

Fixpoint Map_get (k : string) (m : list (string * V)) : option V :=
  match m with
  | [] => None
  | (k', v) :: r => if String.eqb k k' then Some v else Map_get k r
  end.

(** [m.set(k, v)]: a present key keeps its place. *)
Fixpoint Map_set (k : string) (v : V) (m : list (string * V)) : list (string * V) :=
  match m with
  | [] => [(k, v)]
  | (k', v') :: r => if String.eqb k k' then (k, v) :: r else (k', v') :: Map_set k v r
  end.

Definition Map_delete (k : string) (m : list (string * V)) : list (string * V) :=
  filter (fun e => negb (String.eqb k (fst e))) m.

Definition unique_keys (m : list (string * V)) : Prop := NoDup (map fst m).

Lemma Map_get_set_same k v m : Map_get k (Map_set k v m) = Some v.
Proof.
  induction m as [|[k' v'] m IH]; cbn.
  - now rewrite String.eqb_refl.
  - destruct (String.eqb k k') eqn:E; cbn; rewrite ?String.eqb_refl, ?E; auto.
Qed.

Lemma Map_get_set_other k k' v m : k' <> k -> Map_get k' (Map_set k v m) = Map_get k' m.
Proof.
  intros Hne. induction m as [|[k0 v0] m IH]; cbn.
  - apply String.eqb_neq in Hne. now rewrite Hne.
  - destruct (String.eqb k k0) eqn:E; cbn.
    + apply String.eqb_eq in E. subst k0. apply String.eqb_neq in Hne. now rewrite Hne.
    + now rewrite IH.
Qed.

Lemma Map_get_delete_same k m : Map_get k (Map_delete k m) = None.
Proof.
  unfold Map_delete. induction m as [|[k' v'] m IH]; cbn; [reflexivity|].
  destruct (String.eqb k k') eqn:E; cbn; [exact IH|]. now rewrite E.
Qed.

Lemma Map_get_delete_other k k' m : k' <> k -> Map_get k' (Map_delete k m) = Map_get k' m.
Proof.
  intros Hne. unfold Map_delete. induction m as [|[k0 v0] m IH]; cbn; [reflexivity|].
  destruct (String.eqb k k0) eqn:E; cbn.
  - apply String.eqb_eq in E. subst k0. apply String.eqb_neq in Hne. now rewrite Hne.
  - now rewrite IH.
Qed.

Lemma Map_set_keys k v m :
  forall x, In x (map fst (Map_set k v m)) <-> x = k \/ In x (map fst m).
Proof.
  induction m as [|[k' v'] m IH]; intros x; cbn.
  - intuition.
  - destruct (String.eqb k k') eqn:E; cbn.
    + apply String.eqb_eq in E. subst k'. intuition.
    + rewrite IH. intuition.
Qed.

Lemma unique_keys_set k v m : unique_keys m -> unique_keys (Map_set k v m).
Proof.
  unfold unique_keys. induction m as [|[k' v'] m IH]; cbn; intros H.
  - repeat constructor. intros [].
  - inversion H as [|? ? Hnin Hm]; subst. destruct (String.eqb k k') eqn:E; cbn.
    + apply String.eqb_eq in E. subst k'. now constructor.
    + constructor; [|now apply IH]. rewrite Map_set_keys. intros [->|Hin]; [|contradiction].
      now rewrite String.eqb_refl in E.
Qed.

Lemma unique_keys_filter (f : string * V -> bool) m :
  unique_keys m -> unique_keys (filter f m).
Proof.
  unfold unique_keys. induction m as [|e m IH]; cbn; intros H; [constructor|].
  inversion H as [|? ? Hnin Hm]; subst. destruct (f e); cbn; [|now apply IH].
  constructor; [|now apply IH]. intros Hin. apply Hnin.
  apply in_map_iff in Hin as (x & Hx & Hin). apply filter_In in Hin as [Hin _].
  apply in_map_iff. eauto.
Qed.

Lemma Map_get_In k v m : Map_get k m = Some v -> In (k, v) m.
Proof.
  induction m as [|[k' v'] m IH]; cbn; [discriminate|].
  destruct (String.eqb k k') eqn:E.
  - apply String.eqb_eq in E. subst k'. intros H; injection H as ->. now left.
  - intros H. right. now apply IH.
Qed.

Lemma In_Map_get k v m : unique_keys m -> In (k, v) m -> Map_get k m = Some v.
Proof.
  unfold unique_keys. induction m as [|[k' v'] m IH]; cbn; intros H Hin; [destruct Hin|].
  inversion H as [|? ? Hnin Hm]; subst. destruct Hin as [Hin|Hin].
  - injection Hin as -> ->. now rewrite String.eqb_refl.
  - destruct (String.eqb k k') eqn:E; [|now apply IH].
    apply String.eqb_eq in E. subst k'. exfalso. apply Hnin.
    apply in_map_iff. now exists (k, v).
Qed.

Lemma Map_get_filter (f : string * V -> bool) k v m :
  unique_keys m ->
  (Map_get k (filter f m) = Some v <-> Map_get k m = Some v /\ f (k, v) = true).
Proof.
  intros Hu. split.
  - intros H. apply Map_get_In in H. apply filter_In in H as [Hin Hf].
    split; [now apply In_Map_get|exact Hf].
  - intros [H Hf]. apply In_Map_get; [now apply unique_keys_filter|].
    apply filter_In. split; [now apply Map_get_In|exact Hf].
Qed.

End MapOf.

Definition Pool := list (string * Pooled).

Definition POOL_CLEANUP_INTERVAL : Z := 5 * 60 * 1000.
Definition CONNECTION_MAX_IDLE : Z := 10 * 60 * 1000.

(** [config.imap_port || 993]. *)
Definition port_or_default (config : ImapConfig) : Z :=
  match imap_port config with
  | Some 0%Z | None => 993%Z
  | Some p => p
  end.

Definition getConnectionKey (config : ImapConfig) : string :=
  imap_server config ++ ":" ++ JSON.print_number (port_or_default config) ++ ":"
  ++ imap_user config.

Section Operations.
(** [usable c] is the flag [client.usable] of the connection with identity
    [c] when it is read (a read that throws counts as [false]: in
    [getConnection] both remove the entry and open a new connection);
    [connectImap config] is the outcome of opening a new connection, which
    logs in with the credentials of [config]. *)
Variable usable : nat -> bool.
Variable connectImap : ImapConfig -> result Connection.

(** [now] is the value of [Date.now()]. *)
Definition getConnection (now : Z) (config : ImapConfig) (pool : Pool)
  : result Connection * Pool :=
  let key := getConnectionKey config in
  let '(reused, pool) :=
    match Map_get key pool with
    | Some pooled =>
        if usable (conn_id (client pooled))
        then (Some (client pooled),
              Map_set key {| client := client pooled; lastUsed := now |} pool)
        else (None, Map_delete key pool)
    | None => (None, pool)
    end in
  match reused with
  | Some c => (Ok c, pool)
  | None =>
      match connectImap config with
      | Ok c => (Ok c, Map_set key {| client := c; lastUsed := now |} pool)
      | Throw e => (Throw e, pool)
      end
  end.

Definition removeConnection (config : ImapConfig) (pool : Pool) : Pool :=
  let key := getConnectionKey config in
  match Map_get key pool with
  | Some _ => Map_delete key pool
  | None => pool
  end.

Definition releaseConnection (now : Z) (config : ImapConfig) (c : Connection) (pool : Pool)
  : Pool :=
  let key := getConnectionKey config in
  match Map_get key pool with
  | Some pooled =>
      if Nat.eqb (conn_id (client pooled)) (conn_id c)
      then Map_set key {| client := client pooled; lastUsed := now |} pool
      else pool
  | None => pool
  end.

(** Whether the sweep deletes an entry. *)
Definition stale (now : Z) (pooled : Pooled) : bool :=
  let idleTime := (now - lastUsed pooled)%Z in
  if (idleTime >? CONNECTION_MAX_IDLE)%Z then true
  else negb (usable (conn_id (client pooled))).

(** The callback of [startPoolCleanup]: every entry of the map is visited
    once and a stale one is deleted. *)
Definition cleanup (now : Z) (pool : Pool) : Pool :=
  fold_left
    (fun (acc : Pool) (entry : string * Pooled) =>
       let (key, pooled) := entry in
       if stale now pooled then Map_delete key acc else acc)
    pool pool.

End Operations.
End Pool.

(** ** The operations of the provider on its pool ([getEmails], [getEmailContent]) *)
Module PooledProvider.
Import ImapProvider.
Import Pool.
Section Requests.
Variable node : Node.
Variable env : Env.
Variable parseEmailSource : string -> result (option string * option string).
Variable usable : nat -> bool.
Variable connectImap : ImapConfig -> result Connection.

(** The test of the [catch] block around the use of a connection. *)
Definition connection_error (connectionError : JsError) : bool :=
  (match code connectionError with
   | Some c => String.eqb c "ECONNRESET" || String.eqb c "ETIMEDOUT"
               || String.eqb c "ENOTFOUND"
   | None => false
   end
   || Js.includes "Connection" (message connectionError))%bool.

(** The [catch] and [finally] blocks: [outcome] is what the [try] block
    gave, [released] the reading of the clock in [releaseConnection]. *)
Definition after_use {A} (released : Z) (config : ImapConfig) (c : Connection)
    (outcome : result A) (pool : Pool) : Pool :=
  let pool :=
    match outcome with
    | Throw connectionError =>
        if connection_error connectionError then removeConnection config pool else pool
    | Ok _ => pool
    end in
  releaseConnection released config c pool.

(** [accessToken] when it is given and not empty. *)
Definition required (accessToken : option string) : result string :=
  match accessToken with
  | Some (String c r) => Ok (String c r)
  | _ => Throw (Error "accessToken 为必填字段")
  end.

Definition listing (now : Z) (clock : nat -> Z) (session : ImapSession) (client : Client)
  : result (list EmailMessage) :=
  let mailbox := Js.or_else (imap_dir (imapConfig session)) "INBOX" in
  do _ <- mailboxOpen client mailbox ;;
  fetchRecentMessages now clock client (tempEmailAddress session).

Definition reading (now : Z) (emailId : string) (session : ImapSession) (client : Client)
  : result EmailMessage :=
  let mailbox := Js.or_else (imap_dir (imapConfig session)) "INBOX" in
  do _ <- mailboxOpen client mailbox ;;
  fetchMessageContent parseEmailSource now client emailId.

(** [getEmails] with the pool it works on: [entry], [opened], [now], [clock]
    and [released] are the readings of the clock, in this order. *)
Definition getEmails (entry opened now : Z) (clock : nat -> Z) (released : Z)
    (accessToken : option string) (pool : Pool)
  : ChannelResponse (list EmailMessage) * Pool :=
  match (do token <- required accessToken ;; Token.parseAccessToken node env entry token) with
  | Throw error => (handleError error "getEmails", pool)
  | Ok session =>
      match getConnection usable connectImap opened (imapConfig session) pool with
      | (Throw error, pool) => (handleError error "getEmails", pool)
      | (Ok c, pool) =>
          let outcome := listing now clock session (conn_client c) in
          (respond "getEmails" outcome,
           after_use released (imapConfig session) c outcome pool)
      end
  end.

Definition getEmailContent (entry opened now released : Z) (emailAddress emailId : string)
    (accessToken : option string) (pool : Pool) : ChannelResponse EmailMessage * Pool :=
  match (do token <- required accessToken ;; Token.parseAccessToken node env entry token) with
  | Throw error => (handleError error "getEmailContent", pool)
  | Ok session =>
      match getConnection usable connectImap opened (imapConfig session) pool with
      | (Throw error, pool) => (handleError error "getEmailContent", pool)
      | (Ok c, pool) =>
          let outcome := reading now emailId session (conn_client c) in
          (respond "getEmailContent" outcome,
           after_use released (imapConfig session) c outcome pool)
      end
  end.

(** The connection the pool hands out, as the client the operations use. *)
Definition pool_client (opened : Z) (pool : Pool) (config : ImapConfig) : result Client :=
  match fst (getConnection usable connectImap opened config pool) with
  | Ok c => Ok (conn_client c)
  | Throw error => Throw error
  end.

End Requests.
End PooledProvider.

(** ** The helpers ([generateEmailPrefix], [isValidEmail]) *)
Module Helpers.

Definition WORD_FRAGMENTS : list string :=
  ["john"; "jane"; "mike"; "sarah"; "alex"; "chris"; "david"; "emma"; "james"; "mary";
   "robert"; "lisa"; "michael"; "anna"; "william"; "linda"; "richard"; "susan"; "thomas";
   "karen"; "charles"; "nancy"; "daniel"; "betty"; "paul"; "helen"; "mark"; "sandra";
   "donald"; "ashley"; "george"; "kimberly"; "kenneth"; "donna"; "steven"; "carol";
   "edward"; "michelle"; "brian"; "emily"; "hello"; "world"; "user"; "mail"; "info";
   "contact"; "admin"; "support"; "love"; "life"; "star"; "moon"; "sun"; "sky"; "blue";
   "red"; "cool"; "nice"; "good"; "best"; "top"; "pro"; "max"; "plus"; "new"; "old"; "big";
   "small"; "fast"; "slow"; "hot"; "cold"; "happy"; "lucky"; "smart"; "super"; "mega";
   "ultra"; "prime"; "elite"; "king"; "queen"; "prince"; "tiger"; "lion"; "eagle"; "wolf";
   "bear"; "ocean"; "river"; "mountain"; "forest"; "garden"; "flower"; "tree"; "leaf";
   "book"; "music"; "art"; "game"; "sport"; "team"; "club"; "group"; "city"; "town";
   "street"; "road"; "house"; "home"; "room"; "door"; "run"; "jump"; "fly"; "swim"; "walk";
   "talk"; "sing"; "dance"; "play"; "work"; "study"; "learn"; "teach"; "help"; "love";
   "like"; "make"; "create"; "build"; "design"; "write"; "read"; "think"; "dream";
   "bright"; "dark"; "light"; "heavy"; "soft"; "hard"; "smooth"; "rough"; "young"; "fresh";
   "clean"; "clear"; "pure"; "true"; "real"; "wild"; "free"; "open"; "close"; "wide";
   "narrow"; "deep"; "high"; "low"; "my"; "your"; "our"; "the"; "one"; "two"; "first";
   "last"; "day"; "night"; "time"; "year"; "week"; "hour"; "moment"; "season"; "spring";
   "summer"; "fall"; "winter"; "east"; "west"; "north"; "south"].

(** [Math.floor(r * n)] for a reading [r] of [Math.random()]. *)
Definition scaled (r : Q) (n : Z) : Z := Qfloor (r * inject_Z n).

(** [r < p]. *)
Definition less (r p : Q) : bool := negb (Qle_bool p r).

(** [WORD_FRAGMENTS[i]]; an index out of range, which no reading in
    \[0, 1) gives, reads as the empty string. *)
Definition fragment (i : Z) : string := nth (Z.to_nat i) WORD_FRAGMENTS "".

(** [words.join(separator)]. *)
Fixpoint join (separator : string) (words : list string) : string :=
  match words with
  | [] => ""
  | [w] => w
  | w :: rest => w ++ separator ++ join separator rest
  end.

(** [s.padStart(n, "0")]. *)
Definition padStart (n : nat) (s : string) : string :=
  string_of_list_ascii (repeat "0"%char (n - String.length s)) ++ s.

(** [s.slice(0, n)] and [s.slice(n)] for [n >= 0]. *)
Definition slice_to (n : nat) (s : string) : string := String.substring 0 n s.
Definition slice_from (n : nat) (s : string) : string :=
  String.substring n (String.length s - n) s.

(** [/^\d/.test(s)]. *)
Definition starts_with_digit (s : string) : bool :=
  match s with
  | String c _ => Base64.in_range "0" "9" c
  | EmptyString => false
  end.

(** [random i] is the [i]-th reading of [Math.random()] in the call. *)
Definition generateEmailPrefix (length : Z) (random : nat -> Q) : string :=
  let wordCount := if less (random 0%nat) (1 # 2) then 2%nat else 3%nat in
  let selectedWords :=
    map (fun i => fragment (scaled (random (S i)) (Z.of_nat (List.length WORD_FRAGMENTS))))
        (seq 0 wordCount) in
  let next := S wordCount in
  let useSeparator := less (random next) (3 # 10) in
  let separator := if useSeparator then "-" else "" in
  let prefix := join separator selectedWords in
  let digitCount := (scaled (random (next + 1)%nat) 3 + 2)%Z in
  let digits :=
    padStart (Z.to_nat digitCount)
      (JSON.print_number (scaled (random (next + 2)%nat) (10 ^ digitCount))) in
  let prefix :=
    if less (random (next + 3)%nat) (7 # 10) then prefix ++ digits
    else
      let insertPosition :=
        (String.length (hd "" selectedWords) + (if useSeparator then 1 else 0))%nat in
      slice_to insertPosition prefix ++ digits ++ slice_from insertPosition prefix in
  let next := (next + 4)%nat in
  let '(prefix, next) :=
    if (String.length prefix <? 8)%nat then
      (prefix ++ JSON.print_number (scaled (random next) 100), S next)
    else if (16 <? String.length prefix)%nat then (slice_to 16 prefix, next)
    else (prefix, next) in
  if starts_with_digit prefix then
    let prefix :=
      fragment (scaled (random next) (Z.of_nat (List.length WORD_FRAGMENTS))) ++ prefix in
    if (16 <? String.length prefix)%nat then slice_to 16 prefix else prefix
  else prefix.

End Helpers.

(** ** Validation of an address ([isValidEmail]) *)
Module Regex.

Definition utf8 (bytes : list nat) : string :=
  string_of_list_ascii (map ascii_of_nat bytes).

(** The characters [\s] matches, in UTF-8: tab to carriage return, space,
    U+00A0, U+1680, U+2000 to U+200A, U+2028, U+2029, U+202F, U+205F, U+3000
    and U+FEFF. *)
Definition white_space : list string :=
  [utf8 [9]; utf8 [10]; utf8 [11]; utf8 [12]; utf8 [13]; utf8 [32];
   utf8 [194; 160]; utf8 [225; 154; 128];
   utf8 [226; 128; 128]; utf8 [226; 128; 129]; utf8 [226; 128; 130];
   utf8 [226; 128; 131]; utf8 [226; 128; 132]; utf8 [226; 128; 133];
   utf8 [226; 128; 134]; utf8 [226; 128; 135]; utf8 [226; 128; 136];
   utf8 [226; 128; 137]; utf8 [226; 128; 138];
   utf8 [226; 128; 168]; utf8 [226; 128; 169]; utf8 [226; 128; 175];
   utf8 [226; 129; 159]; utf8 [227; 128; 128]; utf8 [239; 187; 191]].

(** The class [[^\s@]] at the head of the input. *)
Definition not_space_or_at (s : string) : bool :=
  match s with
  | String c _ =>
      negb (Ascii.eqb c "@") && negb (existsb (fun w => String.prefix w s) white_space)
  | EmptyString => false
  end.

(** [[^\s@]+] and then [k]. *)
Fixpoint some_chars (k : string -> bool) (s : string) : bool :=
  match s with
  | String _ r => not_space_or_at s && (some_chars k r || k r)
  | EmptyString => false
  end.

(** A literal character and then [k]. *)
Definition literal (c : ascii) (k : string -> bool) (s : string) : bool :=
  match s with
  | String d r => Ascii.eqb c d && k r
  | EmptyString => false
  end.

(** [$]. *)
Definition at_end (s : string) : bool :=
  match s with
  | EmptyString => true
  | String _ _ => false
  end.

(** [/^[^\s@]+@[^\s@]+\.[^\s@]+$/.test(email)]. *)
Definition isValidEmail (email : string) : bool :=
  some_chars (literal "@" (some_chars (literal "." (some_chars at_end)))) email.

End Regex.

(** ** Connecting a mailbox ([createEmail], [validateImapConfig]) *)
Module Create.
Import ImapProvider.

(** The fields of a request the provider reads; [isMine] absent is [false]. *)
Record CreateEmailRequest := mkRequest {
  prefix : option string;
  imap : option ImapConfig;
  isMine : bool
}.

Record CreateEmailResponse := mkResponse {
  res_address : string;
  res_domain : string;
  res_username : string;
  res_provider : string;
  res_accessToken : string
}.

(** [s.split(separator)] for a separator of one character. *)
Fixpoint split (separator : ascii) (s : string) : list string :=
  match s with
  | EmptyString => [""]
  | String c r =>
      if Ascii.eqb c separator then "" :: split separator r
      else match split separator r with
           | piece :: pieces => String c piece :: pieces
           | [] => [String c ""]
           end
  end.

(** [config[field]] for the fields that are required. *)
Definition field_value (config : ImapConfig) (field : string) : option string :=
  if String.eqb field "domain" then Some (domain config)
  else if String.eqb field "imap_server" then Some (imap_server config)
  else if String.eqb field "imap_user" then Some (imap_user config)
  else if String.eqb field "imap_pass" then Some (imap_pass config)
  else None.

Definition required_message (field : string) : string := "imap." ++ field ++ " 为必填字段".

Fixpoint check_required (config : ImapConfig) (required : list string) : result unit :=
  match required with
  | [] => Ok tt
  | field :: rest =>
      if negb (Js.truthy (field_value config field))
      then Throw (Error (required_message field))
      else check_required config rest
  end.

Definition validateImapConfig (config : ImapConfig) (isMine : bool) : result unit :=
  let required :=
    if isMine then ["imap_server"; "imap_user"; "imap_pass"]
    else ["domain"; "imap_server"; "imap_user"; "imap_pass"] in
  do _ <- check_required config required ;;
  if negb (Regex.isValidEmail (imap_user config)) then
    Throw (Error "imap.imap_user 必须是有效的邮箱地址")
  else
    match imap_port config with
    | Some port =>
        if (negb (port =? 0) && ((port <? 1) || (port >? 65535)))%Z
        then Throw (Error "imap.imap_port 必须在 1-65535 之间")
        else Ok tt
    | None => Ok tt
    end.

Definition missing_imap : string :=
  "当 provider 为 " ++ String JSON.dquote ("imap" ++ String JSON.dquote " 时，imap 字段为必填").

Section WithNode.
Variable node : Node.
Variable env : Env.
(** [testImapConnection config]: a connection is opened with the
    credentials of [config] and closed again. *)
Variable testImapConnection : ImapConfig -> result unit.

(** [random] holds the readings of [Math.random()], [now] is the value of
    [Date.now()] in [generateAccessToken], [iv] that of [randomBytes(16)]. *)
Definition createEmail (random : nat -> Q) (now : Z) (iv : Buffer)
    (request : CreateEmailRequest) : ChannelResponse CreateEmailResponse :=
  respond "createEmail"
    (match imap request with
     | None => Throw (Error missing_imap)
     | Some config =>
         do _ <- validateImapConfig config (isMine request) ;;
         do _ <- testImapConnection config ;;
         let '(tempEmailAddress, username, domain) :=
           if isMine request then
             let emailParts := split "@" (imap_user config) in
             (imap_user config, hd "" emailParts,
              Js.or_else (nth_error emailParts 1) (domain config))
           else
             let username :=
               Js.or_else (prefix request) (Helpers.generateEmailPrefix 10 random) in
             (username ++ "@" ++ domain config, username, domain config) in
         do accessToken <- Token.generateAccessToken node env now iv config tempEmailAddress ;;
         Ok {| res_address := tempEmailAddress;
               res_domain := domain;
               res_username := username;
               res_provider := provider_name;
               res_accessToken := accessToken |}
     end).

End WithNode.
End Create.

(** ** The raw source of a message ([parseEmailSource])

    The three regular expressions are written as the matcher runs them: from
    the left-most start, each lazy quantifier trying the shortest run first.
    Without the [u] flag [\Z] is no anchor but the letter Z, which the [i]
    flag lets match z as well. *)
Module Source.

Definition newline : ascii := "010"%char.
Definition carriage_return : ascii := "013"%char.

(** The same character, letter case apart. *)
Definition same_letter (a b : ascii) : bool :=
  Ascii.eqb (Js.lower_char a) (Js.lower_char b).

(** A literal under the [i] flag, and then [k]. *)
Fixpoint literal_i {A} (text : string) (k : string -> option A) (s : string) : option A :=
  match text with
  | EmptyString => k s
  | String c text =>
      match s with
      | String d r => if same_letter c d then literal_i text k r else None
      | EmptyString => None
      end
  end.

(** [[\s\S]*?] and then [k]: the shortest run for which [k] succeeds. *)
Fixpoint lazy_any {A} (k : string -> option A) (s : string) : option A :=
  match k s with
  | Some found => Some found
  | None =>
      match s with
      | String _ r => lazy_any k r
      | EmptyString => None
      end
  end.

(** [\Z] under the [i] flag: the letter Z or z. *)
Definition letter_z (s : string) : bool :=
  match s with
  | String c _ => same_letter "Z" c
  | EmptyString => false
  end.

(** The lookahead [(?=\n--|\n\r\n--|\r\n--|\Z)]. *)
Definition boundary_ahead (s : string) : bool :=
  (String.prefix (String newline "--") s
   || String.prefix (String newline (String carriage_return (String newline "--"))) s
   || String.prefix (String carriage_return (String newline "--")) s
   || letter_z s)%bool.

(** The group [([\s\S]*?)] before the lookahead: the shortest run after
    which the lookahead holds. *)
Fixpoint lazy_group (s : string) : option string :=
  if boundary_ahead s then Some EmptyString
  else
    match s with
    | String c r =>
        match lazy_group r with
        | Some group => Some (String c group)
        | None => None
        end
    | EmptyString => None
    end.

(** [content.match(/Content-Type: text\/<subtype>[\s\S]*?\n\n([\s\S]*?)(?=...)/i)]:
    the group of the left-most match. *)
Definition part_match (subtype : string) (content : string) : option string :=
  lazy_any
    (literal_i ("Content-Type: text/" ++ subtype)
       (lazy_any (literal_i (String newline (String newline "")) lazy_group)))
    content.

(** [[\s\S]+$]: the rest of the input when it is not empty. *)
Definition rest_of_input (s : string) : option string :=
  match s with
  | EmptyString => None
  | _ => Some s
  end.

(** [content.match(/\n\n([\s\S]+)$/)]. *)
Definition body_match (content : string) : option string :=
  lazy_any (literal_i (String newline (String newline "")) rest_of_input) content.

(** The white space at the head of the input, if there is some: what
    follows it. *)
Definition after_space (s : string) : option string :=
  match s with
  | String a r1 =>
      if existsb (String.eqb (String a "")) Regex.white_space then Some r1
      else
        match r1 with
        | String b r2 =>
            if existsb (String.eqb (String a (String b ""))) Regex.white_space then Some r2
            else
              match r2 with
              | String c r3 =>
                  if existsb (String.eqb (String a (String b (String c ""))))
                       Regex.white_space
                  then Some r3
                  else None
              | EmptyString => None
              end
        | EmptyString => None
        end
  | EmptyString => None
  end.

Fixpoint trim_start (fuel : nat) (s : string) : string :=
  match fuel with
  | O => s
  | S fuel =>
      match after_space s with
      | Some r => trim_start fuel r
      | None => s
      end
  end.

(** Only white space. *)
Definition blank (s : string) : bool :=
  match trim_start (String.length s) s with
  | EmptyString => true
  | _ => false
  end.

Fixpoint trim_end (s : string) : string :=
  match s with
  | EmptyString => EmptyString
  | String c r => if blank s then EmptyString else String c (trim_end r)
  end.

(** [s.trim()]. *)
Definition trim (s : string) : string := trim_end (trim_start (String.length s) s).

(** [if (m && m[1]) { part = m[1].trim() }]. *)
Definition trimmed (group : option string) (otherwise : option string) : option string :=
  match group with
  | Some (String c r) => Some (trim (String c r))
  | _ => otherwise
  end.

Definition parseEmailSource (source : string) : result (option string * option string) :=
  let content := source in
  let textMatch := part_match "plain" content in
  let htmlMatch := part_match "html" content in
  let text := trimmed textMatch None in
  let html := trimmed htmlMatch None in
  let text :=
    if negb (Js.truthy text) && negb (Js.truthy html)
    then trimmed (body_match content) text
    else text in
  Ok (text, html).

End Source.

(** ** The TempMailSafe provider ([src/src/providers/imap.ts], second part)

    The provider keeps counters and a map from addresses to tokens; an
    operation takes this state and returns the state it leaves.  The HTTP
    client and the parsing of dates by [new Date(string)] are parameters.  Of
    [stats] the counters are modelled; the average response time and the time
    of the last request are left out, as are the metadata of a response. *)
Module TempMailSafe.

Definition provider_name : string := "tempmailsafe".

Inductive ChannelErrorType :=
| NETWORK_ERROR
| AUTHENTICATION_ERROR
| API_ERROR
| CONFIGURATION_ERROR
| UNKNOWN_ERROR.

Record ChannelError := mkChannelError {
  message : string;
  type : ChannelErrorType;
  channelName : string;
  statusCode : option Z;
  retryable : bool
}.

Definition createError (type : ChannelErrorType) (message : string) (statusCode : option Z)
  : ChannelError :=
  {| message := message;
     type := type;
     channelName := provider_name;
     statusCode := statusCode;
     retryable :=
       match type with
       | AUTHENTICATION_ERROR | CONFIGURATION_ERROR => false
       | _ => true
       end |}.

(** What a [catch] block may receive: an error this provider made, another
    [Error], or a value that is no [Error], given by its [String(...)]. *)
Inductive Thrown :=
| ThrownChannelError (error : ChannelError)
| ThrownError (message : string)
| ThrownValue (text : string).

Inductive outcome (A : Type) : Type :=
| Returned (x : A)
| Raised (thrown : Thrown).
Arguments Returned {A} x.
Arguments Raised {A} thrown.

(** The [error] of a failed response: the thrown [Error] as it is, a value
    that is no [Error] wrapped as an unknown error. *)
Inductive Reported :=
| ReportedChannelError (error : ChannelError)
| ReportedError (message : string).

Definition report (thrown : Thrown) : Reported :=
  match thrown with
  | ThrownChannelError error => ReportedChannelError error
  | ThrownError message => ReportedError message
  | ThrownValue text => ReportedChannelError (createError UNKNOWN_ERROR text None)
  end.

Inductive Response (A : Type) : Type :=
| Success (data : A)
| Failure (error : Reported).
Arguments Success {A} data.
Arguments Failure {A} error.

Record Contact := mkContact {
  contact_name : string;
  contact_address : string
}.

Record TempMailSafeMessage := mkTempMailSafeMessage {
  msg_id : string;
  msg_from : Contact;
  msg_to : list Contact;
  msg_cc : option (list Contact);
  msg_bcc : option (list Contact);
  msg_subject : string;
  msg_messageId : string;
  msg_date : string;
  msg_text : string;
  msg_html : option string
}.

(** A date is its time value, [None] when it is invalid. *)
Record EmailMessage := mkEmailMessage {
  id : string;
  from : EmailContact;
  to : list EmailContact;
  cc : option (list EmailContact);
  bcc : option (list EmailContact);
  subject : string;
  textContent : string;
  htmlContent : option string;
  receivedAt : option Z;
  isRead : bool;
  provider : string;
  messageId : string
}.

Record EmailListQuery := mkQuery {
  address : string;
  accessToken : option string;
  limit : option Z;
  offset : option Z;
  since : option (option Z);
  unreadOnly : bool
}.

Record HttpResponse := mkHttpResponse {
  ok : bool;
  status : Z;
  statusText : string;
  data : option (list TempMailSafeMessage)
}.

Record ChannelStats := mkStats {
  totalRequests : nat;
  successfulRequests : nat;
  failedRequests : nat;
  errorsToday : nat;
  requestsToday : nat
}.

Record State := mkState {
  stats : ChannelStats;
  sessionTokens : list (string * string)
}.

Definition initial : State :=
  {| stats := {| totalRequests := 0; successfulRequests := 0; failedRequests := 0;
                 errorsToday := 0; requestsToday := 0 |};
     sessionTokens := [] |}.

Inductive StatsEvent := request | success | error.

Definition updateStats (event : StatsEvent) (st : State) : State :=
  let s := stats st in
  let s := {| totalRequests := S (totalRequests s);
              successfulRequests := successfulRequests s;
              failedRequests := failedRequests s;
              errorsToday := errorsToday s;
              requestsToday := S (requestsToday s) |} in
  let s :=
    match event with
    | success =>
        {| totalRequests := totalRequests s;
           successfulRequests := S (successfulRequests s);
           failedRequests := failedRequests s;
           errorsToday := errorsToday s;
           requestsToday := requestsToday s |}
    | error =>
        {| totalRequests := totalRequests s;
           successfulRequests := successfulRequests s;
           failedRequests := S (failedRequests s);
           errorsToday := S (errorsToday s);
           requestsToday := requestsToday s |}
    | request => s
    end in
  {| stats := s; sessionTokens := sessionTokens st |}.

(** [contact.name || undefined]. *)
Definition name_or_undefined (s : string) : option string :=
  match s with
  | EmptyString => None
  | _ => Some s
  end.

Definition mapContact (c : Contact) : EmailContact :=
  {| email := contact_address c; name := name_or_undefined (contact_name c) |}.

(** [list && list.length > 0 ? list.map(...) : undefined]. *)
Definition mapContacts (l : option (list Contact)) : option (list EmailContact) :=
  match l with
  | Some (c :: r) => Some (map mapContact (c :: r))
  | _ => None
  end.

Section WithClient.
(** [parse_date s] is the time value of [new Date(s)]; [http_get cookie] is
    the outcome of the GET of the mail list with that [Cookie] header. *)
Variable parse_date : string -> option Z.
Variable http_get : string -> outcome HttpResponse.

Definition mapToEmailMessage (msg : TempMailSafeMessage) : EmailMessage :=
  {| id := msg_id msg;
     from := mapContact (msg_from msg);
     to := map mapContact (msg_to msg);
     cc := mapContacts (msg_cc msg);
     bcc := mapContacts (msg_bcc msg);
     subject := msg_subject msg;
     textContent := msg_text msg;
     htmlContent := msg_html msg;
     receivedAt := parse_date (msg_date msg);
     isRead := true;
     provider := provider_name;
     messageId := msg_messageId msg |}.

(** [a || b] on numbers: [undefined], [NaN] and 0 give [b]. *)
Definition number_or (a : option Z) (b : Z) : Z :=
  match a with
  | Some 0%Z | None => b
  | Some n => n
  end.

(** An index of [slice]: counted from the end when negative, kept inside
    the array. *)
Definition relative (len i : Z) : Z :=
  if (i <? 0)%Z then Z.max (len + i) 0 else Z.min i len.

(** [l.slice(start, stop)]. *)
Definition slice {A} (start stop : Z) (l : list A) : list A :=
  let len := Z.of_nat (List.length l) in
  let k := relative len start in
  let final := relative len stop in
  firstn (Z.to_nat (final - k)) (skipn (Z.to_nat k) l).

(** [email.receivedAt >= since]: false when one of the dates is invalid. *)
Definition not_before (since : option Z) (email : EmailMessage) : bool :=
  match receivedAt email, since with
  | Some r, Some s => (s <=? r)%Z
  | _, _ => false
  end.

Definition no_token : string :=
  "No authentication token provided. Please provide accessToken parameter or ensure email was created through this service.".

(** [a || b] on strings that may be [undefined]. *)
Definition token_or (a b : option string) : option string :=
  match a with
  | Some (String c r) => Some (String c r)
  | _ => match b with
         | Some (String c r) => Some (String c r)
         | _ => None
         end
  end.

Definition page (query : EmailListQuery) (messages : list TempMailSafeMessage)
  : list EmailMessage :=
  let emails := map mapToEmailMessage messages in
  let filteredEmails := emails in
  let filteredEmails :=
    if unreadOnly query then filter (fun email => negb (isRead email)) filteredEmails
    else filteredEmails in
  let filteredEmails :=
    match since query with
    | Some s => filter (not_before s) filteredEmails
    | None => filteredEmails
    end in
  let limit := number_or (limit query) 20 in
  let offset := number_or (offset query) 0 in
  slice offset (offset + limit) filteredEmails.

Definition finish {A} (attempt : outcome A) (st : State) : Response A * State :=
  match attempt with
  | Returned x => (Success x, updateStats success st)
  | Raised thrown => (Failure (report thrown), updateStats error st)
  end.

Definition getEmails (query : EmailListQuery) (st : State)
  : Response (list EmailMessage) * State :=
  let st := updateStats request st in
  finish
    match token_or (accessToken query) (Pool.Map_get (address query) (sessionTokens st)) with
    | None => Raised (ThrownChannelError (createError AUTHENTICATION_ERROR no_token None))
    | Some userMailbox =>
        match http_get ("userMailbox=" ++ userMailbox) with
        | Raised thrown => Raised thrown
        | Returned response =>
            if negb (ok response) then
              Raised (ThrownChannelError
                        (createError API_ERROR
                           ("TempMailSafe API returned " ++ JSON.print_number (status response)
                            ++ ": " ++ statusText response)
                           (Some (status response))))
            else
              let messages := match data response with Some l => l | None => [] end in
              Returned (page query messages)
        end
    end
    st.

Definition not_found (emailId : string) : string :=
  "Email with id " ++ emailId ++ " not found".

Definition getEmailContent (emailAddress emailId : string) (accessToken : option string)
    (st : State) : Response EmailMessage * State :=
  let st := updateStats request st in
  match token_or accessToken (Pool.Map_get emailAddress (sessionTokens st)) with
  | None =>
      finish (Raised (ThrownChannelError (createError AUTHENTICATION_ERROR no_token None))) st
  | Some userMailbox =>
      let (listResponse, st) :=
        getEmails {| address := emailAddress; accessToken := Some userMailbox;
                     limit := None; offset := None; since := None; unreadOnly := false |}
                  st in
      finish
        match listResponse with
        | Failure _ =>
            Raised (ThrownChannelError (createError API_ERROR "Failed to get email list" None))
        | Success emails =>
            match find (fun e => String.eqb (id e) emailId) emails with
            | Some email => Returned email
            | None =>
                Raised (ThrownChannelError
                          (createError API_ERROR (not_found emailId) (Some 404%Z)))
            end
        end
        st
  end.

Definition deleteEmail (emailAddress : string) (st : State) : Response bool * State :=
  (Success true,
   {| stats := stats st; sessionTokens := Pool.Map_delete emailAddress (sessionTokens st) |}).

End WithClient.
End TempMailSafe.

(** ** More helpers ([parseEmail], [truncateText], [simpleHash])

    [truncateText] and [simpleHash] count and read UTF-16 code units, so
    their text is the list of its code units. *)
Module Text.

Record ParsedEmail := mkParsedEmail {
  username : option string;
  domain : option string
}.

(** [const [username, domain] = email.split('@')]. *)
Definition parseEmail (email : string) : option ParsedEmail :=
  if negb (Regex.isValidEmail email) then None
  else
    let parts := Create.split "@" email in
    Some {| username := nth_error parts 0; domain := nth_error parts 1 |}.

(** [text.substring(0, n)]: a negative [n] counts as 0. *)
Definition substring_to (n : Z) (text : list Z) : list Z := firstn (Z.to_nat n) text.

Definition dots : list Z := [46; 46; 46]%Z.

Definition truncateText (text : list Z) (maxLength : Z) : list Z :=
  if (Z.of_nat (List.length text) <=? maxLength)%Z then text
  else substring_to (maxLength - 3) text ++ dots.

(** [ToInt32]: the integer modulo 2^32, taken between -2^31 and 2^31 - 1. *)
Definition ToInt32 (x : Z) : Z :=
  let m := (x mod 2 ^ 32)%Z in
  if (m <? 2 ^ 31)%Z then m else (m - 2 ^ 32)%Z.

(** [a << n] and [a & b] on numbers. *)
Definition shift_left (a n : Z) : Z := ToInt32 (Z.shiftl (ToInt32 a) n).
Definition bit_and (a b : Z) : Z := ToInt32 (Z.land (ToInt32 a) (ToInt32 b)).

Definition simpleHash (str : list Z) : Z :=
  fold_left
    (fun hash char =>
       let hash := (shift_left hash 5 - hash + char)%Z in
       bit_and hash hash)
    str 0%Z.

End Text.

(** ** The API key check ([createApiKeyAuthWithCustomError]) *)
Module Auth.

(** [s.replace(pattern, replacement)] for a pattern that is a string and a
    replacement without [$]: the first occurrence is replaced. *)
Fixpoint replace (pattern replacement s : string) : string :=
  if String.prefix pattern s then
    replacement ++ String.substring (String.length pattern)
                     (String.length s - String.length pattern) s
  else
    match s with
    | EmptyString => EmptyString
    | String c r => String c (replace pattern replacement r)
    end.

Inductive Verdict :=
| Next
| Unauthorized (error message : string).

(** [apiKey] is the value of [TEMPMAILHUB_API_KEY], [authHeader] that of
    the [Authorization] header. *)
Definition createApiKeyAuthWithCustomError (apiKey authHeader : option string) : Verdict :=
  match apiKey with
  | Some (String k key) =>
      let apiKey := String k key in
      match authHeader with
      | Some authHeader =>
          if negb (Js.startsWith "Bearer " authHeader) then
            Unauthorized
              "Missing API key. Please provide Authorization header with Bearer token."
              "Authentication required"
          else
            let token := replace "Bearer " "" authHeader in
            if negb (String.eqb token apiKey) then
              Unauthorized "Invalid API key. Please provide a valid Bearer token."
                "Authentication failed"
            else Next
      | None =>
          Unauthorized
            "Missing API key. Please provide Authorization header with Bearer token."
            "Authentication required"
      end
  | _ => Next
  end.

End Auth.

(** ** Retrying ([retry])

    [fn] is called once per attempt: [fn i] is the outcome of its call in
    attempt [i].  The function returns its result and the delays it waited
    for, in milliseconds, in order.  What [fn] throws is an [Error]. *)
Module Retry.

Section WithFn.
Context {A : Type}.
Variable fn : nat -> result A.
Variable baseDelay : Z.
Variable backoff : bool.

(** The loop from attempt [attempt] on, with [remaining] attempts after it. *)
Fixpoint attempts (remaining attempt : nat) : result A * list Z :=
  match fn attempt with
  | Ok x => (Ok x, [])
  | Throw lastError =>
      match remaining with
      | O => (Throw lastError, [])
      | S remaining =>
          let delayMs :=
            if backoff then (baseDelay * 2 ^ Z.of_nat attempt)%Z else baseDelay in
          let (outcome, delays) := attempts remaining (S attempt) in
          (outcome, delayMs :: delays)
      end
  end.

End WithFn.

(** [retry(fn, { retries, delay, backoff })]: the delay is 1000 and the
    backoff is on when they are not given. *)
Definition retry {A} (fn : nat -> result A) (retries : nat) (delay : option Z)
    (backoff : option bool) : result A * list Z :=
  let baseDelay := match delay with Some d => d | None => 1000%Z end in
  let backoff := match backoff with Some b => b | None => true end in
  attempts fn baseDelay backoff retries 0.

End Retry.

(** ** The routes ([src/src/routes/mail.ts])

    What a route does before it hands the request to the mail service: the
    answer it gives itself, or the request it passes on. *)
Module Routes.

(** An answer of the route itself: the status and the error text. *)
Record Refusal := mkRefusal {
  status : Z;
  error : string
}.

Fixpoint first_missing (config : ImapConfig) (required : list string) : option string :=
  match required with
  | [] => None
  | field :: rest =>
      if negb (Js.truthy (Create.field_value config field)) then Some field
      else first_missing config rest
  end.

(** [POST /mail/create]: the checks before [mailService.createEmail(body)];
    [None] when the body is passed on. *)
Definition create_checks (provider : option string) (imap : option ImapConfig)
  : option Refusal :=
  match provider with
  | Some p =>
      if String.eqb p "imap" then
        match imap with
        | None => Some {| status := 400; error := Create.missing_imap |}
        | Some config =>
            match first_missing config ["domain"; "imap_server"; "imap_user"; "imap_pass"] with
            | Some field => Some {| status := 400; error := Create.required_message field |}
            | None =>
                if negb (Regex.isValidEmail (imap_user config)) then
                  Some {| status := 400; error := "imap.imap_user 必须是有效的邮箱地址" |}
                else
                  match imap_port config with
                  | Some port =>
                      if (negb (port =? 0) && ((port <? 1) || (port >? 65535)))%Z then
                        Some {| status := 400; error := "imap.imap_port 必须在 1-65535 之间" |}
                      else None
                  | None => None
                  end
            end
        end
      else None
  | None => None
  end.




End Routes.

(** * The claims *)

(** ** Concrete inputs *)

(** A stand-in for Node's cryptography that meets [gcm_correct]: the
    ciphertext is the plaintext and the tag is sixteen fixed bytes.  The
    theorems below hold for every [Node]; this one instantiates them. *)
Definition fixed_tag : Buffer := repeat "*"%char 16.

Definition buffer_eqb (a b : Buffer) : bool :=
  String.eqb (Buffer_toString a) (Buffer_toString b).

Definition stand_in : Node :=
  {| sha256 := fun secret => secret;
     gcm_encrypt := fun key iv plaintext => (plaintext, fixed_tag);
     gcm_decrypt := fun key iv authTag ciphertext =>
                      if buffer_eqb authTag fixed_tag then Some ciphertext else None;
     syntax_error_message := fun text => "Unexpected token in JSON" |}.

Lemma stand_in_correct : gcm_correct stand_in.
Proof. intros key iv plaintext. cbn. auto. Qed.

Definition example_config : ImapConfig :=
  {| domain := "domain.test";
     imap_server := "imap.domain.test";
     imap_port := Some 993%Z;
     imap_user := "owner@domain.test";
     imap_pass := "app-password";
     imap_dir := None |}.

Definition example_session : ImapSession :=
  {| tempEmailAddress := "abc123@domain.test";
     imapConfig := example_config;
     timestamp := Some 1700000000000%Z |}.

Definition example_iv : Buffer := Buffer_from "0123456789abcdef".

Definition plain_env : Env :=
  {| IMAP_ENCRYPT_TOKEN := None; IMAP_ENCRYPTION_KEY := None; IMAP_TOKEN_TTL_HOURS := None |}.


Lemma example_session_valid : valid_session example_session.
Proof. unfold valid_session, safe_opt, safe_integer, MAX_SAFE_INTEGER. cbn. lia. Qed.

(** ** C1 *)

(** C1. Decoding the token of a valid session gives the session back, in
    the plaintext mode and, with the same secret key, in the encrypted mode. *)
Theorem session_round_trip (node : Node) (session : ImapSession)
    (secretKey : string) (iv : Buffer) :
  gcm_correct node -> valid_session session -> List.length iv = 16 ->
  CryptoUtil.decodeImapSession node (CryptoUtil.encodeImapSession session) = Ok session /\
  CryptoUtil.decryptImapSession node
    (CryptoUtil.encryptImapSession node iv session secretKey) secretKey = Ok session.
Proof.
  intros Hgcm _ Hiv. split.
  - apply CryptoUtil.decodeImapSession_encode.
  - now apply CryptoUtil.decrypt_encrypt.
Qed.

Lemma session_round_trip_witness :
  CryptoUtil.decodeImapSession stand_in (CryptoUtil.encodeImapSession example_session)
    = Ok example_session /\
  CryptoUtil.decryptImapSession stand_in
    (CryptoUtil.encryptImapSession stand_in example_iv example_session "secret") "secret"
    = Ok example_session.
Proof.
  apply (session_round_trip stand_in example_session "secret" example_iv).
  - exact stand_in_correct.
  - exact example_session_valid.
  - reflexivity.
Defined.

(** ** C2 *)






(** ** C2, amended *)



Lemma parseAccessToken_encrypted node env now token c r :
  Token.encryptEnabled env = true -> IMAP_ENCRYPTION_KEY env = Some (String c r) ->
  Token.parseAccessToken node env now token =
  match (do session <- CryptoUtil.decryptImapSession node token (String c r) ;;
         do _ <- Token.validateTokenExpiration env now session ;; Ok session) with
  | Ok session => Ok session
  | Throw error =>
      if Js.includes "已过期" (message error) then Throw error else Throw Token.invalid_token
  end.
Proof. intros He Hk. unfold Token.parseAccessToken. now rewrite He, Hk. Qed.






(** ** C4 *)

Lemma firstn_prefix {A} (a b : list A) n : List.length a = n -> firstn n (a ++ b)%list = a.
Proof.
  intros <-. now rewrite firstn_app, Nat.sub_diag, firstn_O, firstn_all, List.app_nil_r.
Qed.

Lemma Ok_inj {A} (x y : A) : Ok x = Ok y -> x = y.
Proof. congruence. Qed.

(** C4.  Two calls of [generateAccessToken] for the same credentials and
    address return the same token exactly when they read the same clock
    value, in the plaintext mode; in the encrypted mode, exactly when they
    read the same clock value and draw the same initialisation vector.  So
    two calls within one millisecond return byte-identical plaintext tokens. *)
Theorem tokens_equal_iff (node : Node) (env : Env) (config : ImapConfig)
    (tempEmailAddress : string) (now1 now2 : Z) (iv1 iv2 : Buffer) :
  gcm_correct node -> List.length iv1 = 16 -> List.length iv2 = 16 ->
  (Token.encryptEnabled env = false ->
   (Token.generateAccessToken node env now1 iv1 config tempEmailAddress
    = Token.generateAccessToken node env now2 iv2 config tempEmailAddress
    <-> now1 = now2)) /\
  (forall c r, Token.encryptEnabled env = true ->
   IMAP_ENCRYPTION_KEY env = Some (String c r) ->
   (Token.generateAccessToken node env now1 iv1 config tempEmailAddress
    = Token.generateAccessToken node env now2 iv2 config tempEmailAddress
    <-> now1 = now2 /\ iv1 = iv2)).
Proof.
  intros Hgcm H1 H2. split.
  - intros He. unfold Token.generateAccessToken. rewrite He. split; [|now intros ->].
    intros E. apply Ok_inj in E.
    pose proof (CryptoUtil.decodeImapSession_encode node
      {| tempEmailAddress := tempEmailAddress; imapConfig := config; timestamp := Some now1 |}) as D.
    rewrite E, CryptoUtil.decodeImapSession_encode in D. congruence.
  - intros c r He Hk. unfold Token.generateAccessToken. rewrite He, Hk.
    split; [|now intros [-> ->]].
    intros E. apply Ok_inj in E. split.
    + pose proof (CryptoUtil.decrypt_encrypt node iv1
        {| tempEmailAddress := tempEmailAddress; imapConfig := config; timestamp := Some now1 |}
        (String c r) Hgcm H1) as D.
      rewrite E, CryptoUtil.decrypt_encrypt in D by assumption. congruence.
    + revert E. unfold CryptoUtil.encryptImapSession.
      do 2 destruct (gcm_encrypt node _ _ _). intros E. apply Base64.encode_inj in E.
      apply (f_equal (firstn 16)) in E.
      now rewrite (firstn_prefix iv1), (firstn_prefix iv2) in E.
Qed.

(** Two calls in the same millisecond, plaintext mode. *)
Lemma same_millisecond_same_token :
  Token.generateAccessToken stand_in plain_env 1700000000000 example_iv
    example_config "abc123@domain.test"
  = Token.generateAccessToken stand_in plain_env 1700000000000
      (Buffer_from "fedcba9876543210") example_config "abc123@domain.test".
Proof.
  apply (proj1 (tokens_equal_iff stand_in plain_env example_config "abc123@domain.test"
                  1700000000000 1700000000000 example_iv (Buffer_from "fedcba9876543210")
                  stand_in_correct eq_refl eq_refl) eq_refl).
  reflexivity.
Defined.

(** ** C5 *)

(** [parseInt(process.env.IMAP_TOKEN_TTL_HOURS || '0', 10)]. *)
Definition ttl_hours (env : Env) : option Z :=
  Js.parseInt (Js.or_else (IMAP_TOKEN_TTL_HOURS env) "0").

Definition hour_ms : Z := 60 * 60 * 1000.

(** The claim on one input: no check when the ttl is at most 0 or there is
    no timestamp, and otherwise a failure exactly when the age of the token
    exceeds the ttl. *)
Definition expiry_as_claimed (env : Env) (now : Z) (session : ImapSession) : Prop :=
  let outcome := Token.validateTokenExpiration env now session in
  let unlimited := exists t, ttl_hours env = Some t /\ (t <= 0)%Z in
  (unlimited \/ timestamp session = None -> outcome = Ok tt) /\
  (forall t issued,
     ttl_hours env = Some t -> (0 < t)%Z -> timestamp session = Some issued ->
     ((exists error, outcome = Throw error) <-> (now - issued > t * hour_ms)%Z)).

Definition one_hour_env : Env :=
  {| IMAP_ENCRYPT_TOKEN := None; IMAP_ENCRYPTION_KEY := None;
     IMAP_TOKEN_TTL_HOURS := Some "1" |}.

Definition epoch_session : ImapSession :=
  {| tempEmailAddress := "abc123@domain.test";
     imapConfig := example_config;
     timestamp := Some 0%Z |}.

(** C5, refuted as stated: a session stamped 0 carries a timestamp, is
    older than the ttl of one hour, and passes. *)
Lemma zero_timestamp_never_expires :
  ~ expiry_as_claimed one_hour_env 1700000000000 epoch_session.
Proof.
  intros [_ H]. specialize (H 1%Z 0%Z eq_refl eq_refl eq_refl).
  destruct H as [_ H]. destruct H as [error H]; [reflexivity|]. discriminate H.
Qed.

(** C5, amended.  [validateTokenExpiration] checks nothing when the ttl is
    at most 0 or is not a number, and when the timestamp of the session is
    absent or 0; otherwise it throws the expiry error exactly when
    [now - timestamp] is more than the ttl in milliseconds, and returns
    otherwise. *)
Theorem validateTokenExpiration_spec (env : Env) (now : Z) (session : ImapSession) :
  let outcome := Token.validateTokenExpiration env now session in
  (ttl_hours env = None \/ (exists t, ttl_hours env = Some t /\ (t <= 0)%Z) \/
   timestamp session = None \/ timestamp session = Some 0%Z ->
   outcome = Ok tt) /\
  (forall t issued,
     ttl_hours env = Some t -> (0 < t)%Z ->
     timestamp session = Some issued -> issued <> 0%Z ->
     (outcome = Throw (Error (Token.expired_message t)) <-> (now - issued > t * hour_ms)%Z) /\
     (outcome = Ok tt <-> (now - issued <= t * hour_ms)%Z) /\
     Js.includes "已过期" (Token.expired_message t) = true).
Proof.
  cbv zeta. unfold Token.validateTokenExpiration. fold (ttl_hours env). split.
  - intros [H | [(t & H & Ht) | [H | H]]]; rewrite H.
    + now destruct (timestamp session) as [[| |]|].
    + apply Z.leb_le in Ht. now rewrite Ht.
    + now destruct (match ttl_hours env with Some t => _ | None => _ end).
    + now destruct (match ttl_hours env with Some t => _ | None => _ end).
  - intros t issued Ht Hpos Hts Hnz. rewrite Ht, Hts.
    apply Z.leb_gt in Hpos. rewrite Hpos.
    replace (t * 60 * 60 * 1000)%Z with (t * hour_ms)%Z by (unfold hour_ms; lia).
    assert (Hbody : (if (now - issued >? t * hour_ms)%Z
                     then @Throw unit (Error (Token.expired_message t)) else Ok tt) =
                    match issued with
                    | 0%Z => Ok tt
                    | _ => if (now - issued >? t * hour_ms)%Z
                           then Throw (Error (Token.expired_message t)) else Ok tt
                    end) by (destruct issued; [congruence|reflexivity|reflexivity]).
    rewrite <- Hbody. rewrite Z.gtb_ltb.
    destruct (t * hour_ms <? now - issued)%Z eqn:E;
      [apply Z.ltb_lt in E | apply Z.ltb_ge in E]; repeat split;
      try (intros; lia); try discriminate; reflexivity.
Qed.

Import ImapProvider.

(** ** A mailbox to run the query engine on *)

Definition to_address (a : string) : Address := {| address := Some a; addr_name := None |}.

Definition message_to (n : Z) (recipients cc_list : list string) (date : option Z)
  : FetchedMessage :=
  {| uid := n;
     envelope := {| env_from := Some [to_address "sender@elsewhere.test"];
                    env_to := Some (map to_address recipients);
                    env_cc := match cc_list with [] => None | _ => Some (map to_address cc_list) end;
                    env_bcc := None;
                    env_subject := Some "hello";
                    env_messageId := None |};
     internalDate := date;
     seen := Some false;
     msg_size := Some 1024%Z;
     bodyStructure := None;
     source := None |}.

Definition example_now : Z := 1700000000000.

(** Four messages: one to the address in another letter case, one to a
    longer address that contains it, one to the address but two days old, and
    one that names the address in Cc. *)
Definition example_inbox : list FetchedMessage :=
  [ message_to 1 ["ABC123@Domain.Test"] [] (Some (example_now - 1000)%Z);
    message_to 2 ["sub.abc123@domain.test"] [] (Some (example_now - 2000)%Z);
    message_to 3 ["abc123@domain.test"] [] (Some (example_now - 2 * day_ms)%Z);
    message_to 4 ["other@domain.test"] ["abc123@domain.test"] (Some (example_now - 500)%Z) ].

Definition example_client : Client :=
  {| mailboxOpen := fun _ => Ok tt;
     search := fun _ => Ok (Some [1; 2; 3; 4]%Z);
     fetch := fun _ => Ok example_inbox;
     fetchOne := fun n => match n with
                          | Some 1%Z => Ok (hd_error example_inbox)
                          | _ => Ok None
                          end;
     download := fun _ _ => Ok None |}.

Definition example_clock (i : nat) : Z := (example_now + Z.of_nat i)%Z.

Definition example_result : list EmailMessage :=
  [ summary (message_to 4 ["other@domain.test"] ["abc123@domain.test"]
               (Some (example_now - 500)%Z)) (example_now - 500)%Z;
    summary (message_to 1 ["ABC123@Domain.Test"] [] (Some (example_now - 1000)%Z))
      (example_now - 1000)%Z ].

Lemma example_fetch :
  fetchRecentMessages example_now example_clock example_client "abc123@domain.test"
  = Ok example_result.
Proof. vm_compute. reflexivity. Qed.

(** ** C3 *)

(** C3.  A message is in the result of [fetchRecentMessages] only if it is
    the summary of a fetched message one of whose To, Cc or Bcc addresses
    equals the temporary address, letter case apart; an address that only
    contains it, or shares its domain, does not count. *)
Theorem recipient_filter (now : Z) (clock : nat -> Z) (client : Client)
    (tempEmailAddress : string) (result : list EmailMessage) (m : EmailMessage) :
  fetchRecentMessages now clock client tempEmailAddress = Ok result ->
  In m result ->
  exists uids msgs i msg,
    search client (now - day_ms) = Ok (Some uids) /\ fetch client uids = Ok msgs /\
    nth_error msgs i = Some msg /\
    m = summary msg (received msg (clock i)) /\
    exact_recipient tempEmailAddress msg.
Proof.
  intros H Hin. apply fetchRecentMessages_Ok in H as [[-> _] | (uids & msgs & _ & Hs & Hf & ->)].
  - destruct Hin.
  - apply (Permutation_in _ (sort_perm _)) in Hin. rewrite collect_filter in Hin.
    apply in_map_iff in Hin as ([k msg] & <- & Hk). apply filter_In in Hk as [Hk Hsurv].
    apply numbered_In in Hk as (j & -> & Hj).
    apply andb_true_iff in Hsurv as [_ Haddr]. cbn [snd] in Haddr.
    exists uids, msgs, j, msg. repeat split; try assumption.
    now apply addressed_to_exact.
Qed.

Lemma recipient_filter_witness :
  exists uids msgs i msg,
    search example_client (example_now - day_ms) = Ok (Some uids) /\
    fetch example_client uids = Ok msgs /\
    nth_error msgs i = Some msg /\
    hd (summary (message_to 0 [] [] None) 0%Z) example_result
      = summary msg (received msg (example_clock i)) /\
    exact_recipient "abc123@domain.test" msg.
Proof.
  apply (recipient_filter example_now example_clock example_client "abc123@domain.test"
           example_result).
  - exact example_fetch.
  - left. reflexivity.
Defined.

(** An address that only contains the temporary address is no recipient. *)
Example substring_is_no_match :
  addressed_to "a@x.com" (message_to 1 ["sub.a@x.com"; "b@x.com"] [] None) = false.
Proof. reflexivity. Qed.

(** ** C6 *)

(** C6.  Every message [fetchRecentMessages] returns was received at or
    after the cutoff of 24 hours, the list is in descending order of
    [receivedAt], and it is a rearrangement of the summaries of all the
    fetched messages that pass the date and the recipient test: none is cut
    off: the summary of every such message is in the list. *)
Theorem recent_messages_complete (now : Z) (clock : nat -> Z) (client : Client)
    (tempEmailAddress : string) (result : list EmailMessage) :
  fetchRecentMessages now clock client tempEmailAddress = Ok result ->
  Forall (fun m => (receivedAt m >= now - day_ms)%Z) result /\
  StronglySorted newer_first result /\
  (forall uids msgs,
     uids <> [] -> search client (now - day_ms) = Ok (Some uids) ->
     fetch client uids = Ok msgs ->
     Permutation result
       (map (pushed clock)
          (filter (survives (now - day_ms) tempEmailAddress clock) (numbered 0 msgs))) /\
     forall i msg,
       nth_error msgs i = Some msg ->
       (now - day_ms <= received msg (clock i))%Z ->
       exact_recipient tempEmailAddress msg ->
       In (summary msg (received msg (clock i))) result).
Proof.
  intros H. apply fetchRecentMessages_Ok in H as [[-> Hs] | (uids & msgs & Hne & Hs & Hf & ->)].
  - split; [constructor|]. split; [constructor|].
    intros uids msgs Hne Hs'. rewrite Hs' in Hs.
    destruct Hs as [Hs|Hs]; [discriminate|]. injection Hs as ->. now elim Hne.
  - split; [|split].
    + rewrite Forall_forall. intros m Hin.
      apply (Permutation_in _ (sort_perm _)) in Hin. rewrite collect_filter in Hin.
      apply in_map_iff in Hin as ([k msg] & <- & Hk). apply filter_In in Hk as [_ Hsurv].
      apply andb_true_iff in Hsurv as [Hdate _]. apply Z.leb_le in Hdate.
      cbn [fst snd] in Hdate. unfold pushed. cbn [fst snd summary receivedAt]. lia.
    + apply sort_sorted.
    + intros uids' msgs' _ Hs' Hf'. rewrite Hs' in Hs. injection Hs as ->.
      rewrite Hf' in Hf. injection Hf as ->. split.
      * rewrite <- collect_filter. apply sort_perm.
      * intros i msg Hi Hdate Haddr.
        apply (Permutation_in _ (Permutation_sym (sort_perm _))).
        rewrite collect_filter. apply in_map_iff. exists (i, msg). split; [reflexivity|].
        apply filter_In. split; [now apply (numbered_nth _ 0)|].
        unfold survives. cbn [fst snd]. apply andb_true_iff. split.
        -- now apply Z.leb_le.
        -- now apply addressed_to_exact.
Qed.

Lemma recent_messages_complete_witness :
  Forall (fun m => (receivedAt m >= example_now - day_ms)%Z) example_result /\
  StronglySorted newer_first example_result /\
  (forall uids msgs,
     uids <> [] -> search example_client (example_now - day_ms) = Ok (Some uids) ->
     fetch example_client uids = Ok msgs ->
     Permutation example_result
       (map (pushed example_clock)
          (filter (survives (example_now - day_ms) "abc123@domain.test" example_clock)
             (numbered 0 msgs))) /\
     forall i msg,
       nth_error msgs i = Some msg ->
       (example_now - day_ms <= received msg (example_clock i))%Z ->
       exact_recipient "abc123@domain.test" msg ->
       In (summary msg (received msg (example_clock i))) example_result).
Proof.
  apply (recent_messages_complete example_now example_clock example_client
           "abc123@domain.test" example_result).
  exact example_fetch.
Defined.

(** ** C7 *)


(** The structure of the spec's test: text/plain, text/html and one
    attachment under multipart/mixed. *)
Definition leaf (t st path : string) (disp file : option string) : BodyStructure :=
  {| type := Some t; subtype := Some st; part := Some path;
     disposition := disp; dispositionParameters_filename := file;
     parameters_name := None; node_size := Some 2048%Z; node_id := None;
     childNodes := None |}.

Definition three_parts : BodyStructure :=
  {| type := Some "multipart"; subtype := Some "MIXED"; part := None;
     disposition := None; dispositionParameters_filename := None;
     parameters_name := None; node_size := None; node_id := None;
     childNodes :=
       Some [ {| type := Some "multipart/alternative"; subtype := None; part := Some "1";
                 disposition := None; dispositionParameters_filename := None;
                 parameters_name := None; node_size := None; node_id := None;
                 childNodes := Some [ leaf "text" "plain" "1.1" None None;
                                      leaf "TEXT" "HTML" "1.2" None None ] |};
              leaf "application" "pdf" "2" (Some "ATTACHMENT") (Some "report.pdf") ] |}.

Example three_parts_bodies :
  Mime.findBodyPart three_parts "text/plain" = Some "1.1" /\
  Mime.findBodyPart three_parts "text/html" = Some "1.2" /\
  Mime.findBodyPart three_parts "image/png" = None.
Proof. repeat split; reflexivity. Qed.

(** ** C8 *)




Example three_parts_attachments :
  Mime.findAttachments three_parts []
  = [ {| att_id := "2"; filename := "report.pdf"; contentType := "application/pdf";
         att_size := 2048; inline := false; contentId := None |} ].
Proof. reflexivity. Qed.

(** ** C9 *)

(** None of the texts [handleError] looks for is in the message. *)
Definition unclassified (msg : string) : Prop :=
  Js.includes "ECONNREFUSED" msg = false /\ Js.includes "ETIMEDOUT" msg = false /\
  Js.includes "AUTHENTICATIONFAILED" msg = false /\
  Js.includes "Invalid credentials" msg = false /\
  Js.includes "Mailbox does not exist" msg = false.

(** C9, as the code has it.  When the token is good, the mailbox opens and
    the server has no message for the identifier, [getEmailContent] answers
    with the error of [fetchMessageContent] classified by [handleError]: an
    unknown error without details, not an API error. *)
Theorem not_found_is_unknown_error (node : Node) (env : Env)
    (parseEmailSource : string -> result (option string * option string))
    (getConnection : ImapConfig -> result Client)
    (entry now : Z) (emailAddress emailId accessToken : string)
    (session : ImapSession) (client : Client) :
  accessToken <> "" ->
  Token.parseAccessToken node env entry accessToken = Ok session ->
  getConnection (imapConfig session) = Ok client ->
  mailboxOpen client (Js.or_else (imap_dir (imapConfig session)) "INBOX") = Ok tt ->
  fetchOne client (Js.parseInt emailId) = Ok None ->
  unclassified (not_found_message emailId) ->
  getEmailContent node env parseEmailSource getConnection entry now
    emailAddress emailId (Some accessToken)
  = Failure {| error_message := not_found_message emailId;
               error_type := UNKNOWN_ERROR;
               channelName := "imap";
               retryable := false;
               context := None |}
      "getEmailContent" None.
Proof.
  intros Hne Htoken Hconn Hopen Hnone (H1 & H2 & H3 & H4 & H5).
  unfold getEmailContent. destruct accessToken as [|c r]; [congruence|].
  rewrite Htoken. cbn [bind]. rewrite Hconn. cbn [bind]. rewrite Hopen. cbn [bind].
  unfold fetchMessageContent. rewrite Hnone. cbn [bind respond].
  unfold handleError. cbn [message Error]. now rewrite H1, H2, H3, H4, H5.
Qed.

Lemma not_found_is_unknown_error_witness :
  getEmailContent stand_in plain_env (fun _ => Ok (None, None)) (fun _ => Ok example_client)
    1700000000001 example_now "abc123@domain.test" "999"
    (Some (CryptoUtil.encodeImapSession example_session))
  = Failure {| error_message := not_found_message "999";
               error_type := UNKNOWN_ERROR;
               channelName := "imap";
               retryable := false;
               context := None |}
      "getEmailContent" None.
Proof.
  apply (not_found_is_unknown_error stand_in plain_env (fun _ => Ok (None, None))
           (fun _ => Ok example_client) 1700000000001 example_now "abc123@domain.test" "999"
           (CryptoUtil.encodeImapSession example_session) example_session example_client).
  - vm_compute. discriminate.
  - vm_compute. reflexivity.
  - reflexivity.
  - reflexivity.
  - reflexivity.
  - repeat split; reflexivity.
Defined.

(** An identifier that is no number is looked up as [NaN] and ends the same
    way. *)
Example not_a_number_is_unknown_error :
  getEmailContent stand_in plain_env (fun _ => Ok (None, None)) (fun _ => Ok example_client)
    1700000000001 example_now "abc123@domain.test" "abc"
    (Some (CryptoUtil.encodeImapSession example_session))
  = Failure {| error_message := not_found_message "abc";
               error_type := UNKNOWN_ERROR;
               channelName := "imap";
               retryable := false;
               context := None |}
      "getEmailContent" None.
Proof. vm_compute. reflexivity. Qed.

(** ** C10 *)

Lemma handleError_fails {A} error operation : forall data : A,
  handleError error operation <> Success data.
Proof.
  intros data. unfold handleError.
  destruct (_ || _); [discriminate|]. destruct (_ || _); [discriminate|].
  destruct (Js.includes _ _); discriminate.
Qed.

Lemma respond_Success {A} operation (r : result A) data :
  respond operation r = Success data -> r = Ok data.
Proof.
  destruct r as [x|e]; cbn [respond].
  - congruence.
  - intros H. now apply handleError_fails in H.
Qed.

Lemma bind_Ok {A B} (r : result A) (k : A -> result B) y :
  bind r k = Ok y -> exists x, r = Ok x /\ k x = Ok y.
Proof. destruct r as [x|e]; cbn [bind]; [eauto|discriminate]. Qed.

(** C10.  [parseEmailContact] always gives a contact: the placeholder when
    there is no address entry, the placeholder address when the entry has no
    address.  So the sender of every message that [getEmails] and
    [getEmailContent] return has a non-empty address. *)
Theorem sender_never_empty (node : Node) (env : Env)
    (parseEmailSource : string -> result (option string * option string))
    (getConnection : ImapConfig -> result Client) :
  parseEmailContact None = {| email := "unknown@unknown.com"; name := None |} /\
  (forall a, Js.truthy (address a) = false ->
             parseEmailContact (Some a)
             = {| email := "unknown@unknown.com"; name := addr_name a |}) /\
  (forall addr, email (parseEmailContact addr) <> "") /\
  (forall entry now clock accessToken messages,
     getEmails node env getConnection entry now clock accessToken = Success messages ->
     Forall (fun m => email (from m) <> "") messages) /\
  (forall entry now emailAddress emailId accessToken m,
     getEmailContent node env parseEmailSource getConnection entry now
       emailAddress emailId accessToken = Success m ->
     email (from m) <> "").
Proof.
  split; [reflexivity|]. split.
  { intros [[[|c r]|] n]; cbn; intros H; try discriminate; reflexivity. }
  split; [apply parseEmailContact_email|]. split.
  - intros entry now clock accessToken messages H. unfold getEmails in H.
    apply respond_Success in H. destruct accessToken as [[|c r]|]; try discriminate.
    apply bind_Ok in H as (session & _ & H). apply bind_Ok in H as (client & _ & H).
    apply bind_Ok in H as (u & _ & H).
    apply fetchRecentMessages_Ok in H as [[-> _] | (uids & msgs & _ & _ & _ & ->)];
      [constructor|].
    rewrite Forall_forall. intros m Hin. apply (Permutation_in _ (sort_perm _)) in Hin.
    now apply collect_from in Hin.
  - intros entry now emailAddress emailId accessToken m H. unfold getEmailContent in H.
    apply respond_Success in H. destruct accessToken as [[|c r]|]; try discriminate.
    apply bind_Ok in H as (session & _ & H). apply bind_Ok in H as (client & _ & H).
    apply bind_Ok in H as (u & _ & H). unfold fetchMessageContent in H.
    apply bind_Ok in H as (found & _ & H). destruct found as [message|]; [|discriminate].
    destruct (source message);
      repeat match type of H with
        | context [if ?b then _ else _] => destruct b
        | context [match parseEmailSource ?s with _ => _ end] => destruct (parseEmailSource s) as [[? ?]|]
        end;
      injection H as <-; apply parseEmailContact_email.
Qed.

(** * Further properties of the provider *)

(** ** Access tokens from issue to use *)

Lemma parseAccessToken_plain node env now token :
  Token.encryptEnabled env = false ->
  Token.parseAccessToken node env now token =
  match (do session <- CryptoUtil.decodeImapSession node token ;;
         do _ <- Token.validateTokenExpiration env now session ;; Ok session) with
  | Ok session => Ok session
  | Throw error =>
      if Js.includes "已过期" (message error) then Throw error else Throw Token.invalid_token
  end.
Proof. intros He. unfold Token.parseAccessToken. now rewrite He. Qed.

(** Whatever [validateTokenExpiration] throws is the expiry error. *)
Lemma validateTokenExpiration_throws env now session error :
  Token.validateTokenExpiration env now session = Throw error ->
  exists t, ttl_hours env = Some t /\ error = Error (Token.expired_message t) /\
            Js.includes "已过期" (message error) = true.
Proof.
  unfold Token.validateTokenExpiration. fold (ttl_hours env).
  destruct (ttl_hours env) as [t|].
  - destruct (t <=? 0)%Z; [discriminate|].
    destruct (timestamp session) as [[|p|p]|]; try discriminate;
      destruct (_ >? _)%Z; try discriminate;
      intros H; injection H as <-; exists t; repeat split; reflexivity.
  - destruct (timestamp session) as [[|p|p]|]; discriminate.
Qed.

(** The session a token is issued for. *)
Definition issued_session (config : ImapConfig) (tempEmailAddress : string) (now : Z)
  : ImapSession :=
  {| tempEmailAddress := tempEmailAddress; imapConfig := config; timestamp := Some now |}.

Lemma generated_token_decodes node env now iv config tempEmailAddress token later :
  gcm_correct node -> List.length iv = 16 ->
  Token.generateAccessToken node env now iv config tempEmailAddress = Ok token ->
  Token.parseAccessToken node env later token =
  match Token.validateTokenExpiration env later (issued_session config tempEmailAddress now) with
  | Ok _ => Ok (issued_session config tempEmailAddress now)
  | Throw error => Throw error
  end.
Proof.
  intros Hgcm Hiv. unfold Token.generateAccessToken.
  destruct (Token.encryptEnabled env) eqn:He.
  - destruct (IMAP_ENCRYPTION_KEY env) as [[|c r]|] eqn:Hk; try discriminate.
    intros H; injection H as <-.
    rewrite (parseAccessToken_encrypted node env later _ c r He Hk).
    rewrite CryptoUtil.decrypt_encrypt by assumption. cbn [bind].
    fold (issued_session config tempEmailAddress now).
    destruct (Token.validateTokenExpiration env later _) as [[]|error] eqn:Hv; cbn [bind];
      [reflexivity|].
    apply validateTokenExpiration_throws in Hv as (t & _ & _ & ->). reflexivity.
  - intros H; injection H as <-.
    rewrite (parseAccessToken_plain node env later _ He).
    rewrite CryptoUtil.decodeImapSession_encode. cbn [bind].
    fold (issued_session config tempEmailAddress now).
    destruct (Token.validateTokenExpiration env later _) as [[]|error] eqn:Hv; cbn [bind];
      [reflexivity|].
    apply validateTokenExpiration_throws in Hv as (t & _ & _ & ->). reflexivity.
Qed.

(** X1.  A token that [generateAccessToken] issued at [now] and that is
    presented at [later], in the same mode and with the same secret, parses to
    the session it was issued for as long as it is not older than the ttl (or
    no positive ttl is set); it is never refused as invalid. *)
Theorem issued_token_accepted (node : Node) (env : Env) (now later : Z) (iv : Buffer)
    (config : ImapConfig) (tempEmailAddress token : string) :
  gcm_correct node -> List.length iv = 16 ->
  Token.generateAccessToken node env now iv config tempEmailAddress = Ok token ->
  (ttl_hours env = None \/ (exists t, ttl_hours env = Some t /\
                                      (t <= 0 \/ later - now <= t * hour_ms)%Z)) ->
  Token.parseAccessToken node env later token
  = Ok {| tempEmailAddress := tempEmailAddress; imapConfig := config; timestamp := Some now |}.
Proof.
  intros Hgcm Hiv Hgen Hfresh.
  rewrite (generated_token_decodes node env now iv config tempEmailAddress token later)
    by assumption.
  unfold Token.validateTokenExpiration, issued_session. fold (ttl_hours env). cbn [timestamp].
  destruct Hfresh as [-> | (t & -> & Ht)].
  - now destruct now.
  - destruct (t <=? 0)%Z eqn:E; [reflexivity|]. apply Z.leb_gt in E.
    destruct Ht as [Ht|Ht]; [lia|].
    replace (t * 60 * 60 * 1000)%Z with (t * hour_ms)%Z by (unfold hour_ms; lia).
    assert (Hle : (later - now >? t * hour_ms)%Z = false)
      by (rewrite Z.gtb_ltb; apply Z.ltb_ge; lia).
    destruct now; rewrite ?Hle; reflexivity.
Qed.

Lemma issued_token_accepted_witness :
  Token.parseAccessToken stand_in one_hour_env (1700000000000 + 1000)
    (CryptoUtil.encodeImapSession example_session)
  = Ok example_session.
Proof.
  apply (issued_token_accepted stand_in one_hour_env 1700000000000 (1700000000000 + 1000)
           example_iv example_config "abc123@domain.test").
  - exact stand_in_correct.
  - reflexivity.
  - reflexivity.
  - right. exists 1%Z. split; [reflexivity|]. right. unfold hour_ms. lia.
Defined.

(** X2.  With a positive ttl, a token issued at [now] (not the epoch) and
    presented more than the ttl later is refused with the expiry error, which
    names the ttl, and not as an invalid token. *)
Theorem issued_token_expires (node : Node) (env : Env) (now later t : Z) (iv : Buffer)
    (config : ImapConfig) (tempEmailAddress token : string) :
  gcm_correct node -> List.length iv = 16 ->
  Token.generateAccessToken node env now iv config tempEmailAddress = Ok token ->
  ttl_hours env = Some t -> (0 < t)%Z -> now <> 0%Z -> (later - now > t * hour_ms)%Z ->
  Token.parseAccessToken node env later token = Throw (Error (Token.expired_message t)) /\
  Error (Token.expired_message t) <> Token.invalid_token.
Proof.
  intros Hgcm Hiv Hgen Httl Hpos Hnz Hold. split.
  - rewrite (generated_token_decodes node env now iv config tempEmailAddress token later)
      by assumption.
    unfold Token.validateTokenExpiration, issued_session. fold (ttl_hours env).
    cbn [timestamp]. rewrite Httl.
    apply Z.leb_gt in Hpos. rewrite Hpos.
    replace (t * 60 * 60 * 1000)%Z with (t * hour_ms)%Z by (unfold hour_ms; lia).
    assert (Hgt : (later - now >? t * hour_ms)%Z = true)
      by (rewrite Z.gtb_ltb; apply Z.ltb_lt; lia).
    destruct now; [congruence| |]; now rewrite Hgt.
  - unfold Token.invalid_token, Token.expired_message. intros H. injection H as H.
    discriminate H.
Qed.

Lemma issued_token_expires_witness :
  Token.parseAccessToken stand_in one_hour_env (1700000000000 + 2 * hour_ms)
    (CryptoUtil.encodeImapSession example_session)
  = Throw (Error (Token.expired_message 1)) /\
  Error (Token.expired_message 1) <> Token.invalid_token.
Proof.
  apply (issued_token_expires stand_in one_hour_env 1700000000000
           (1700000000000 + 2 * hour_ms) 1 example_iv example_config "abc123@domain.test").
  - exact stand_in_correct.
  - reflexivity.
  - reflexivity.
  - reflexivity.
  - lia.
  - discriminate.
  - unfold hour_ms. lia.
Defined.

(** X3.  A token whose session has no timestamp is accepted at any time and
    under any ttl: in the plaintext mode for the plain encoding of the
    session, in the encrypted mode for its encryption under the secret. *)
Theorem token_without_timestamp_never_expires (node : Node) (env : Env) (now : Z)
    (iv : Buffer) (config : ImapConfig) (tempEmailAddress : string) :
  gcm_correct node -> List.length iv = 16 ->
  let session :=
    {| tempEmailAddress := tempEmailAddress; imapConfig := config; timestamp := None |} in
  (Token.encryptEnabled env = false ->
   Token.parseAccessToken node env now (CryptoUtil.encodeImapSession session) = Ok session) /\
  (forall c r, Token.encryptEnabled env = true ->
     IMAP_ENCRYPTION_KEY env = Some (String c r) ->
     Token.parseAccessToken node env now
       (CryptoUtil.encryptImapSession node iv session (String c r)) = Ok session).
Proof.
  intros Hgcm Hiv session.
  assert (Hv : Token.validateTokenExpiration env now session = Ok tt).
  { unfold Token.validateTokenExpiration. cbn [timestamp session].
    now destruct (match Js.parseInt _ with Some t => _ | None => _ end). }
  split.
  - intros He. rewrite (parseAccessToken_plain node env now _ He).
    rewrite CryptoUtil.decodeImapSession_encode. cbn [bind]. now rewrite Hv.
  - intros c r He Hk. rewrite (parseAccessToken_encrypted node env now _ c r He Hk).
    rewrite CryptoUtil.decrypt_encrypt by assumption. cbn [bind]. now rewrite Hv.
Qed.

Definition undated_session : ImapSession :=
  {| tempEmailAddress := "abc123@domain.test"; imapConfig := example_config;
     timestamp := None |}.

Lemma token_without_timestamp_never_expires_witness :
  (Token.encryptEnabled one_hour_env = false ->
   Token.parseAccessToken stand_in one_hour_env (1700000000000 + 2 * hour_ms)
     (CryptoUtil.encodeImapSession undated_session) = Ok undated_session) /\
  (forall c r, Token.encryptEnabled one_hour_env = true ->
     IMAP_ENCRYPTION_KEY one_hour_env = Some (String c r) ->
     Token.parseAccessToken stand_in one_hour_env (1700000000000 + 2 * hour_ms)
       (CryptoUtil.encryptImapSession stand_in example_iv undated_session (String c r))
     = Ok undated_session).
Proof.
  apply (token_without_timestamp_never_expires stand_in one_hour_env
           (1700000000000 + 2 * hour_ms) example_iv example_config "abc123@domain.test").
  - exact stand_in_correct.
  - reflexivity.
Defined.

(** ** The error classifier *)

Definition mentions_network (msg : string) : bool :=
  Js.includes "ECONNREFUSED" msg || Js.includes "ETIMEDOUT" msg.

Definition mentions_authentication (msg : string) : bool :=
  Js.includes "AUTHENTICATIONFAILED" msg || Js.includes "Invalid credentials" msg.

(** X4.  [handleError] always answers with a failure that names the
    operation.  The failure is retryable exactly when it is a network error,
    which is exactly when the message mentions ECONNREFUSED or ETIMEDOUT,
    whatever else it mentions; an authentication error needs a message that
    mentions no network error; details are absent exactly for an unknown
    error, and the message of an unknown error is the thrown message itself. *)
Theorem handleError_classification (A : Type) (error : JsError) (operation : string) :
  exists failure details,
    @handleError A error operation = Failure failure operation details /\
    context failure = details /\
    channelName failure = "imap" /\
    (retryable failure = true <-> error_type failure = NETWORK_ERROR) /\
    (error_type failure = NETWORK_ERROR <-> mentions_network (message error) = true) /\
    (error_type failure = AUTHENTICATION_ERROR <->
       mentions_network (message error) = false /\
       mentions_authentication (message error) = true) /\
    (error_type failure = API_ERROR <->
       mentions_network (message error) = false /\
       mentions_authentication (message error) = false /\
       Js.includes "Mailbox does not exist" (message error) = true) /\
    (details = None <-> error_type failure = UNKNOWN_ERROR) /\
    (error_type failure = UNKNOWN_ERROR -> error_message failure = message error) /\
    (forall d, details = Some d -> details_operation d = operation).
Proof.
  unfold handleError, mentions_network, mentions_authentication.
  destruct (Js.includes "ECONNREFUSED" (message error) || Js.includes "ETIMEDOUT" (message error));
    [|destruct (Js.includes "AUTHENTICATIONFAILED" (message error)
                || Js.includes "Invalid credentials" (message error));
      [|destruct (Js.includes "Mailbox does not exist" (message error))]];
    eexists _, _; (split; [reflexivity|]); cbn;
    repeat split; try discriminate; try reflexivity; try tauto;
    try (intros H; discriminate H); try (intros d H; injection H as <-; reflexivity);
    try (intros [? ?]; discriminate); try (intros (? & ? & ?); discriminate).
Qed.

(** ** One message *)

(** X5.  [fetchMessageContent] fails only when [fetchOne] fails or finds
    nothing.  When [fetchOne] finds a message the call succeeds whatever the
    downloads and the parsing of the source do; the identifier of the result
    is the number read from [emailId]; the attachments are those of the
    structure, absent when there are none; and when a part was downloaded, or
    there is no source, the bodies are the downloaded parts. *)
Theorem fetchMessageContent_outcome
    (parseEmailSource : string -> result (option string * option string))
    (clock : Z) (client : Client) (emailId : string) :
  (forall error,
     fetchMessageContent parseEmailSource clock client emailId = Throw error ->
     fetchOne client (Js.parseInt emailId) = Throw error \/
     (fetchOne client (Js.parseInt emailId) = Ok None /\
      error = Error (not_found_message emailId))) /\
  (forall message,
     fetchOne client (Js.parseInt emailId) = Ok (Some message) ->
     exists m,
       fetchMessageContent parseEmailSource clock client emailId = Ok m /\
       id m = Js.number_toString (Js.parseInt emailId) /\
       from m = parseEmailContact (hd_error (or_empty (env_from (envelope message)))) /\
       receivedAt m = received message clock /\
       attachments m =
         match Mime.findAttachments_opt (bodyStructure message) [] with
         | [] => None
         | found => Some found
         end /\
       let text := part_content client (Js.parseInt emailId)
                     (Mime.findBodyPart_opt (bodyStructure message) "text/plain") in
       let html := part_content client (Js.parseInt emailId)
                     (Mime.findBodyPart_opt (bodyStructure message) "text/html") in
       (Js.truthy text = true \/ Js.truthy html = true \/ source message = None ->
        textContent m = text /\ htmlContent m = html)).
Proof.
  split.
  - intros error. unfold fetchMessageContent.
    destruct (fetchOne client (Js.parseInt emailId)) as [[message|]|e]; cbn [bind].
    + destruct (source message);
        repeat match goal with
          | |- context [if ?b then _ else _] => destruct b
          | |- context [match parseEmailSource ?s with _ => _ end] =>
              destruct (parseEmailSource s) as [[? ?]|]
          end; discriminate.
    + intros H; injection H as <-. now right.
    + intros H; injection H as <-. now left.
  - intros message Hfound. unfold fetchMessageContent. rewrite Hfound. cbn [bind].
    set (text := part_content client (Js.parseInt emailId)
                   (Mime.findBodyPart_opt (bodyStructure message) "text/plain")).
    set (html := part_content client (Js.parseInt emailId)
                   (Mime.findBodyPart_opt (bodyStructure message) "text/html")).
    assert (Hatt : forall found : list EmailAttachment,
              match found with [] => None | _ => Some found end
              = match found with [] => None | e :: l => Some (e :: l) end)
      by (now intros []).
    destruct (source message) as [src|] eqn:Hsrc.
    + destruct (Js.truthy text) eqn:Ht; cbn [negb andb].
      * eexists. split; [reflexivity|]. cbn. repeat split. apply Hatt.
      * destruct (Js.truthy html) eqn:Hh; cbn [negb andb].
        -- eexists. split; [reflexivity|]. cbn. repeat split. apply Hatt.
        -- destruct (parseEmailSource src) as [[t h]|e];
             (eexists; split; [reflexivity|]); cbn; repeat split; try apply Hatt;
             destruct H as [H|[H|H]]; discriminate.
    + eexists. split; [reflexivity|]. cbn. repeat split. apply Hatt.
Qed.

(** ** Attachments *)

Lemma or_else_nonempty o d : d <> "" -> Js.or_else o d <> "".
Proof. destruct o as [[|c r]|]; cbn; intros H; try exact H; discriminate. Qed.

Lemma nat_toString_nonempty n : Mime.nat_toString n <> "".
Proof.
  unfold Mime.nat_toString.
  destruct (JSON.stringify_head (JSON.Number (Z.of_nat n)) "") as (c & t & E & _).
  rewrite JSON.append_empty in E. cbn [JSON.stringify] in E. rewrite E. discriminate.
Qed.

Lemma fold_push_nth l : forall acc k a,
  nth_error (fold_left Mime.push l acc) k = Some a ->
  nth_error acc k = Some a \/
  exists node, In node l /\ Mime.classified node = true /\ a = Mime.attachment_entry node k.
Proof.
  induction l as [|node l IH]; intros acc k a H; cbn [fold_left] in H; [now left|].
  apply IH in H as [H | (n & Hin & Hc & ->)].
  - unfold Mime.push in H. destruct (Mime.classified node) eqn:Hc; [|now left].
    destruct (Nat.lt_ge_cases k (List.length acc)) as [Hk|Hk].
    + left. now rewrite nth_error_app1 in H.
    + right. rewrite nth_error_app2 in H by assumption.
      destruct (k - List.length acc) as [|j] eqn:Ej; cbn in H.
      * injection H as <-. exists node. repeat split; [now left|assumption|].
        f_equal. apply Nat.le_antisymm; [exact Hk | now apply Nat.sub_0_le].
      * now destruct j.
  - right. exists n. repeat split; [now right|assumption].
Qed.

Lemma fold_push_length l : forall acc,
  List.length (fold_left Mime.push l acc)
  = List.length acc + List.length (filter Mime.classified l).
Proof.
  induction l as [|node l IH]; intros acc; cbn [fold_left filter]; [cbn; lia|].
  rewrite IH. unfold Mime.push. destruct (Mime.classified node); [|reflexivity].
  rewrite List.length_app. cbn. lia.
Qed.

(** X6.  [findAttachments], started on an empty list, returns one entry for
    each node the traversal reaches and takes.  The entry at position [k] is
    the one built for its node with [k] entries before it, so a generated file
    name or identifier is the position counted from 1; its content type is
    never text/plain or text/html, and its identifier and file name are never
    empty. *)
Theorem findAttachments_positions (structure : BodyStructure) :
  List.length (Mime.findAttachments structure [])
  = List.length (filter Mime.classified (Mime.reached structure)) /\
  (forall k a,
     nth_error (Mime.findAttachments structure []) k = Some a ->
     exists node,
       In node (Mime.reached structure) /\ Mime.classified node = true /\
       a = Mime.attachment_entry node k /\
       contentType a <> "text/plain" /\ contentType a <> "text/html" /\
       att_id a <> "" /\ filename a <> "").
Proof.
  rewrite Mime.findAttachments_reached. split; [apply fold_push_length|].
  intros k a H. apply fold_push_nth in H as [H | (node & Hin & Hc & ->)].
  - now destruct k.
  - exists node. repeat split; try assumption.
    + unfold Mime.classified, Mime.isTextContent in Hc.
      apply andb_true_iff in Hc as [_ Hc]. apply negb_true_iff, orb_false_iff in Hc as [Hc _].
      cbn [contentType Mime.attachment_entry]. intros E. rewrite E in Hc. discriminate.
    + unfold Mime.classified, Mime.isTextContent in Hc.
      apply andb_true_iff in Hc as [_ Hc]. apply negb_true_iff, orb_false_iff in Hc as [_ Hc].
      cbn [contentType Mime.attachment_entry]. intros E. rewrite E in Hc. discriminate.
    + cbn [att_id Mime.attachment_entry]. apply or_else_nonempty, nat_toString_nonempty.
    + cbn [filename Mime.attachment_entry]. apply or_else_nonempty, or_else_nonempty.
      discriminate.
Qed.

(** ** The connection pool *)

Import Pool.

(** X7.  [getConnection] leaves the entries of other keys alone.  When it
    returns a connection, the pool holds that connection under the key of the
    configuration, last used now; when it throws, the pool holds nothing under
    that key.  A usable pooled connection is returned without opening one. *)
Theorem getConnection_outcome (usable : nat -> bool)
    (connectImap : ImapConfig -> result Connection) (now : Z) (config : ImapConfig)
    (pool : Pool) :
  unique_keys pool ->
  let key := getConnectionKey config in
  let outcome := fst (getConnection usable connectImap now config pool) in
  let pool' := snd (getConnection usable connectImap now config pool) in
  unique_keys pool' /\
  (forall k, k <> key -> Map_get k pool' = Map_get k pool) /\
  match outcome with
  | Ok c => Map_get key pool' = Some {| client := c; lastUsed := now |}
  | Throw _ => Map_get key pool' = None
  end /\
  (forall pooled,
     Map_get key pool = Some pooled -> usable (conn_id (client pooled)) = true ->
     outcome = Ok (client pooled)) /\
  (Map_get key pool = None \/
   (exists pooled, Map_get key pool = Some pooled /\
                   usable (conn_id (client pooled)) = false) ->
   outcome = connectImap config).
Proof.
  intros Hu. cbv zeta. unfold getConnection.
  destruct (Map_get (getConnectionKey config) pool) as [pooled|] eqn:Hget.
  - destruct (usable (conn_id (client pooled))) eqn:Huse; cbn [fst snd].
    + repeat split.
      * now apply unique_keys_set.
      * intros k Hk. now apply Map_get_set_other.
      * apply Map_get_set_same.
      * intros p Hp _. now injection Hp as <-.
      * intros [H|(p & Hp & Hf)]; [discriminate|]. injection Hp as <-. congruence.
    + destruct (connectImap config) as [c|e]; cbn [fst snd]; repeat split;
        try (intros p Hp Ht; injection Hp as <-; congruence).
      * apply unique_keys_set. now apply unique_keys_filter.
      * intros k Hk. rewrite Map_get_set_other by assumption.
        now apply Map_get_delete_other.
      * apply Map_get_set_same.
      * now apply unique_keys_filter.
      * intros k Hk. now apply Map_get_delete_other.
      * apply Map_get_delete_same.
  - destruct (connectImap config) as [c|e]; cbn [fst snd]; repeat split;
      try discriminate; try assumption.
    + now apply unique_keys_set.
    + intros k Hk. now apply Map_get_set_other.
    + apply Map_get_set_same.
Qed.

(** A pool that holds one connection, for the example configuration. *)
Definition example_connection : Connection :=
  {| conn_id := 1; conn_client := example_client |}.

Definition example_pool : Pool :=
  [("imap.domain.test:993:owner@domain.test",
    {| client := example_connection; lastUsed := example_now |})].

Definition refusing (config : ImapConfig) : result Connection :=
  Throw (Error "AUTHENTICATIONFAILED").

Lemma example_pool_unique : unique_keys example_pool.
Proof. repeat constructor. intros []. Qed.

Lemma getConnection_outcome_witness :
  fst (getConnection (fun _ => true) refusing (example_now + 1000) example_config example_pool)
  = Ok example_connection.
Proof.
  destruct (getConnection_outcome (fun _ => true) refusing (example_now + 1000) example_config
              example_pool example_pool_unique) as (_ & _ & _ & Hreuse & _).
  exact (Hreuse {| client := example_connection; lastUsed := example_now |} eq_refl eq_refl).
Defined.

Lemma cleanup_fold usable now (entries : Pool) : forall acc : Pool,
  fold_left
    (fun (acc : Pool) (entry : string * Pooled) =>
       let (key, pooled) := entry in
       if stale usable now pooled then Map_delete key acc else acc)
    entries acc
  = filter (fun e => negb (existsb (fun x => String.eqb (fst x) (fst e)
                                            && stale usable now (snd x)) entries)) acc.
Proof.
  induction entries as [|[k p] entries IH]; intros acc; cbn [fold_left existsb].
  - cbn. induction acc as [|e acc IHa]; cbn; congruence.
  - rewrite IH. cbn [fst snd]. destruct (stale usable now p).
    + unfold Map_delete. clear. induction acc as [|e acc IHa]; cbn [filter]; [reflexivity|].
      rewrite andb_true_r. destruct (String.eqb k (fst e)) eqn:E; cbn [negb orb filter].
      * rewrite IHa. apply filter_ext. intros a. now rewrite andb_true_r.
      * destruct (existsb _ entries); cbn [negb]; rewrite IHa;
          [|f_equal]; apply filter_ext; intros a; now rewrite andb_true_r.
    + apply filter_ext. intros e. now rewrite andb_false_r.
Qed.

Lemma cleanup_filter usable now (pool : Pool) :
  unique_keys pool ->
  cleanup usable now pool = filter (fun e => negb (stale usable now (snd e))) pool.
Proof.
  intros Hu. unfold cleanup. rewrite cleanup_fold. apply filter_ext_in.
  intros [k p] Hin. cbn [fst snd]. f_equal.
  destruct (stale usable now p) eqn:Hs.
  - apply existsb_exists. exists (k, p). cbn. now rewrite String.eqb_refl, Hs.
  - apply not_true_iff_false. intros H. apply existsb_exists in H as ([k' p'] & Hin' & H).
    cbn in H. apply andb_true_iff in H as [Hk Hs']. apply String.eqb_eq in Hk. subst k'.
    assert (p' = p).
    { apply (In_Map_get _ _ _ Hu) in Hin, Hin'. congruence. }
    congruence.
Qed.

(** X8.  After the sweep the pool holds exactly the entries it held that
    have been idle for at most [CONNECTION_MAX_IDLE] and whose connection is
    usable, unchanged. *)
Theorem cleanup_keeps_live_entries (usable : nat -> bool) (now : Z) (pool : Pool) :
  unique_keys pool ->
  unique_keys (cleanup usable now pool) /\
  forall key pooled,
    Map_get key (cleanup usable now pool) = Some pooled <->
    Map_get key pool = Some pooled /\
    (now - lastUsed pooled <= CONNECTION_MAX_IDLE)%Z /\
    usable (conn_id (client pooled)) = true.
Proof.
  intros Hu. rewrite cleanup_filter by assumption. split; [now apply unique_keys_filter|].
  intros key pooled. rewrite Map_get_filter by assumption. cbn [snd]. unfold stale.
  rewrite Z.gtb_ltb.
  destruct (CONNECTION_MAX_IDLE <? now - lastUsed pooled)%Z eqn:E;
    [apply Z.ltb_lt in E | apply Z.ltb_ge in E].
  - cbn [negb]. split; [intros [_ H]; discriminate | intros (_ & H & _); lia].
  - rewrite negb_involutive. tauto.
Qed.

Lemma cleanup_keeps_live_entries_witness :
  unique_keys (cleanup (fun _ => true) (example_now + 1000) example_pool) /\
  forall key pooled,
    Map_get key (cleanup (fun _ => true) (example_now + 1000) example_pool) = Some pooled <->
    Map_get key example_pool = Some pooled /\
    (example_now + 1000 - lastUsed pooled <= CONNECTION_MAX_IDLE)%Z /\ true = true.
Proof.
  exact (cleanup_keeps_live_entries (fun _ => true) (example_now + 1000) example_pool
           example_pool_unique).
Defined.

(** X9.  The key of a pooled connection is built from the server, the port
    (993 when none is given) and the user only.  So a configuration with
    another password, domain or folder is served the usable connection that is
    pooled for the same server, port and user, and no connection is opened
    with its own credentials. *)
Theorem pooled_connection_shared (usable : nat -> bool)
    (connectImap : ImapConfig -> result Connection) (now : Z)
    (config other : ImapConfig) (pool : Pool) (pooled : Pooled) :
  imap_server other = imap_server config ->
  port_or_default other = port_or_default config ->
  imap_user other = imap_user config ->
  Map_get (getConnectionKey config) pool = Some pooled ->
  usable (conn_id (client pooled)) = true ->
  getConnection usable connectImap now other pool
  = (Ok (client pooled),
     Map_set (getConnectionKey config) {| client := client pooled; lastUsed := now |} pool).
Proof.
  intros Hs Hp Hu Hget Huse. unfold getConnection.
  assert (Hk : getConnectionKey other = getConnectionKey config)
    by (unfold getConnectionKey; now rewrite Hs, Hp, Hu).
  now rewrite Hk, Hget, Huse.
Qed.

(** The example configuration with another password. *)
Definition guessing_config : ImapConfig :=
  {| domain := "domain.test"; imap_server := "imap.domain.test"; imap_port := None;
     imap_user := "owner@domain.test"; imap_pass := "not-the-password"; imap_dir := None |}.

Lemma pooled_connection_shared_witness :
  getConnection (fun _ => true) refusing (example_now + 1000) guessing_config example_pool
  = (Ok example_connection,
     [("imap.domain.test:993:owner@domain.test",
       {| client := example_connection; lastUsed := (example_now + 1000)%Z |})]).
Proof.
  apply (pooled_connection_shared (fun _ => true) refusing (example_now + 1000)
           example_config guessing_config example_pool
           {| client := example_connection; lastUsed := example_now |}); reflexivity.
Defined.

Lemma includes_colon c r :
  Js.includes ":" (String c r) = (Ascii.eqb ":" c || Js.includes ":" r)%bool.
Proof.
  cbn [Js.includes String.prefix]. destruct (ascii_dec ":" c) as [<-|Hne].
  - now destruct r.
  - apply Ascii.eqb_neq in Hne. now rewrite Hne.
Qed.

Lemma colon_free_split s1 : forall s2 r1 r2,
  Js.includes ":" s1 = false -> Js.includes ":" s2 = false ->
  s1 ++ ":" ++ r1 = s2 ++ ":" ++ r2 -> s1 = s2 /\ r1 = r2.
Proof.
  induction s1 as [|c s1 IH]; intros [|d s2] r1 r2 H1 H2 E.
  - cbn in E. injection E as E. now split.
  - cbn in E. injection E as <- E. rewrite includes_colon in H2.
    now rewrite Ascii.eqb_refl in H2.
  - cbn in E. injection E as -> E. rewrite includes_colon in H1.
    now rewrite Ascii.eqb_refl in H1.
  - cbn in E. injection E as <- E. rewrite includes_colon in H1, H2.
    apply orb_false_iff in H1 as [_ H1], H2 as [_ H2].
    destruct (IH s2 r1 r2 H1 H2 E) as [-> ->]. now split.
Qed.

(** X10.  For servers whose name holds no colon, two configurations have
    the same pool key exactly when they name the same server, the same port
    (993 standing for none) and the same user. *)
Theorem getConnectionKey_injective (config other : ImapConfig) :
  Js.includes ":" (imap_server config) = false ->
  Js.includes ":" (imap_server other) = false ->
  (getConnectionKey config = getConnectionKey other <->
   imap_server config = imap_server other /\
   port_or_default config = port_or_default other /\
   imap_user config = imap_user other).
Proof.
  intros H1 H2. unfold getConnectionKey. split.
  - intros E. apply colon_free_split in E as [Hs E]; try assumption.
    split; [exact Hs|].
    assert (P : forall p u, JSON.parse_number (JSON.print_number p ++ ":" ++ u)
                            = Some (p, ":" ++ u))
      by (intros p u; now apply JSON.parse_number_print).
    pose proof (P (port_or_default config) (imap_user config)) as Pa.
    rewrite E, P in Pa. injection Pa as Hp Hu. now split.
  - intros (-> & -> & ->). reflexivity.
Qed.

Lemma getConnectionKey_injective_witness :
  getConnectionKey example_config = getConnectionKey guessing_config <->
  imap_server example_config = imap_server guessing_config /\
  port_or_default example_config = port_or_default guessing_config /\
  imap_user example_config = imap_user guessing_config.
Proof.
  apply (getConnectionKey_injective example_config guessing_config); reflexivity.
Defined.

(** ** Requests and the pool *)

(** What a request does to the pool: nothing when the token is refused;
    otherwise only the entry of the session's key can change, and it ends as
    the connection used, released at [released], unless no connection could
    be opened or its use failed with a connection error. *)
Definition pool_effect {A} (usable : nat -> bool)
    (connectImap : ImapConfig -> result Connection) (pool pool' : Pool) (session : result ImapSession)
    (opened released : Z) (use : ImapSession -> Client -> result A) : Prop :=
  match session with
  | Throw _ => pool' = pool
  | Ok session =>
      let key := getConnectionKey (imapConfig session) in
      (forall k, k <> key -> Map_get k pool' = Map_get k pool) /\
      Map_get key pool' =
      match fst (getConnection usable connectImap opened (imapConfig session) pool) with
      | Throw _ => None
      | Ok c =>
          match use session (conn_client c) with
          | Throw connectionError =>
              if PooledProvider.connection_error connectionError then None
              else Some {| client := c; lastUsed := released |}
          | Ok _ => Some {| client := c; lastUsed := released |}
          end
      end
  end.

Lemma removeConnection_get config pool k :
  Map_get k (removeConnection config pool) =
  if String.eqb k (getConnectionKey config) then None else Map_get k pool.
Proof.
  unfold removeConnection. destruct (String.eqb k (getConnectionKey config)) eqn:E.
  - apply String.eqb_eq in E. subst k.
    destruct (Map_get (getConnectionKey config) pool) eqn:G; [apply Map_get_delete_same|exact G].
  - apply String.eqb_neq in E.
    destruct (Map_get (getConnectionKey config) pool); [now apply Map_get_delete_other|reflexivity].
Qed.

Lemma releaseConnection_other now config c pool k :
  k <> getConnectionKey config ->
  Map_get k (releaseConnection now config c pool) = Map_get k pool.
Proof.
  intros Hk. unfold releaseConnection.
  destruct (Map_get (getConnectionKey config) pool) as [p|]; [|reflexivity].
  destruct (Nat.eqb _ _); [now apply Map_get_set_other|reflexivity].
Qed.

Lemma after_use_effect {A} usable connectImap opened released config pool c
    (outcome : result A) :
  getConnection usable connectImap opened config pool = (Ok c, snd (getConnection usable connectImap opened config pool)) ->
  let pool1 := snd (getConnection usable connectImap opened config pool) in
  let pool' := PooledProvider.after_use released config c outcome pool1 in
  (forall k, k <> getConnectionKey config -> Map_get k pool' = Map_get k pool) /\
  Map_get (getConnectionKey config) pool' =
  match outcome with
  | Throw connectionError =>
      if PooledProvider.connection_error connectionError then None
      else Some {| client := c; lastUsed := released |}
  | Ok _ => Some {| client := c; lastUsed := released |}
  end.
Proof.
  intros Hget. cbv zeta.
  assert (Hother : forall k, k <> getConnectionKey config ->
            Map_get k (snd (getConnection usable connectImap opened config pool)) = Map_get k pool).
  { intros k Hk. unfold getConnection.
    destruct (Map_get (getConnectionKey config) pool) as [p|].
    - destruct (usable _); cbn [snd].
      + now apply Map_get_set_other.
      + destruct (connectImap config); cbn [snd].
        * rewrite Map_get_set_other by assumption. now apply Map_get_delete_other.
        * now apply Map_get_delete_other.
    - destruct (connectImap config); cbn [snd]; [now apply Map_get_set_other|reflexivity]. }
  assert (Hkey : Map_get (getConnectionKey config)
                   (snd (getConnection usable connectImap opened config pool))
                 = Some {| client := c; lastUsed := opened |}).
  { revert Hget. unfold getConnection.
    destruct (Map_get (getConnectionKey config) pool) as [p|].
    - destruct (usable _); cbn [snd].
      + intros H; injection H as <-. apply Map_get_set_same.
      + destruct (connectImap config); cbn [snd]; intros H; [|discriminate].
        injection H as <-. apply Map_get_set_same.
    - destruct (connectImap config); cbn [snd]; intros H; [|discriminate].
      injection H as <-. apply Map_get_set_same. }
  set (pool1 := snd (getConnection usable connectImap opened config pool)) in *.
  assert (Hrel : Map_get (getConnectionKey config) (releaseConnection released config c pool1)
                 = Some {| client := c; lastUsed := released |}).
  { unfold releaseConnection. rewrite Hkey. cbn [client]. rewrite Nat.eqb_refl.
    apply Map_get_set_same. }
  assert (Hrem : Map_get (getConnectionKey config)
                   (releaseConnection released config c (removeConnection config pool1)) = None).
  { unfold releaseConnection. rewrite removeConnection_get, String.eqb_refl.
    rewrite removeConnection_get, String.eqb_refl. reflexivity. }
  unfold PooledProvider.after_use. split.
  - intros k Hk. rewrite releaseConnection_other by assumption.
    destruct outcome as [x|e]; [now apply Hother|].
    destruct (PooledProvider.connection_error e); [|now apply Hother].
    rewrite removeConnection_get. apply String.eqb_neq in Hk. rewrite Hk. apply Hother.
    now apply String.eqb_neq.
  - destruct outcome as [x|e]; [exact Hrel|].
    destruct (PooledProvider.connection_error e); [exact Hrem|exact Hrel].
Qed.

Lemma getConnection_Throw usable connectImap opened config pool error :
  fst (getConnection usable connectImap opened config pool) = Throw error ->
  (forall k, k <> getConnectionKey config ->
     Map_get k (snd (getConnection usable connectImap opened config pool)) = Map_get k pool) /\
  Map_get (getConnectionKey config) (snd (getConnection usable connectImap opened config pool))
  = None.
Proof.
  unfold getConnection.
  destruct (Map_get (getConnectionKey config) pool) as [p|] eqn:G.
  - destruct (usable _); cbn [fst snd]; [discriminate|].
    destruct (connectImap config); cbn [fst snd]; [discriminate|]. intros _. split.
    + intros k Hk. now apply Map_get_delete_other.
    + apply Map_get_delete_same.
  - destruct (connectImap config); cbn [fst snd]; [discriminate|]. intros _. now split.
Qed.

(** X11.  [getEmails] and [getEmailContent] answer as the provider does when
    it is handed the pool's connection, and of the pool they change at most
    the entry of the account: a refused token changes nothing; a connection
    that could not be opened leaves no entry; a use that fails with a
    connection error removes the entry; in every other case, failures
    included, the connection used stays pooled as last used at its release. *)
Theorem pooled_request_effect (node : Node) (env : Env)
    (parseEmailSource : string -> result (option string * option string))
    (usable : nat -> bool) (connectImap : ImapConfig -> result Connection)
    (entry opened now : Z) (clock : nat -> Z) (released : Z)
    (emailAddress emailId : string) (accessToken : option string) (pool : Pool) :
  let session :=
    do token <- PooledProvider.required accessToken ;; Token.parseAccessToken node env entry token in
  let listed :=
    PooledProvider.getEmails node env usable connectImap entry opened now clock released
      accessToken pool in
  let read :=
    PooledProvider.getEmailContent node env parseEmailSource usable connectImap entry opened now
      released emailAddress emailId accessToken pool in
  fst listed
  = ImapProvider.getEmails node env (PooledProvider.pool_client usable connectImap opened pool)
      entry now clock accessToken /\
  pool_effect usable connectImap pool (snd listed) session opened released
    (PooledProvider.listing now clock) /\
  fst read
  = ImapProvider.getEmailContent node env parseEmailSource
      (PooledProvider.pool_client usable connectImap opened pool) entry now emailAddress emailId
      accessToken /\
  pool_effect usable connectImap pool (snd read) session opened released
    (PooledProvider.reading parseEmailSource now emailId).
Proof.
  cbv zeta. unfold PooledProvider.getEmails, PooledProvider.getEmailContent, ImapProvider.getEmails,
    ImapProvider.getEmailContent, pool_effect, PooledProvider.pool_client, PooledProvider.required.
  destruct accessToken as [[|ch r]|]; cbn [bind fst snd]; try (repeat split; reflexivity).
  destruct (Token.parseAccessToken node env entry (String ch r)) as [session|error];
    cbn [bind fst snd]; [|repeat split; reflexivity].
  destruct (getConnection usable connectImap opened (imapConfig session) pool)
    as [[c|error] pool1] eqn:Hget; cbn [bind fst snd].
  - assert (Hget' : getConnection usable connectImap opened (imapConfig session) pool
                    = (Ok c, snd (getConnection usable connectImap opened
                                    (imapConfig session) pool)))
      by now rewrite Hget.
    assert (Hp : pool1 = snd (getConnection usable connectImap opened (imapConfig session) pool))
      by now rewrite Hget.
    rewrite Hp.
    pose proof (after_use_effect usable connectImap opened released (imapConfig session) pool c
                  (PooledProvider.listing now clock session (conn_client c)) Hget') as [L1 L2].
    pose proof (after_use_effect usable connectImap opened released (imapConfig session) pool c
                  (PooledProvider.reading parseEmailSource now emailId session (conn_client c)) Hget')
      as [R1 R2].
    repeat split; assumption.
  - assert (Hf : fst (getConnection usable connectImap opened (imapConfig session) pool)
                 = Throw error) by now rewrite Hget.
    apply getConnection_Throw in Hf as [H1 H2]. rewrite Hget in H1, H2. cbn [snd] in H1, H2.
    repeat split; assumption.
Qed.

(** ** Generated prefixes *)

Import Helpers.

(** *** The shape of a generated prefix *)

Definition is_letter (c : ascii) : bool := Base64.in_range "a" "z" c.
Definition is_digit (c : ascii) : bool := Base64.in_range "0" "9" c.

(** The characters of a prefix: small letters, digits and the separator. *)
Definition prefix_char (c : ascii) : bool :=
  (is_letter c || is_digit c || Ascii.eqb c "-")%bool.

Fixpoint all_chars (p : ascii -> bool) (s : string) : bool :=
  match s with
  | EmptyString => true
  | String c r => p c && all_chars p r
  end.

Definition starts_with_letter (s : string) : bool :=
  match s with
  | String c _ => is_letter c
  | EmptyString => false
  end.

(** A word of the list: two to eight small letters. *)
Definition word_ok (w : string) : bool :=
  ((2 <=? String.length w) && (String.length w <=? 8) && all_chars is_letter w)%nat.

Lemma scaled_range (r : Q) (n : Z) :
  (0 <= r)%Q /\ (r < 1)%Q -> (0 < n)%Z -> (0 <= scaled r n < n)%Z.
Proof.
  intros [H0 H1] Hn. unfold scaled. split.
  - change 0%Z with (Qfloor 0). apply Qfloor_resp_le.
    apply Qmult_le_0_compat; [exact H0|]. change 0%Q with (inject_Z 0).
    rewrite <- Zle_Qle. lia.
  - rewrite Zlt_Qlt. apply Qle_lt_trans with (r * inject_Z n)%Q; [apply Qfloor_le|].
    rewrite <- (Qmult_1_l (inject_Z n)) at 2. apply Qmult_lt_compat_r; [|exact H1].
    change 0%Q with (inject_Z 0). rewrite <- Zlt_Qlt. exact Hn.
Qed.

Lemma fragment_ok (i : Z) :
  (0 <= i < Z.of_nat (List.length WORD_FRAGMENTS))%Z -> word_ok (fragment i) = true.
Proof.
  intros Hi. assert (H : forallb word_ok WORD_FRAGMENTS = true) by reflexivity.
  rewrite forallb_forall in H. apply H. unfold fragment. apply nth_In. lia.
Qed.

Lemma all_chars_append p a b : all_chars p (a ++ b) = (all_chars p a && all_chars p b)%bool.
Proof. induction a as [|c a IH]; cbn; [reflexivity|]. now rewrite IH, andb_assoc. Qed.

Lemma all_chars_weaken (p q : ascii -> bool) s :
  (forall c, p c = true -> q c = true) -> all_chars p s = true -> all_chars q s = true.
Proof.
  intros Hpq. induction s as [|c s IH]; cbn; [reflexivity|].
  intros H. apply andb_true_iff in H as [Hc Hs]. now rewrite (Hpq c Hc), IH.
Qed.

Lemma all_chars_substring p s : forall n m,
  all_chars p s = true -> all_chars p (String.substring n m s) = true.
Proof.
  induction s as [|c s IH]; intros n m H.
  - now destruct n, m.
  - cbn in H. apply andb_true_iff in H as [Hc Hs]. destruct n as [|n]; cbn.
    + destruct m as [|m]; cbn; [reflexivity|].
      rewrite Hc. now apply IH.
    + now apply IH.
Qed.

Lemma length_substring s : forall n m,
  String.length (String.substring n m s) = Nat.min m (String.length s - n).
Proof.
  induction s as [|c s IH]; intros n m.
  - destruct n, m; reflexivity.
  - destruct n as [|n]; cbn.
    + destruct m as [|m]; cbn; [reflexivity|]. rewrite IH. now rewrite Nat.sub_0_r.
    + apply IH.
Qed.

Lemma starts_with_letter_append a b :
  starts_with_letter a = true -> starts_with_letter (a ++ b) = true.
Proof. now destruct a. Qed.

Lemma starts_with_letter_slice n s :
  starts_with_letter s = true -> starts_with_letter (slice_to (S n) s) = true.
Proof. now destruct s. Qed.

Lemma letter_not_digit s : starts_with_letter s = true -> starts_with_digit s = false.
Proof.
  destruct s as [|c s]; [reflexivity|]. unfold starts_with_letter, starts_with_digit, is_letter,
    Base64.in_range. cbn [nat_of_ascii]. intros H.
  apply andb_true_iff in H as [H _]. apply Nat.leb_le in H.
  apply andb_false_iff. right. apply Nat.leb_gt.
  change (nat_of_ascii "a") with 97%nat in H. change (nat_of_ascii "9") with 57%nat. lia.
Qed.

Lemma word_starts w : word_ok w = true -> starts_with_letter w = true.
Proof.
  unfold word_ok. intros H. apply andb_true_iff in H as [H Hc].
  apply andb_true_iff in H as [H _]. destruct w as [|c w]; [discriminate|].
  cbn in Hc. now apply andb_true_iff in Hc as [Hc _].
Qed.

Lemma word_chars w : word_ok w = true -> all_chars prefix_char w = true.
Proof.
  unfold word_ok. intros H. apply andb_true_iff in H as [_ Hc].
  revert Hc. apply all_chars_weaken. intros c Hc. unfold prefix_char. now rewrite Hc.
Qed.

Lemma word_length w : word_ok w = true -> 2 <= String.length w <= 8.
Proof.
  unfold word_ok. intros H. apply andb_true_iff in H as [H _].
  apply andb_true_iff in H as [H1 H2]. apply Nat.leb_le in H1, H2. lia.
Qed.

Lemma print_uint_digits u : all_chars is_digit (JSON.print_uint u) = true.
Proof. induction u; cbn; [reflexivity| | | | | | | | | |]; exact IHu. Qed.

(** The decimal form of a number that is not negative: digits, at least one. *)
Lemma print_number_digits (d : Z) :
  (0 <= d)%Z ->
  all_chars is_digit (JSON.print_number d) = true /\ 1 <= String.length (JSON.print_number d).
Proof.
  intros Hd. pose proof (JSON.to_int_normal d) as Hn. unfold JSON.print_number.
  destruct d as [|p|p]; [| |lia].
  - split; [reflexivity|cbn; lia].
  - cbn [Z.to_int] in *. split; [apply print_uint_digits|].
    destruct (Pos.to_uint p); [discriminate| | | | | | | | | |]; cbn; lia.
Qed.

Lemma print_below_100 (k : Z) :
  (0 <= k < 100)%Z -> String.length (JSON.print_number k) <= 2.
Proof.
  intros Hk.
  assert (H : forallb (fun n => (String.length (JSON.print_number (Z.of_nat n)) <=? 2)%nat)
                (seq 0 100) = true) by reflexivity.
  rewrite forallb_forall in H. specialize (H (Z.to_nat k)).
  rewrite Z2Nat.id in H by lia. apply Nat.leb_le, H, in_seq. lia.
Qed.

Lemma digit_prefix_char s : all_chars is_digit s = true -> all_chars prefix_char s = true.
Proof.
  apply all_chars_weaken. intros c Hc. unfold prefix_char. rewrite Hc. now rewrite orb_true_r.
Qed.

Lemma zeros_chars n : all_chars is_digit (string_of_list_ascii (repeat "0"%char n)) = true.
Proof. induction n; cbn; [reflexivity|exact IHn]. Qed.

Lemma zeros_length n : String.length (string_of_list_ascii (repeat "0"%char n)) = n.
Proof. induction n; cbn; congruence. Qed.

(** The digits: at least as many as asked for. *)
Lemma digits_shape (n : nat) (d : Z) :
  (0 <= d)%Z ->
  all_chars is_digit (padStart n (JSON.print_number d)) = true /\
  n <= String.length (padStart n (JSON.print_number d)).
Proof.
  intros Hd. unfold padStart. destruct (print_number_digits d Hd) as [Hchars Hlen].
  rewrite all_chars_append, zeros_chars, Hchars, JSON.length_append, zeros_length.
  split; [reflexivity|lia].
Qed.

(** A prefix so far: long enough, of the characters of a prefix, beginning
    with a letter. *)
Definition shape (lo : nat) (s : string) : Prop :=
  lo <= String.length s /\ all_chars prefix_char s = true /\ starts_with_letter s = true.

Lemma shape_append lo lo' a b :
  shape lo a -> lo' <= String.length b -> all_chars prefix_char b = true ->
  shape (lo + lo') (a ++ b).
Proof.
  intros (Hl & Hc & Hs) Hb Hcb. unfold shape.
  rewrite JSON.length_append, all_chars_append, Hc, Hcb.
  repeat split; try lia. now apply starts_with_letter_append.
Qed.

Lemma shape_word w : word_ok w = true -> shape 2 w.
Proof.
  intros H. split; [now apply word_length|]. split; [now apply word_chars|now apply word_starts].
Qed.

(** Digits put after the first [n] characters. *)
Lemma shape_insert lo s n digits k :
  shape lo s -> 1 <= n <= String.length s ->
  all_chars is_digit digits = true -> k <= String.length digits ->
  shape (lo + k) (slice_to n s ++ digits ++ slice_from n s).
Proof.
  intros (Hl & Hc & Hs) Hn Hd Hk. unfold shape, slice_to, slice_from.
  rewrite !JSON.length_append, !all_chars_append, !length_substring.
  rewrite !all_chars_substring by assumption. rewrite (digit_prefix_char _ Hd).
  repeat split; try lia.
  destruct n as [|n]; [lia|]. apply starts_with_letter_append.
  now apply (starts_with_letter_slice n).
Qed.

(** The last steps: more digits for a short prefix, a cut for a long one,
    and the test for a leading digit, which never holds. *)
Lemma shape_finish prefix more :
  shape 6 prefix -> 1 <= String.length more <= 2 -> all_chars is_digit more = true ->
  let prefix' :=
    if (String.length prefix <? 8)%nat then prefix ++ more
    else if (16 <? String.length prefix)%nat then slice_to 16 prefix
    else prefix in
  starts_with_digit prefix' = false /\
  7 <= String.length prefix' <= 16 /\ all_chars prefix_char prefix' = true /\
  starts_with_letter prefix' = true.
Proof.
  intros (Hl & Hc & Hs) Hm Hmc. cbv zeta.
  assert (H : forall p, starts_with_letter p = true -> 7 <= String.length p <= 16 ->
                        all_chars prefix_char p = true ->
                        starts_with_digit p = false /\
                        7 <= String.length p <= 16 /\ all_chars prefix_char p = true /\
                        starts_with_letter p = true).
  { intros p H1 H2 H3. split; [now apply letter_not_digit|]. repeat split; assumption || lia. }
  destruct (String.length prefix <? 8)%nat eqn:E1;
    [apply Nat.ltb_lt in E1 | apply Nat.ltb_ge in E1].
  - apply H.
    + now apply starts_with_letter_append.
    + rewrite JSON.length_append. lia.
    + now rewrite all_chars_append, Hc, (digit_prefix_char _ Hmc).
  - destruct (16 <? String.length prefix)%nat eqn:E2;
      [apply Nat.ltb_lt in E2 | apply Nat.ltb_ge in E2].
    + apply H.
      * now apply (starts_with_letter_slice 15).
      * unfold slice_to. rewrite length_substring. lia.
      * unfold slice_to. now apply all_chars_substring.
    + apply H; try assumption. lia.
Qed.

Lemma join_two sep a b : join sep [a; b] = a ++ sep ++ b.
Proof. reflexivity. Qed.

Lemma join_three sep a b c : join sep [a; b; c] = a ++ sep ++ b ++ sep ++ c.
Proof. reflexivity. Qed.

(** The words put together, with the position after the first of them. *)
Lemma shape_joined (words : list string) (useSeparator : bool) :
  (List.length words = 2 \/ List.length words = 3) ->
  Forall (fun w => word_ok w = true) words ->
  let separator := if useSeparator then "-" else "" in
  let position := String.length (hd "" words) + (if useSeparator then 1 else 0) in
  shape 4 (join separator words) /\ 1 <= position <= String.length (join separator words).
Proof.
  intros Hlen Hwords. cbv zeta.
  assert (Hsep : all_chars prefix_char (if useSeparator then "-" else "") = true)
    by now destruct useSeparator.
  assert (Hsl : String.length (if useSeparator then "-" else "")
                = if useSeparator then 1 else 0) by now destruct useSeparator.
  destruct words as [|a [|b [|c [|d words]]]]; cbn in Hlen; try lia.
  - inversion Hwords as [|? ? Ha Hw]; subst. inversion Hw as [|? ? Hb _]; subst.
    rewrite join_two. cbn [hd]. pose proof (word_length a Ha). pose proof (word_length b Hb).
    split.
    + rewrite <- JSON.append_assoc.
      apply (shape_append 2 2); [|lia|now apply word_chars].
      replace 2 with (2 + 0) by lia. apply shape_append; [now apply shape_word|lia|exact Hsep].
    + rewrite !JSON.length_append, Hsl. lia.
  - inversion Hwords as [|? ? Ha Hw]; subst. inversion Hw as [|? ? Hb Hw']; subst.
    inversion Hw' as [|? ? Hc _]; subst.
    rewrite join_three. cbn [hd]. pose proof (word_length a Ha). pose proof (word_length b Hb).
    split.
    + rewrite <- JSON.append_assoc.
      apply (shape_append 2 2).
      * replace 2 with (2 + 0) by lia. apply shape_append; [now apply shape_word|lia|exact Hsep].
      * rewrite JSON.length_append. lia.
      * rewrite !all_chars_append, Hsep, (word_chars b Hb), (word_chars c Hc). reflexivity.
    + rewrite !JSON.length_append, Hsl. lia.
Qed.

(** X12.  Whatever [Math.random] returns, [generateEmailPrefix] gives 7 to
    16 characters, each a small letter, a digit or the separator, the first
    of them a letter: the test for a leading digit never holds. *)
Theorem generateEmailPrefix_shape (length : Z) (random : nat -> Q) :
  (forall i, (0 <= random i)%Q /\ (random i < 1)%Q) ->
  let prefix := generateEmailPrefix length random in
  7 <= String.length prefix <= 16 /\
  all_chars prefix_char prefix = true /\
  starts_with_letter prefix = true.
Proof.
  intros Hrandom. cbv zeta. unfold generateEmailPrefix.
  set (wordCount := if less (random 0) (1 # 2) then 2 else 3).
  set (selectedWords := map _ (seq 0 wordCount)).
  set (useSeparator := less (random (S wordCount)) (3 # 10)).
  set (digitCount := (scaled (random (S wordCount + 1)%nat) 3 + 2)%Z).
  set (digits := padStart (Z.to_nat digitCount) _).
  assert (Hcount : (0 <= scaled (random (S wordCount + 1)%nat) 3 < 3)%Z)
    by (apply scaled_range; [apply Hrandom|lia]).
  assert (Hdigits : all_chars is_digit digits = true /\ 2 <= String.length digits).
  { destruct (digits_shape (Z.to_nat digitCount)
                (scaled (random (S wordCount + 2)%nat) (10 ^ digitCount))) as [Hc Hl].
    - apply scaled_range; [apply Hrandom|]. apply Z.pow_pos_nonneg; lia.
    - split; [exact Hc|]. fold digits in Hl. unfold digitCount in Hl. lia. }
  destruct Hdigits as [Hdc Hdl].
  assert (Hwords : (List.length selectedWords = 2 \/ List.length selectedWords = 3) /\
                   Forall (fun w => word_ok w = true) selectedWords).
  { unfold selectedWords. rewrite length_map, length_seq. split.
    - unfold wordCount. destruct (less (random 0) (1 # 2)); auto.
    - apply Forall_forall. intros w Hw. apply in_map_iff in Hw as (i & <- & _).
      apply fragment_ok, scaled_range; [apply Hrandom|]. cbn. lia. }
  destruct Hwords as [Hlen Hwords].
  destruct (shape_joined selectedWords useSeparator Hlen Hwords) as [Hjoined Hposition].
  cbv zeta in Hjoined, Hposition.
  set (separator := if useSeparator then "-" else "") in *.
  set (position := String.length (hd "" selectedWords) + (if useSeparator then 1 else 0)) in *.
  set (joined := join separator selectedWords) in *.
  set (placed := if less (random (S wordCount + 3)%nat) (7 # 10) then joined ++ digits
                 else slice_to position joined ++ digits ++ slice_from position joined).
  assert (Hplaced : shape 6 placed).
  { unfold placed. destruct (less (random (S wordCount + 3)%nat) (7 # 10)).
    - apply (shape_append 4 2); [exact Hjoined|exact Hdl|now apply digit_prefix_char].
    - apply (shape_insert 4 joined position digits 2); assumption. }
  set (more := JSON.print_number (scaled (random (S wordCount + 4)%nat) 100)).
  assert (Hmore : 1 <= String.length more <= 2 /\ all_chars is_digit more = true).
  { assert (Hr : (0 <= scaled (random (S wordCount + 4)%nat) 100 < 100)%Z)
      by (apply scaled_range; [apply Hrandom|lia]).
    destruct (print_number_digits _ (proj1 Hr)) as [Hc Hl].
    pose proof (print_below_100 _ Hr). unfold more. repeat split; assumption. }
  destruct Hmore as [Hml Hmc].
  pose proof (shape_finish placed more Hplaced Hml Hmc) as Hfinish. cbv zeta in Hfinish.
  destruct (String.length placed <? 8)%nat.
  - destruct Hfinish as (-> & Hfinish). exact Hfinish.
  - destruct (16 <? String.length placed)%nat; destruct Hfinish as (-> & Hfinish);
      exact Hfinish.
Qed.

(** Readings that give the shortest prefix: two times the word "my", no
    separator, two digits at the end, one more digit. *)
Definition short_readings (i : nat) : Q :=
  nth i [0; 321 # 368; 321 # 368; 1 # 2; 0; 1 # 20; 1 # 2; 1 # 20]%Q 0%Q.

Lemma short_readings_range i : (0 <= short_readings i)%Q /\ (short_readings i < 1)%Q.
Proof.
  unfold short_readings.
  do 8 (destruct i as [|i]; [split; [discriminate|reflexivity]|]).
  destruct i; split; (discriminate || reflexivity).
Qed.

Lemma generateEmailPrefix_shape_witness :
  generateEmailPrefix 10 short_readings = "mymy055" /\
  7 <= String.length (generateEmailPrefix 10 short_readings) <= 16 /\
  all_chars prefix_char (generateEmailPrefix 10 short_readings) = true /\
  starts_with_letter (generateEmailPrefix 10 short_readings) = true.
Proof.
  split; [reflexivity|].
  exact (generateEmailPrefix_shape 10 short_readings short_readings_range).
Defined.

(** ** Valid addresses *)

(** A piece of an address: not empty, with no [@] and no white space. *)
Definition plain (x : string) : Prop :=
  x <> "" /\ Js.includes "@" x = false /\
  Forall (fun w => Js.includes w x = false) Regex.white_space.

Lemma prefix_append w a b : String.prefix w a = true -> String.prefix w (a ++ b) = true.
Proof.
  revert a. induction w as [|c w IH]; intros a; [now destruct (a ++ b)|].
  destruct a as [|d a]; cbn; [discriminate|].
  destruct (ascii_dec c d); [apply IH|discriminate].
Qed.

Lemma includes_tail needle c r :
  Js.includes needle (String c r) = false -> Js.includes needle r = false.
Proof. cbn [Js.includes]. intros H. now apply orb_false_iff in H as [_ H]. Qed.

Lemma includes_head needle s : Js.includes needle s = false -> String.prefix needle s = false.
Proof. destruct s; cbn [Js.includes]; intros H; now apply orb_false_iff in H as [H _]. Qed.

Lemma plain_tail c d x : plain (String c (String d x)) -> plain (String d x).
Proof.
  intros (_ & Hat & Hws). split; [discriminate|]. split.
  - now apply includes_tail in Hat.
  - eapply Forall_impl; [|exact Hws]. intros w Hw. now apply includes_tail in Hw.
Qed.

(** A run of the class, in the input where it stands: the class holds at
    each of its positions. *)
Fixpoint run (x rest : string) : Prop :=
  match x with
  | EmptyString => True
  | String c r => Regex.not_space_or_at (String c r ++ rest) = true /\ run r rest
  end.

Lemma some_chars_split k s :
  Regex.some_chars k s = true ->
  exists x rest, s = x ++ rest /\ x <> "" /\ run x rest /\ k rest = true.
Proof.
  induction s as [|c s IH]; [discriminate|]. cbn [Regex.some_chars]. intros H.
  apply andb_true_iff in H as [Hc H]. apply orb_true_iff in H as [H|H].
  - destruct (IH H) as (x & rest & -> & Hx & Hrun & Hk).
    exists (String c x), rest. repeat split; try assumption. discriminate.
  - exists (String c ""), s. repeat split; try assumption. discriminate.
Qed.

Lemma not_space_or_at_plain c r rest :
  Regex.not_space_or_at (String c r ++ rest) = true ->
  c <> "@"%char /\ Forall (fun w => String.prefix w (String c r) = false) Regex.white_space.
Proof.
  cbn [append Regex.not_space_or_at]. intros H. apply andb_true_iff in H as [Hc Hw]. split.
  - intros ->. discriminate.
  - apply Forall_forall. intros w Hin. apply negb_true_iff in Hw.
    destruct (String.prefix w (String c r)) eqn:E; [|reflexivity].
    apply (prefix_append w _ rest) in E. cbn [append] in E.
    assert (Hex : existsb (fun w => String.prefix w (String c (r ++ rest))) Regex.white_space
                  = true) by (apply existsb_exists; eauto).
    congruence.
Qed.

Lemma includes_cons needle c r :
  Js.includes needle (String c r)
  = (String.prefix needle (String c r) || Js.includes needle r)%bool.
Proof. reflexivity. Qed.

Lemma white_space_nonempty w : In w Regex.white_space -> w <> "".
Proof. intros Hin ->. revert Hin. unfold Regex.white_space. cbn. intuition discriminate. Qed.

Lemma run_plain x rest : x <> "" -> run x rest -> plain x.
Proof.
  intros Hx Hrun. split; [exact Hx|]. clear Hx. induction x as [|c x IH].
  - split; [reflexivity|]. apply Forall_forall. intros w Hin.
    cbn [Js.includes]. rewrite orb_false_r.
    destruct w; [|reflexivity]. now apply white_space_nonempty in Hin.
  - destruct Hrun as [Hc Hrun]. destruct (IH Hrun) as [Hat Hws].
    apply not_space_or_at_plain in Hc as [Hc Hpre]. split.
    + rewrite includes_cons, Hat, orb_false_r. cbn [String.prefix].
      destruct (ascii_dec "@" c) as [E|E]; [now subst c|reflexivity].
    + rewrite Forall_forall in *. intros w Hin.
      now rewrite includes_cons, (Hpre w Hin), (Hws w Hin).
Qed.

Lemma prefix_empty s : String.prefix "" s = true.
Proof. now destruct s. Qed.

Lemma includes_char c d r :
  Js.includes (String c "") (String d r) = (Ascii.eqb c d || Js.includes (String c "") r)%bool.
Proof.
  rewrite includes_cons. cbn [String.prefix]. rewrite prefix_empty.
  destruct (ascii_dec c d) as [->|Hne]; [now rewrite Ascii.eqb_refl|].
  apply Ascii.eqb_neq in Hne. now rewrite Hne.
Qed.

Lemma includes_char_append c a b :
  Js.includes (String c "") (a ++ b)
  = (Js.includes (String c "") a || Js.includes (String c "") b)%bool.
Proof.
  induction a as [|d a IH]; cbn [append].
  - cbn [Js.includes String.prefix]. now rewrite orb_false_r.
  - now rewrite !includes_char, IH, orb_assoc.
Qed.

(** A match that begins in [a] and goes on in what follows holds the
    character that follows. *)
Lemma prefix_through w : forall a c r,
  String.prefix w (a ++ String c r) = true ->
  String.prefix w a = true \/ Js.includes (String c "") w = true.
Proof.
  induction w as [|e w IH]; intros a c r H.
  - left. apply prefix_empty.
  - destruct a as [|d a]; cbn [append String.prefix] in H |- *.
    + right. destruct (ascii_dec e c) as [->|]; [|discriminate].
      now rewrite includes_char, Ascii.eqb_refl.
    + destruct (ascii_dec e d) as [->|]; [|discriminate].
      destruct (IH a c r H) as [Hp|Hi]; [now left|right].
      now rewrite includes_char, Hi, orb_true_r.
Qed.

(** What follows a run in an address: nothing, [@] or the dot. *)
Definition delimited (rest : string) : bool :=
  match rest with
  | EmptyString => true
  | String c _ => (Ascii.eqb c "@" || Ascii.eqb c ".")%bool
  end.

Lemma white_space_free c :
  (Ascii.eqb c "@" || Ascii.eqb c ".")%bool = true ->
  Forall (fun w => Js.includes (String c "") w = false) Regex.white_space.
Proof.
  intros H. apply orb_true_iff in H as [H|H]; apply Ascii.eqb_eq in H; subst c;
    unfold Regex.white_space; repeat constructor.
Qed.

Lemma class_holds c x rest :
  plain (String c x) -> delimited rest = true ->
  Regex.not_space_or_at (String c x ++ rest) = true.
Proof.
  intros (_ & Hat & Hws) Hrest. cbn [append Regex.not_space_or_at].
  apply andb_true_iff. split.
  - rewrite includes_char in Hat. apply orb_false_iff in Hat as [Hat _].
    rewrite Ascii.eqb_sym. now rewrite Hat.
  - apply negb_true_iff. apply not_true_iff_false. intros H.
    apply existsb_exists in H as (w & Hin & Hpre).
    rewrite Forall_forall in Hws. pose proof (includes_head _ _ (Hws w Hin)) as Hno.
    destruct rest as [|e rest].
    + rewrite JSON.append_empty in Hpre. congruence.
    + change (String c (x ++ String e rest)) with (String c x ++ String e rest) in Hpre.
      apply prefix_through in Hpre as [Hp|Hi]; [congruence|].
      pose proof (white_space_free e Hrest) as Hfree. rewrite Forall_forall in Hfree.
      rewrite (Hfree w Hin) in Hi. discriminate.
Qed.

Lemma some_chars_run k x rest :
  plain x -> delimited rest = true -> k rest = true ->
  Regex.some_chars k (x ++ rest) = true.
Proof.
  intros Hx Hrest Hk. induction x as [|c x IH]; [now destruct Hx|].
  change (String c x ++ rest) with (String c (x ++ rest)). cbn [Regex.some_chars].
  change (String c (x ++ rest)) with (String c x ++ rest).
  rewrite (class_holds c x rest Hx Hrest). cbn [andb].
  destruct x as [|d x]; [cbn [append]; now rewrite Hk, orb_true_r|].
  rewrite IH; [reflexivity|]. now apply plain_tail in Hx.
Qed.

Lemma isValidEmail_parts (email : string) :
  Regex.isValidEmail email = true ->
  exists l d t, email = l ++ "@" ++ d ++ "." ++ t /\ plain l /\ plain d /\ plain t.
Proof.
  unfold Regex.isValidEmail.
  intros H. apply some_chars_split in H as (l & rest & -> & Hl & Hrl & H).
  destruct rest as [|c rest]; [discriminate|]. cbn [Regex.literal] in H.
  apply andb_true_iff in H as [Hc H]. apply Ascii.eqb_eq in Hc. subst c.
  apply some_chars_split in H as (d & rest' & -> & Hd & Hrd & H).
  destruct rest' as [|c rest']; [discriminate|]. cbn [Regex.literal] in H.
  apply andb_true_iff in H as [Hc H]. apply Ascii.eqb_eq in Hc. subst c.
  apply some_chars_split in H as (t & rest'' & -> & Ht & Hrt & H).
  destruct rest''; [|discriminate]. rewrite JSON.append_empty.
  exists l, d, t. split; [reflexivity|].
  split; [eapply run_plain; eassumption|].
  split; eapply run_plain; eassumption.
Qed.

(** X13.  [isValidEmail] accepts exactly the strings made of a local part,
    [@], and a domain with a dot that has something before and after it,
    where no part is empty or holds [@] or white space. *)
Theorem isValidEmail_spec (email : string) :
  Regex.isValidEmail email = true <->
  exists l d t, email = l ++ "@" ++ d ++ "." ++ t /\ plain l /\ plain d /\ plain t.
Proof.
  split; [apply isValidEmail_parts|].
  intros (l & d & t & -> & Hl & Hd & Ht). unfold Regex.isValidEmail.
  apply some_chars_run; [exact Hl|reflexivity|]. cbn [append Regex.literal Ascii.eqb Bool.eqb andb].
  apply some_chars_run; [exact Hd|reflexivity|]. cbn [append Regex.literal Ascii.eqb Bool.eqb andb].
  rewrite <- (JSON.append_empty t). now apply some_chars_run.
Qed.

(** ** Connecting a mailbox *)

Lemma split_plain x : Js.includes "@" x = false -> Create.split "@" x = [x].
Proof.
  induction x as [|c x IH]; [reflexivity|]. rewrite includes_char. intros H.
  apply orb_false_iff in H as [Hc Hx]. cbn [Create.split].
  rewrite Ascii.eqb_sym, Hc. now rewrite (IH Hx).
Qed.

Lemma split_two l d :
  Js.includes "@" l = false -> Js.includes "@" d = false ->
  Create.split "@" (l ++ "@" ++ d) = [l; d].
Proof.
  intros Hl Hd. induction l as [|c l IH].
  - cbn. now rewrite (split_plain d Hd).
  - rewrite includes_char in Hl. apply orb_false_iff in Hl as [Hc Hl].
    cbn [append Create.split]. rewrite Ascii.eqb_sym, Hc.
    change (l ++ String "@" d) with (l ++ "@" ++ d). now rewrite (IH Hl).
Qed.

(** The port [validateImapConfig] lets through: none, 0, or 1 to 65535. *)
Definition port_accepted (config : ImapConfig) : Prop :=
  match imap_port config with
  | Some port => (port = 0 \/ 1 <= port <= 65535)%Z
  | None => True
  end.

Lemma validateImapConfig_Ok config isMine :
  Create.validateImapConfig config isMine = Ok tt <->
  (isMine = false -> domain config <> "") /\ imap_server config <> "" /\
  imap_pass config <> "" /\ Regex.isValidEmail (imap_user config) = true /\
  port_accepted config.
Proof.
  unfold Create.validateImapConfig, port_accepted.
  assert (Hport : match imap_port config with
                  | Some port =>
                      if (negb (port =? 0) && ((port <? 1) || (port >? 65535)))%Z
                      then Throw (Error "imap.imap_port 必须在 1-65535 之间")
                      else Ok tt
                  | None => Ok tt
                  end = Ok tt <->
                  match imap_port config with
                  | Some port => (port = 0 \/ 1 <= port <= 65535)%Z
                  | None => True
                  end).
  { destruct (imap_port config) as [port|]; [|tauto].
    destruct (port =? 0)%Z eqn:E0; [apply Z.eqb_eq in E0 | apply Z.eqb_neq in E0];
      cbn [negb andb]; [intuition|].
    destruct (port <? 1)%Z eqn:E1; [apply Z.ltb_lt in E1 | apply Z.ltb_ge in E1];
      cbn [orb]; [split; [discriminate|lia]|].
    rewrite Z.gtb_ltb.
    destruct (65535 <? port)%Z eqn:E2; [apply Z.ltb_lt in E2 | apply Z.ltb_ge in E2];
      (split; [try discriminate; intros _; lia | try reflexivity; lia]). }
  assert (Hvalid : (if negb (Regex.isValidEmail (imap_user config))
                    then Throw (Error "imap.imap_user 必须是有效的邮箱地址")
                    else match imap_port config with
                         | Some port =>
                             if (negb (port =? 0) && ((port <? 1) || (port >? 65535)))%Z
                             then Throw (Error "imap.imap_port 必须在 1-65535 之间")
                             else Ok tt
                         | None => Ok tt
                         end) = Ok tt <->
                   Regex.isValidEmail (imap_user config) = true /\
                   match imap_port config with
                   | Some port => (port = 0 \/ 1 <= port <= 65535)%Z
                   | None => True
                   end).
  { destruct (Regex.isValidEmail (imap_user config)); cbn [negb].
    - rewrite Hport. tauto.
    - split; [discriminate|intros [H _]; discriminate]. }
  assert (Huser : Regex.isValidEmail (imap_user config) = true -> imap_user config <> "").
  { intros H E. rewrite E in H. discriminate. }
  destruct isMine; cbn [Create.check_required Create.field_value String.eqb Ascii.eqb Bool.eqb
                          Js.truthy negb];
    repeat match goal with
      | |- context [match ?s with EmptyString => false | String _ _ => true end] =>
          destruct s eqn:?
      end; cbn [negb bind]; rewrite ?Hvalid;
    try (split; [discriminate | intros H; exfalso; intuition congruence]);
    try (split; [intros [H1 H2]; repeat split; congruence || assumption || discriminate
               | intros (_ & _ & _ & H1 & H2); now split]).
Qed.

Lemma valid_user_split user :
  Regex.isValidEmail user = true ->
  exists l d, user = l ++ "@" ++ d /\ l <> "" /\ d <> "" /\ Create.split "@" user = [l; d].
Proof.
  intros H. apply isValidEmail_parts in H as (l & d & t & -> & Hl & Hd & Ht).
  destruct Hl as (Hl & Hlat & _), Hd as (Hd & Hdat & _), Ht as (_ & Htat & _).
  exists l, (d ++ "." ++ t). split; [reflexivity|]. split; [exact Hl|]. split.
  - destruct d; [contradiction|discriminate].
  - apply split_two; [exact Hlat|].
    rewrite includes_char_append, Hdat. cbn [orb append]. now rewrite includes_char, Htat.
Qed.

(** X14.  When [createEmail] succeeds, the configuration has passed the
    validation and the connection test; the address returned is the user name
    returned, [@], and the domain returned; with [isMine] it is the mailbox's
    own address, without it the given prefix (a generated one when none is
    given) at the configured domain; and the token returned parses, at any
    later time, to the session of that address and that configuration, or is
    refused as expired, never as invalid. *)
Theorem createEmail_success (node : Node) (env : Env)
    (testImapConnection : ImapConfig -> result unit) (random : nat -> Q) (now : Z)
    (iv : Buffer) (request : Create.CreateEmailRequest) (data : Create.CreateEmailResponse) :
  gcm_correct node -> List.length iv = 16 ->
  Create.createEmail node env testImapConnection random now iv request = Success data ->
  exists config,
    Create.imap request = Some config /\
    Create.validateImapConfig config (Create.isMine request) = Ok tt /\
    testImapConnection config = Ok tt /\
    Create.res_address data = Create.res_username data ++ "@" ++ Create.res_domain data /\
    (if Create.isMine request then Create.res_address data = imap_user config
     else Create.res_domain data = domain config /\
          Create.res_username data
          = Js.or_else (Create.prefix request) (Helpers.generateEmailPrefix 10 random)) /\
    forall later,
      Token.parseAccessToken node env later (Create.res_accessToken data)
      = do _ <- Token.validateTokenExpiration env later
                  {| tempEmailAddress := Create.res_address data; imapConfig := config;
                     timestamp := Some now |} ;;
        Ok {| tempEmailAddress := Create.res_address data; imapConfig := config;
              timestamp := Some now |}.
Proof.
  intros Hgcm Hiv H. unfold Create.createEmail in H. apply respond_Success in H.
  destruct (Create.imap request) as [config|]; [|discriminate].
  apply bind_Ok in H as ([] & Hvalid & H). apply bind_Ok in H as ([] & Htest & H).
  exists config. split; [reflexivity|]. split; [exact Hvalid|]. split; [exact Htest|].
  assert (Htoken : forall address token later,
            Token.generateAccessToken node env now iv config address = Ok token ->
            Token.parseAccessToken node env later token
            = do _ <- Token.validateTokenExpiration env later
                        {| tempEmailAddress := address; imapConfig := config;
                           timestamp := Some now |} ;;
              Ok {| tempEmailAddress := address; imapConfig := config;
                    timestamp := Some now |}).
  { intros address token later Hgen.
    rewrite (generated_token_decodes node env now iv config address token later Hgcm Hiv Hgen).
    unfold issued_session. now destruct (Token.validateTokenExpiration _ _ _) as [[]|]. }
  destruct (Create.isMine request).
  - apply validateImapConfig_Ok in Hvalid as (_ & _ & _ & Huser & _).
    apply valid_user_split in Huser as (l & d & Hu & Hl & Hd & Hsplit).
    rewrite Hsplit in H. cbn [hd nth_error] in H.
    apply bind_Ok in H as (token & Hgen & H). injection H as <-.
    cbn [Create.res_address Create.res_username Create.res_domain Create.res_accessToken].
    split; [|split; [reflexivity|]].
    + rewrite Hu. destruct d; [contradiction|reflexivity].
    + intros later. now apply Htoken.
  - apply bind_Ok in H as (token & Hgen & H). injection H as <-.
    cbn [Create.res_address Create.res_username Create.res_domain Create.res_accessToken].
    split; [reflexivity|]. split; [now split|]. intros later. now apply Htoken.
Qed.

(** A request for a generated address at the example configuration. *)
Definition example_request : Create.CreateEmailRequest :=
  {| Create.prefix := None; Create.imap := Some example_config; Create.isMine := false |}.

Definition example_created : Create.CreateEmailResponse :=
  {| Create.res_address := "mymy055@domain.test";
     Create.res_domain := "domain.test";
     Create.res_username := "mymy055";
     Create.res_provider := "imap";
     Create.res_accessToken :=
       CryptoUtil.encodeImapSession
         {| tempEmailAddress := "mymy055@domain.test"; imapConfig := example_config;
            timestamp := Some example_now |} |}.

Lemma createEmail_success_witness :
  exists config,
    Create.imap example_request = Some config /\
    Create.validateImapConfig config (Create.isMine example_request) = Ok tt /\
    Ok tt = Ok tt /\
    Create.res_address example_created
    = Create.res_username example_created ++ "@" ++ Create.res_domain example_created /\
    (if Create.isMine example_request
     then Create.res_address example_created = imap_user config
     else Create.res_domain example_created = domain config /\
          Create.res_username example_created
          = Js.or_else (Create.prefix example_request)
              (Helpers.generateEmailPrefix 10 short_readings)) /\
    forall later,
      Token.parseAccessToken stand_in plain_env later (Create.res_accessToken example_created)
      = do _ <- Token.validateTokenExpiration plain_env later
                  {| tempEmailAddress := Create.res_address example_created;
                     imapConfig := config; timestamp := Some example_now |} ;;
        Ok {| tempEmailAddress := Create.res_address example_created; imapConfig := config;
              timestamp := Some example_now |}.
Proof.
  apply (createEmail_success stand_in plain_env (fun _ => Ok tt) short_readings example_now
           example_iv example_request example_created).
  - exact stand_in_correct.
  - reflexivity.
  - reflexivity.
Defined.

Lemma required_unclassified field :
  In field ["domain"; "imap_server"; "imap_user"; "imap_pass"] ->
  unclassified (Create.required_message field).
Proof.
  intros [<-|[<-|[<-|[<-|[]]]]]; repeat split; reflexivity.
Qed.

Lemma handleError_unclassified {A} error operation :
  unclassified (message error) ->
  @handleError A error operation
  = Failure {| error_message := message error; error_type := UNKNOWN_ERROR;
               channelName := "imap"; retryable := false; context := None |}
      operation None.
Proof.
  intros (H1 & H2 & H3 & H4 & H5). unfold handleError. now rewrite H1, H2, H3, H4, H5.
Qed.

Lemma check_required_Throw config required error :
  Create.check_required config required = Throw error ->
  exists field, In field required /\ error = Error (Create.required_message field).
Proof.
  induction required as [|field rest IH]; cbn [Create.check_required]; [discriminate|].
  destruct (negb _).
  - intros H. injection H as <-. exists field. split; [now left|reflexivity].
  - intros H. destruct (IH H) as (f & Hin & ->). exists f. split; [now right|reflexivity].
Qed.

Lemma validateImapConfig_Throw config isMine error :
  Create.validateImapConfig config isMine = Throw error -> unclassified (message error).
Proof.
  unfold Create.validateImapConfig.
  destruct (Create.check_required config _) as [[]|e] eqn:Hreq; cbn [bind].
  - destruct (negb _); [intros H; injection H as <-; repeat split; reflexivity|].
    destruct (imap_port config) as [port|]; [|discriminate].
    destruct (_ && _)%bool; [|discriminate].
    intros H; injection H as <-; repeat split; reflexivity.
  - intros H. injection H as <-. apply check_required_Throw in Hreq as (field & Hin & ->).
    apply required_unclassified. destruct isMine; cbn in Hin |- *; tauto.
Qed.

(** X15.  A request with no configuration, or with one the validation
    refuses, is answered with an unknown error that is not retryable and
    carries the message of the validation; no connection is tested, since the
    answer is the same whatever the test would give. *)
Theorem createEmail_invalid (node : Node) (env : Env)
    (testImapConnection : ImapConfig -> result unit) (random : nat -> Q) (now : Z)
    (iv : Buffer) (request : Create.CreateEmailRequest) (error : JsError) :
  match Create.imap request with
  | Some config => Create.validateImapConfig config (Create.isMine request)
  | None => Throw (Error Create.missing_imap)
  end = Throw error ->
  Create.createEmail node env testImapConnection random now iv request
  = Failure {| error_message := message error; error_type := UNKNOWN_ERROR;
               channelName := "imap"; retryable := false; context := None |}
      "createEmail" None.
Proof.
  intros H. unfold Create.createEmail.
  destruct (Create.imap request) as [config|].
  - rewrite H. cbn [bind respond]. apply handleError_unclassified.
    now apply validateImapConfig_Throw in H.
  - injection H as <-. cbn [respond]. apply handleError_unclassified.
    repeat split; reflexivity.
Qed.

(** The example request with no password. *)
Definition incomplete_request : Create.CreateEmailRequest :=
  {| Create.prefix := None;
     Create.imap :=
       Some {| domain := "domain.test"; imap_server := "imap.domain.test";
               imap_port := Some 993%Z; imap_user := "owner@domain.test"; imap_pass := "";
               imap_dir := None |};
     Create.isMine := false |}.

Lemma createEmail_invalid_witness :
  Create.createEmail stand_in plain_env (fun _ => Ok tt) short_readings example_now example_iv
    incomplete_request
  = Failure {| error_message := "imap.imap_pass 为必填字段"; error_type := UNKNOWN_ERROR;
               channelName := "imap"; retryable := false; context := None |}
      "createEmail" None.
Proof.
  apply (createEmail_invalid stand_in plain_env (fun _ => Ok tt) short_readings example_now
           example_iv incomplete_request (Error "imap.imap_pass 为必填字段")).
  reflexivity.
Defined.

(** ** From [createEmail] to [getEmails] *)

Lemma encode_nonempty (b : Buffer) : b <> [] -> Base64.encode b <> "".
Proof. destruct b as [|x [|y [|z r]]]; [contradiction| | |]; discriminate. Qed.

Lemma generated_token_nonempty node env now iv config address token :
  List.length iv = 16 ->
  Token.generateAccessToken node env now iv config address = Ok token -> token <> "".
Proof.
  intros Hiv. unfold Token.generateAccessToken. destruct (Token.encryptEnabled env).
  - destruct (IMAP_ENCRYPTION_KEY env) as [[|c r]|]; try discriminate.
    intros H; injection H as <-. unfold CryptoUtil.encryptImapSession.
    destruct (gcm_encrypt node _ iv _) as [ciphertext authTag].
    apply encode_nonempty. destruct iv; [discriminate|]. discriminate.
  - intros H; injection H as <-. unfold CryptoUtil.encodeImapSession.
    apply encode_nonempty. unfold CryptoUtil.stringify_session.
    destruct (JSON.stringify_head (SessionJSON.to_json
                {| tempEmailAddress := address; imapConfig := config;
                   timestamp := Some now |}) "") as (c & t & E & _).
    rewrite JSON.append_empty in E. rewrite E. discriminate.
Qed.

(** X16.  The token that a successful [createEmail] returns, presented to
    [getEmails] while it has not expired, opens the folder of the
    configuration ([INBOX] when none is set) on the connection for that
    configuration and lists the recent messages addressed to the address
    [createEmail] returned. *)
Theorem created_mailbox_listing (node : Node) (env : Env)
    (testImapConnection : ImapConfig -> result unit) (random : nat -> Q) (issued : Z)
    (iv : Buffer) (request : Create.CreateEmailRequest) (data : Create.CreateEmailResponse)
    (config : ImapConfig) (getConnection : ImapConfig -> result Client)
    (entry now : Z) (clock : nat -> Z) :
  gcm_correct node -> List.length iv = 16 ->
  Create.createEmail node env testImapConnection random issued iv request = Success data ->
  Create.imap request = Some config ->
  Token.validateTokenExpiration env entry
    {| tempEmailAddress := Create.res_address data; imapConfig := config;
       timestamp := Some issued |} = Ok tt ->
  getEmails node env getConnection entry now clock (Some (Create.res_accessToken data))
  = respond "getEmails"
      (do client <- getConnection config ;;
       do _ <- mailboxOpen client (Js.or_else (imap_dir config) "INBOX") ;;
       fetchRecentMessages now clock client (Create.res_address data)).
Proof.
  intros Hgcm Hiv H Himap Hfresh. unfold Create.createEmail in H. apply respond_Success in H.
  rewrite Himap in H.
  apply bind_Ok in H as ([] & _ & H). apply bind_Ok in H as ([] & _ & H).
  assert (Hgen : Token.generateAccessToken node env issued iv config (Create.res_address data)
                 = Ok (Create.res_accessToken data)).
  { destruct (Create.isMine request); apply bind_Ok in H as (token & Hgen & H);
      injection H as <-; exact Hgen. }
  clear H. pose proof (generated_token_nonempty _ _ _ _ _ _ _ Hiv Hgen) as Hne.
  pose proof (generated_token_decodes node env issued iv config (Create.res_address data)
                (Create.res_accessToken data) entry Hgcm Hiv Hgen) as Hparse.
  unfold issued_session in Hparse. rewrite Hfresh in Hparse.
  unfold getEmails. destruct (Create.res_accessToken data) as [|c r]; [contradiction|].
  rewrite Hparse. reflexivity.
Qed.

Lemma created_mailbox_listing_witness :
  getEmails stand_in plain_env (fun _ => Ok example_client) (example_now + 1000)
    (example_now + 1000) example_clock (Some (Create.res_accessToken example_created))
  = respond "getEmails"
      (do client <- Ok example_client ;;
       do _ <- mailboxOpen client (Js.or_else (imap_dir example_config) "INBOX") ;;
       fetchRecentMessages (example_now + 1000) example_clock client
         (Create.res_address example_created)).
Proof.
  apply (created_mailbox_listing stand_in plain_env (fun _ => Ok tt) short_readings example_now
           example_iv example_request example_created example_config
           (fun _ => Ok example_client)).
  - exact stand_in_correct.
  - reflexivity.
  - reflexivity.
  - reflexivity.
  - reflexivity.
Defined.

(** ** From the list to one message *)

Lemma print_uint_head u :
  u <> Decimal.Nil ->
  exists c r, JSON.print_uint u = String c r /\ Js.is_space c = false /\
              Ascii.eqb c "-" = false /\ Ascii.eqb c "+" = false.
Proof. destruct u; intros H; [contradiction| | | | | | | | | |]; cbn; eauto 10. Qed.

Lemma parseInt_print (z : Z) : Js.parseInt (JSON.print_number z) = Some z.
Proof.
  pose proof (JSON.to_int_normal z) as Hn. pose proof (DecimalZ.of_to z) as Hof.
  unfold JSON.print_number. destruct (Z.to_int z) as [u|u].
  - assert (Hu : u <> Decimal.Nil) by (intros ->; discriminate).
    destruct (print_uint_head u Hu) as (c & r & E & Hs & Hm & Hp).
    unfold Js.parseInt. rewrite E. cbn [Js.trim_start]. rewrite Hs, Hm, Hp. rewrite <- E.
    rewrite <- (JSON.append_empty (JSON.print_uint u)).
    rewrite JSON.read_digits_print by reflexivity. cbn [fst].
    destruct u; [contradiction| | | | | | | | | |]; now rewrite <- Hof.
  - assert (Hu : u <> Decimal.Nil) by (intros ->; discriminate).
    unfold Js.parseInt.
    change (Js.trim_start (String "-" (JSON.print_uint u))) with (String "-" (JSON.print_uint u)).
    cbn [Ascii.eqb Bool.eqb].
    rewrite <- (JSON.append_empty (JSON.print_uint u)).
    rewrite JSON.read_digits_print by reflexivity. cbn [fst].
    destruct u; [contradiction| | | | | | | | | |]; now rewrite <- Hof.
Qed.

(** X17.  A message that [fetchRecentMessages] lists carries no body and no
    attachments, and its identifier is the UID in decimal: given to
    [fetchMessageContent] it is read back as that UID, and when the server
    returns the message for it, the content has the same identifier, sender,
    recipients, subject, flags and size as the entry of the list. *)
Theorem listed_message_readable (now : Z) (clock : nat -> Z) (client : Client)
    (tempEmailAddress : string) (result : list EmailMessage) (m : EmailMessage) :
  fetchRecentMessages now clock client tempEmailAddress = Ok result -> In m result ->
  textContent m = None /\ htmlContent m = None /\ attachments m = None /\
  exists msg,
    id m = JSON.print_number (uid msg) /\ Js.parseInt (id m) = Some (uid msg) /\
    forall parseEmailSource clock',
      fetchOne client (Some (uid msg)) = Ok (Some msg) ->
      exists content,
        fetchMessageContent parseEmailSource clock' client (id m) = Ok content /\
        id content = id m /\ from content = from m /\ to content = to m /\
        cc content = cc m /\ subject content = subject m /\ isRead content = isRead m /\
        size content = size m /\ messageId content = messageId m.
Proof.
  intros Hfetch Hin. apply fetchRecentMessages_Ok in Hfetch as [[-> _]|Hfetch]; [destruct Hin|].
  destruct Hfetch as (uids & msgs & _ & _ & _ & ->).
  apply (Permutation_in _ (sort_perm _)) in Hin. rewrite collect_filter in Hin.
  apply in_map_iff in Hin as ([k msg] & <- & _). unfold pushed. cbn [fst snd].
  repeat split. exists msg. cbn [id summary]. split; [reflexivity|].
  split; [apply parseInt_print|].
  intros parseEmailSource clock' Hone. unfold fetchMessageContent.
  rewrite parseInt_print, Hone. cbn [bind].
  destruct (source msg);
    repeat match goal with
      | |- context [if ?b then _ else _] => destruct b
      | |- context [match parseEmailSource ?s with _ => _ end] =>
          destruct (parseEmailSource s) as [[? ?]|]
      end; eexists; (split; [reflexivity|]); cbn; repeat split.
Qed.

Lemma listed_message_readable_witness :
  Js.parseInt (id (hd (summary (message_to 0 [] [] None) 0) example_result)) = Some 4%Z.
Proof.
  destruct (listed_message_readable example_now example_clock example_client
              "abc123@domain.test" example_result
              (hd (summary (message_to 0 [] [] None) 0) example_result) example_fetch
              (or_introl eq_refl)) as (_ & _ & _ & msg & Hid & Hparse & _).
  rewrite Hparse. f_equal.
  assert (H : JSON.parse_number (JSON.print_number (uid msg) ++ "") = Some (4%Z, ""))
    by (rewrite <- Hid; reflexivity).
  rewrite JSON.parse_number_print in H by reflexivity. now injection H.
Defined.

(** ** Encryption switched on without a key *)

Definition missing_key : string :=
  "IMAP_ENCRYPTION_KEY 环境变量未设置（启用加密时必须设置）".

(** X18.  With [IMAP_ENCRYPT_TOKEN] set to [true] and no (or an empty)
    [IMAP_ENCRYPTION_KEY]: no token is ever issued, and [createEmail] fails
    with the message about the key only after the configuration was found
    valid and the connection was tested; every token, whatever it is, is
    refused by [parseAccessToken] as an invalid token, so that [getEmails]
    reports the missing key to its callers as their invalid token. *)
Theorem missing_encryption_key (node : Node) (env : Env) :
  Token.encryptEnabled env = true -> Js.truthy (IMAP_ENCRYPTION_KEY env) = false ->
  (forall now iv config address,
     Token.generateAccessToken node env now iv config address = Throw (Error missing_key)) /\
  (forall now token, Token.parseAccessToken node env now token = Throw Token.invalid_token) /\
  (forall testImapConnection random now iv request config,
     Create.imap request = Some config ->
     Create.validateImapConfig config (Create.isMine request) = Ok tt ->
     testImapConnection config = Ok tt ->
     Create.createEmail node env testImapConnection random now iv request
     = Failure {| error_message := missing_key; error_type := UNKNOWN_ERROR;
                  channelName := "imap"; retryable := false; context := None |}
         "createEmail" None) /\
  (forall getConnection entry now clock c r,
     getEmails node env getConnection entry now clock (Some (String c r))
     = Failure {| error_message := "无效的 accessToken"; error_type := UNKNOWN_ERROR;
                  channelName := "imap"; retryable := false; context := None |}
         "getEmails" None).
Proof.
  intros Henabled Hkey.
  assert (Hgen : forall now iv config address,
            Token.generateAccessToken node env now iv config address
            = Throw (Error missing_key)).
  { intros now iv config address. unfold Token.generateAccessToken. rewrite Henabled.
    now destruct (IMAP_ENCRYPTION_KEY env) as [[|c r]|]. }
  assert (Hparse : forall now token,
            Token.parseAccessToken node env now token = Throw Token.invalid_token).
  { intros now token. unfold Token.parseAccessToken. rewrite Henabled.
    now destruct (IMAP_ENCRYPTION_KEY env) as [[|c r]|]. }
  split; [exact Hgen|]. split; [exact Hparse|]. split.
  - intros testImapConnection random now iv request config Himap Hvalid Htest.
    unfold Create.createEmail. rewrite Himap, Hvalid, Htest. cbn [bind].
    destruct (Create.isMine request); rewrite Hgen; reflexivity.
  - intros getConnection entry now clock c r. unfold getEmails. rewrite Hparse. reflexivity.
Qed.

Definition keyless_env : Env :=
  {| IMAP_ENCRYPT_TOKEN := Some "true"; IMAP_ENCRYPTION_KEY := None;
     IMAP_TOKEN_TTL_HOURS := None |}.

Lemma missing_encryption_key_witness :
  Token.parseAccessToken stand_in keyless_env example_now
    (CryptoUtil.encodeImapSession example_session)
  = Throw Token.invalid_token.
Proof.
  destruct (missing_encryption_key stand_in keyless_env eq_refl eq_refl) as (_ & Hparse & _).
  apply Hparse.
Defined.

(** ** The raw source of a message *)

(** A test fails at every position of [a], in the input [a ++ rest]. *)
Fixpoint nowhere (test : string -> bool) (a rest : string) : bool :=
  match a with
  | EmptyString => true
  | String c r => negb (test (a ++ rest)) && nowhere test r rest
  end.

(** The literal is at the head of the input, letter case apart. *)
Definition starts_i (text s : string) : bool :=
  match Source.literal_i text (fun _ => Some tt) s with
  | Some _ => true
  | None => false
  end.

Lemma literal_i_fails {A} text (k : string -> option A) : forall s,
  starts_i text s = false -> Source.literal_i text k s = None.
Proof.
  unfold starts_i. induction text as [|c text IH]; intros s; cbn [Source.literal_i].
  - discriminate.
  - destruct s as [|d r]; [reflexivity|]. destruct (Source.same_letter c d); [apply IH|reflexivity].
Qed.

Lemma literal_i_passes {A} text (k : string -> option A) : forall text' s,
  Js.toLowerCase text' = Js.toLowerCase text ->
  Source.literal_i text k (text' ++ s) = k s.
Proof.
  induction text as [|c text IH]; intros [|d text'] s H; cbn in H; try discriminate.
  - reflexivity.
  - injection H as Hc H. cbn [append Source.literal_i]. unfold Source.same_letter.
    rewrite Hc, Ascii.eqb_refl. now apply IH.
Qed.

Lemma lazy_any_skip {A} (test : string -> bool) (k : string -> option A) a rest :
  (forall s, test s = false -> k s = None) ->
  nowhere test a rest = true -> Source.lazy_any k (a ++ rest) = Source.lazy_any k rest.
Proof.
  intros Hk. induction a as [|c a IH]; cbn [nowhere]; [reflexivity|].
  intros H. apply andb_true_iff in H as [Hc Ha]. apply negb_true_iff in Hc.
  change (String c a ++ rest) with (String c (a ++ rest)) in *.
  cbn [Source.lazy_any]. rewrite (Hk _ Hc). now apply IH.
Qed.

Lemma lazy_any_here {A} (k : string -> option A) s found :
  k s = Some found -> Source.lazy_any k s = Some found.
Proof. intros H. destruct s; cbn [Source.lazy_any]; now rewrite H. Qed.

Lemma lazy_group_stops body rest :
  nowhere Source.boundary_ahead body rest = true -> Source.boundary_ahead rest = true ->
  Source.lazy_group (body ++ rest) = Some body.
Proof.
  intros Hbody Hrest. induction body as [|c body IH]; cbn [nowhere] in Hbody.
  - cbn [append]. destruct rest; cbn [Source.lazy_group]; now rewrite Hrest.
  - apply andb_true_iff in Hbody as [Hc Hbody]. apply negb_true_iff in Hc.
    change (String c body ++ rest) with (String c (body ++ rest)) in *.
    cbn [Source.lazy_group]. rewrite Hc. now rewrite (IH Hbody).
Qed.

Definition blank_line : string := String Source.newline (String Source.newline "").

Lemma part_match_group (subtype before header line body rest : string) :
  Js.toLowerCase header = Js.toLowerCase ("Content-Type: text/" ++ subtype) ->
  nowhere (starts_i ("Content-Type: text/" ++ subtype)) before
    (header ++ line ++ blank_line ++ body ++ rest) = true ->
  nowhere (starts_i blank_line) line (blank_line ++ body ++ rest) = true ->
  nowhere Source.boundary_ahead body rest = true ->
  Source.boundary_ahead rest = true ->
  Source.part_match subtype (before ++ header ++ line ++ blank_line ++ body ++ rest)
  = Some body.
Proof.
  intros Hheader Hbefore Hline Hbody Hrest. unfold Source.part_match.
  rewrite (lazy_any_skip _ _ _ _ (fun s => literal_i_fails _ _ s) Hbefore).
  apply lazy_any_here. rewrite (literal_i_passes _ _ header _ Hheader).
  rewrite (lazy_any_skip _ _ _ _ (fun s => literal_i_fails _ _ s) Hline).
  apply lazy_any_here. fold blank_line.
  rewrite (literal_i_passes _ _ blank_line _ eq_refl). now apply lazy_group_stops.
Qed.

(** X19.  [parseEmailSource] ends the text part at the first place after it
    where a boundary line begins or where the letter z or Z stands: for a
    source with the text/plain header (in any letter case) at its left-most
    place, the first empty line after it, then a body in which no such place
    occurs, then such a place, the text is the body, trimmed, and what
    follows is dropped, also when the letter z is in the middle of a word. *)
Theorem parseEmailSource_text_ends (before header line body rest : string) :
  Js.toLowerCase header = "content-type: text/plain" ->
  nowhere (starts_i "Content-Type: text/plain") before
    (header ++ line ++ blank_line ++ body ++ rest) = true ->
  nowhere (starts_i blank_line) line (blank_line ++ body ++ rest) = true ->
  nowhere Source.boundary_ahead body rest = true ->
  Source.boundary_ahead rest = true ->
  Source.trim body <> "" ->
  Source.part_match "plain" (before ++ header ++ line ++ blank_line ++ body ++ rest)
  = Some body /\
  exists html,
    Source.parseEmailSource (before ++ header ++ line ++ blank_line ++ body ++ rest)
    = Ok (Some (Source.trim body), html).
Proof.
  intros Hheader Hbefore Hline Hbody Hrest Htrim.
  pose proof (part_match_group "plain" before header line body rest Hheader Hbefore Hline
                Hbody Hrest) as Hmatch.
  split; [exact Hmatch|]. unfold Source.parseEmailSource. rewrite Hmatch.
  destruct body as [|c body]; [now elim Htrim|]. cbn [Source.trimmed].
  destruct (Source.trim (String c body)) as [|t ts] eqn:E; [now elim Htrim|].
  cbn [Js.truthy negb andb]. eauto.
Qed.

Definition example_source : string :=
  "Subject: your code" ++ String Source.newline "Content-type: text/plain; charset=utf-8"
  ++ blank_line ++ "Your authorization code is 1234" ++ String Source.newline "".

Lemma parseEmailSource_text_ends_witness :
  Source.part_match "plain" example_source = Some "Your authori" /\
  exists html, Source.parseEmailSource example_source = Ok (Some "Your authori", html).
Proof.
  apply (parseEmailSource_text_ends ("Subject: your code" ++ String Source.newline "")
           "Content-type: text/plain" "; charset=utf-8" "Your authori"
           ("zation code is 1234" ++ String Source.newline "")); try reflexivity.
  discriminate.
Defined.

(** ** The TempMailSafe provider *)

Lemma In_firstn {A} (n : nat) (l : list A) x : In x (firstn n l) -> In x l.
Proof. intros H. rewrite <- (firstn_skipn n l). apply in_or_app. now left. Qed.

Lemma In_skipn {A} (n : nat) (l : list A) x : In x (skipn n l) -> In x l.
Proof. intros H. rewrite <- (firstn_skipn n l). apply in_or_app. now right. Qed.

Lemma slice_In {A} (start stop : Z) (l : list A) x :
  In x (TempMailSafe.slice start stop l) -> In x l.
Proof.
  unfold TempMailSafe.slice. intros H. apply In_firstn in H. now apply In_skipn in H.
Qed.

Lemma slice_length {A} (offset limit : Z) (l : list A) :
  (0 < limit)%Z ->
  (Z.of_nat (List.length (TempMailSafe.slice offset (offset + limit) l)) <= limit)%Z.
Proof.
  intros Hlimit. unfold TempMailSafe.slice, TempMailSafe.relative.
  rewrite length_firstn, length_skipn.
  destruct (offset <? 0)%Z eqn:E1; [apply Z.ltb_lt in E1 | apply Z.ltb_ge in E1];
    destruct (offset + limit <? 0)%Z eqn:E2; [apply Z.ltb_lt in E2 | apply Z.ltb_ge in E2
                                             | apply Z.ltb_lt in E2 | apply Z.ltb_ge in E2];
    lia.
Qed.

Lemma slice_first {A} (n : Z) (l : list A) :
  (0 <= n)%Z -> TempMailSafe.slice 0 (0 + n) l = firstn (Z.to_nat n) l.
Proof.
  intros Hn. unfold TempMailSafe.slice, TempMailSafe.relative.
  assert (E : (0 + n <? 0)%Z = false) by (apply Z.ltb_ge; lia). rewrite E.
  change (0 <? 0)%Z with false. cbv iota.
  replace (Z.to_nat (Z.min 0 (Z.of_nat (List.length l)))) with 0 by lia.
  cbn [skipn].
  destruct (Z.le_ge_cases (0 + n) (Z.of_nat (List.length l))) as [H|H].
  - f_equal. lia.
  - replace (Z.to_nat (Z.min (0 + n) (Z.of_nat (List.length l)) - Z.min 0 (Z.of_nat (List.length l))))
      with (List.length l) by lia.
    rewrite firstn_all. symmetry. apply firstn_all2. lia.
Qed.

Section TempMailSafeFacts.
Variable parse_date : string -> option Z.
Variable http_get : string -> TempMailSafe.outcome TempMailSafe.HttpResponse.

Lemma page_In query messages email :
  In email (TempMailSafe.page parse_date query messages) ->
  (exists msg, In msg messages /\ email = TempMailSafe.mapToEmailMessage parse_date msg) /\
  TempMailSafe.unreadOnly query = false /\
  (forall s, TempMailSafe.since query = Some s -> TempMailSafe.not_before s email = true).
Proof.
  unfold TempMailSafe.page. intros H. apply slice_In in H.
  assert (Hread : forall l e, In e (map (TempMailSafe.mapToEmailMessage parse_date) l) ->
                              TempMailSafe.isRead e = true).
  { intros l e He. apply in_map_iff in He as (m & <- & _). reflexivity. }
  assert (Hbase : In email (if TempMailSafe.unreadOnly query
                            then filter (fun e => negb (TempMailSafe.isRead e))
                                   (map (TempMailSafe.mapToEmailMessage parse_date) messages)
                            else map (TempMailSafe.mapToEmailMessage parse_date) messages) /\
                  forall s, TempMailSafe.since query = Some s ->
                            TempMailSafe.not_before s email = true).
  { destruct (TempMailSafe.since query) as [s|].
    - apply filter_In in H as [H Hs]. split; [exact H|]. intros s' E. now injection E as <-.
    - split; [exact H|discriminate]. }
  destruct Hbase as [Hbase Hsince]. destruct (TempMailSafe.unreadOnly query).
  - apply filter_In in Hbase as [Hin Hunread]. apply Hread in Hin. rewrite Hin in Hunread.
    discriminate.
  - split; [|split; [reflexivity|exact Hsince]].
    apply in_map_iff in Hbase as (m & <- & Hm). eauto.
Qed.

Lemma getEmails_Success query st emails :
  fst (TempMailSafe.getEmails parse_date http_get query st) = TempMailSafe.Success emails ->
  exists userMailbox response,
    TempMailSafe.token_or (TempMailSafe.accessToken query)
      (Pool.Map_get (TempMailSafe.address query) (TempMailSafe.sessionTokens st))
    = Some userMailbox /\
    http_get ("userMailbox=" ++ userMailbox) = TempMailSafe.Returned response /\
    TempMailSafe.ok response = true /\
    emails = TempMailSafe.page parse_date query
               match TempMailSafe.data response with Some l => l | None => [] end.
Proof.
  unfold TempMailSafe.getEmails. cbn [TempMailSafe.sessionTokens TempMailSafe.updateStats].
  destruct (TempMailSafe.token_or _ _) as [userMailbox|]; [|discriminate].
  destruct (http_get _) as [response|thrown] eqn:Hget; [|discriminate].
  destruct (TempMailSafe.ok response) eqn:Hok; cbn [negb TempMailSafe.finish fst];
    [|discriminate].
  intros H. injection H as <-. exists userMailbox, response. auto.
Qed.

(** X20.  What [getEmails] of the TempMailSafe provider returns on success:
    every message is the image of a message of the server's answer, is marked
    read, and is not older than [since] when that is given; with [unreadOnly]
    the list is empty, whatever the mailbox holds; and when the limit (20 when
    none or 0 is given) is positive the list is not longer than the limit,
    for every offset, negative ones included. *)
Theorem tempmailsafe_getEmails_page (query : TempMailSafe.EmailListQuery)
    (st : TempMailSafe.State) (emails : list TempMailSafe.EmailMessage) :
  fst (TempMailSafe.getEmails parse_date http_get query st) = TempMailSafe.Success emails ->
  (TempMailSafe.unreadOnly query = true -> emails = []) /\
  ((0 < TempMailSafe.number_or (TempMailSafe.limit query) 20)%Z ->
   (Z.of_nat (List.length emails) <= TempMailSafe.number_or (TempMailSafe.limit query) 20)%Z) /\
  exists userMailbox response,
    http_get ("userMailbox=" ++ userMailbox) = TempMailSafe.Returned response /\
    TempMailSafe.ok response = true /\
    forall email, In email emails ->
      TempMailSafe.isRead email = true /\
      TempMailSafe.provider email = "tempmailsafe" /\
      (forall s, TempMailSafe.since query = Some s ->
                 TempMailSafe.not_before s email = true) /\
      exists msg, In msg match TempMailSafe.data response with Some l => l | None => [] end /\
                  email = TempMailSafe.mapToEmailMessage parse_date msg.
Proof.
  intros H. apply getEmails_Success in H as (userMailbox & response & _ & Hget & Hok & ->).
  split; [|split].
  - intros Hunread. destruct (TempMailSafe.page parse_date query _) as [|email rest] eqn:E;
      [reflexivity|].
    assert (Hin : In email (TempMailSafe.page parse_date query
                    match TempMailSafe.data response with Some l => l | None => [] end))
      by (rewrite E; now left).
    apply page_In in Hin as (_ & Hfalse & _). congruence.
  - intros Hlimit. unfold TempMailSafe.page. now apply slice_length.
  - exists userMailbox, response. split; [exact Hget|]. split; [exact Hok|].
    intros email Hin. apply page_In in Hin as ((msg & Hmsg & ->) & _ & Hsince).
    repeat split; try reflexivity; [exact Hsince|]. eauto.
Qed.

Lemma find_map {A B} (f : A -> B) (p : B -> bool) (l : list A) :
  find p (map f l) = option_map f (find (fun x => p (f x)) l).
Proof. induction l as [|x l IH]; cbn; [reflexivity|]. now destruct (p (f x)). Qed.

(** X21.  [getEmailContent] of the TempMailSafe provider looks for the
    message among the first 20 of the mailbox only: when the server answers
    with a list, the result is the first of its first 20 messages that has the
    identifier, and the not-found error with status 404 when there is none
    among them, also when a later message has the identifier. *)
Theorem tempmailsafe_content_first_page (emailAddress emailId : string)
    (accessToken : option string) (st : TempMailSafe.State) (userMailbox : string)
    (response : TempMailSafe.HttpResponse) (messages : list TempMailSafe.TempMailSafeMessage) :
  TempMailSafe.token_or accessToken
    (Pool.Map_get emailAddress (TempMailSafe.sessionTokens st)) = Some userMailbox ->
  http_get ("userMailbox=" ++ userMailbox) = TempMailSafe.Returned response ->
  TempMailSafe.ok response = true ->
  TempMailSafe.data response = Some messages ->
  fst (TempMailSafe.getEmailContent parse_date http_get emailAddress emailId accessToken st)
  = match find (fun msg => String.eqb (TempMailSafe.msg_id msg) emailId) (firstn 20 messages) with
    | Some msg => TempMailSafe.Success (TempMailSafe.mapToEmailMessage parse_date msg)
    | None =>
        TempMailSafe.Failure
          (TempMailSafe.ReportedChannelError
             (TempMailSafe.createError TempMailSafe.API_ERROR
                ("Email with id " ++ emailId ++ " not found") (Some 404%Z)))
    end.
Proof.
  intros Htoken Hget Hok Hdata. unfold TempMailSafe.getEmailContent.
  cbn [TempMailSafe.sessionTokens TempMailSafe.updateStats]. rewrite Htoken.
  assert (Hne : exists c r, userMailbox = String c r).
  { unfold TempMailSafe.token_or in Htoken.
    destruct accessToken as [[|c r]|];
      [| injection Htoken as <-; eauto |];
      destruct (Pool.Map_get _ _) as [[|c r]|]; try discriminate;
      injection Htoken as <-; eauto. }
  destruct Hne as (c & r & ->).
  unfold TempMailSafe.getEmails.
  cbn [TempMailSafe.sessionTokens TempMailSafe.updateStats TempMailSafe.accessToken
         TempMailSafe.address TempMailSafe.token_or].
  rewrite Hget, Hok, Hdata. cbn [negb TempMailSafe.finish].
  unfold TempMailSafe.page.
  cbn [TempMailSafe.unreadOnly TempMailSafe.since TempMailSafe.limit TempMailSafe.offset
         TempMailSafe.number_or].
  rewrite (slice_first 20) by lia. change (Z.to_nat 20) with 20.
  rewrite firstn_map, find_map.
  cbn [TempMailSafe.id TempMailSafe.mapToEmailMessage].
  now destruct (find _ (firstn 20 messages)).
Qed.

(** The counters as the operations keep them: every operation counted
    counts twice as a request. *)
Definition counted (st : TempMailSafe.State) : Prop :=
  let s := TempMailSafe.stats st in
  TempMailSafe.totalRequests s
  = 2 * (TempMailSafe.successfulRequests s + TempMailSafe.failedRequests s) /\
  TempMailSafe.requestsToday s = TempMailSafe.totalRequests s /\
  TempMailSafe.errorsToday s = TempMailSafe.failedRequests s.

Lemma counted_finish {A} (attempt : TempMailSafe.outcome A) st :
  counted st ->
  counted (snd (TempMailSafe.finish attempt (TempMailSafe.updateStats TempMailSafe.request st))).
Proof.
  unfold counted. intros (H1 & H2 & H3). destruct attempt; cbn in *; lia.
Qed.

Lemma getEmails_tokens query st :
  TempMailSafe.sessionTokens (snd (TempMailSafe.getEmails parse_date http_get query st))
  = TempMailSafe.sessionTokens st.
Proof.
  unfold TempMailSafe.getEmails. now destruct (match _ with Some _ => _ | None => _ end).
Qed.

(** X22.  The counters of the TempMailSafe provider start with, and
    [getEmails], [getEmailContent] and [deleteEmail] keep, the relation
    [totalRequests = 2 * (successfulRequests + failedRequests)]: an operation
    is counted as a request when it starts and again when it ends.  So the
    successful requests are never more than half of the total, and the
    success rate that [getHealth] computes from them never exceeds 50. *)
Theorem tempmailsafe_requests_counted_twice :
  counted TempMailSafe.initial /\
  (forall st, counted st ->
     (forall query, counted (snd (TempMailSafe.getEmails parse_date http_get query st))) /\
     (forall emailAddress emailId accessToken,
        counted (snd (TempMailSafe.getEmailContent parse_date http_get emailAddress emailId
                        accessToken st))) /\
     (forall emailAddress, counted (snd (TempMailSafe.deleteEmail emailAddress st))) /\
     2 * TempMailSafe.successfulRequests (TempMailSafe.stats st)
     <= TempMailSafe.totalRequests (TempMailSafe.stats st)).
Proof.
  split; [unfold counted; cbn; lia|]. intros st Hst.
  assert (Hlist : forall query st', counted st' ->
            counted (snd (TempMailSafe.getEmails parse_date http_get query st'))).
  { intros query st' H. unfold TempMailSafe.getEmails. now apply counted_finish. }
  split; [intros query; now apply Hlist|]. split; [|split].
  - intros emailAddress emailId accessToken. unfold TempMailSafe.getEmailContent.
    destruct (TempMailSafe.token_or _ _) as [userMailbox|]; [|now apply counted_finish].
    unfold TempMailSafe.getEmails.
    destruct (match TempMailSafe.token_or _ _ with Some _ => _ | None => _ end)
      as [emails|thrown]; cbn [TempMailSafe.finish].
    + destruct (find _ emails); unfold counted in *; cbn in *; lia.
    + unfold counted in *; cbn in *; lia.
  - intros emailAddress. exact Hst.
  - unfold counted in Hst. cbv zeta in Hst. lia.
Qed.

End TempMailSafeFacts.

(** A mailbox of 21 messages, numbered from 1, behind the cookie [box]. *)
Definition numbered_message (n : nat) : TempMailSafe.TempMailSafeMessage :=
  {| TempMailSafe.msg_id := JSON.print_number (Z.of_nat n);
     TempMailSafe.msg_from :=
       {| TempMailSafe.contact_name := ""; TempMailSafe.contact_address := "sender@domain.test" |};
     TempMailSafe.msg_to := [];
     TempMailSafe.msg_cc := None;
     TempMailSafe.msg_bcc := None;
     TempMailSafe.msg_subject := "subject";
     TempMailSafe.msg_messageId := "";
     TempMailSafe.msg_date := "2023-11-14T22:13:20.000Z";
     TempMailSafe.msg_text := "text";
     TempMailSafe.msg_html := None |}.

Definition full_mailbox : TempMailSafe.HttpResponse :=
  {| TempMailSafe.ok := true; TempMailSafe.status := 200; TempMailSafe.statusText := "OK";
     TempMailSafe.data := Some (map numbered_message (seq 1 21)) |}.

Definition answering (cookie : string) : TempMailSafe.outcome TempMailSafe.HttpResponse :=
  TempMailSafe.Returned full_mailbox.

Definition example_date (s : string) : option Z := Some example_now.

Definition last_two : TempMailSafe.EmailListQuery :=
  {| TempMailSafe.address := "box@tempmailsafe.com"; TempMailSafe.accessToken := Some "box";
     TempMailSafe.limit := Some 25%Z; TempMailSafe.offset := Some (-2)%Z;
     TempMailSafe.since := None; TempMailSafe.unreadOnly := false |}.

Lemma tempmailsafe_getEmails_page_witness :
  (Z.of_nat (List.length (map (TempMailSafe.mapToEmailMessage example_date)
                            [numbered_message 20; numbered_message 21])) <= 25)%Z.
Proof.
  destruct (tempmailsafe_getEmails_page example_date answering last_two TempMailSafe.initial
              (map (TempMailSafe.mapToEmailMessage example_date)
                 [numbered_message 20; numbered_message 21]) eq_refl) as (_ & Hlimit & _).
  apply Hlimit. reflexivity.
Defined.

Lemma tempmailsafe_content_first_page_witness :
  In "21" (map TempMailSafe.msg_id (map numbered_message (seq 1 21))) /\
  fst (TempMailSafe.getEmailContent example_date answering "box@tempmailsafe.com" "21"
         (Some "box") TempMailSafe.initial)
  = TempMailSafe.Failure
      (TempMailSafe.ReportedChannelError
         (TempMailSafe.createError TempMailSafe.API_ERROR "Email with id 21 not found"
            (Some 404%Z))).
Proof.
  split; [cbn; tauto|].
  exact (tempmailsafe_content_first_page example_date answering "box@tempmailsafe.com" "21"
           (Some "box") TempMailSafe.initial "box" full_mailbox
           (map numbered_message (seq 1 21)) eq_refl eq_refl eq_refl eq_refl).
Defined.

(** ** More helpers *)

(** X23.  [parseEmail] returns nothing exactly for the addresses that
    [isValidEmail] refuses; for the others it returns a user name and a
    domain, both present and not empty, which put back together with [@] are
    the address. *)
Theorem parseEmail_round_trip (email : string) :
  (Text.parseEmail email = None <-> Regex.isValidEmail email = false) /\
  (forall parsed,
     Text.parseEmail email = Some parsed ->
     exists username domain,
       Text.username parsed = Some username /\ Text.domain parsed = Some domain /\
       username <> "" /\ domain <> "" /\ email = username ++ "@" ++ domain).
Proof.
  unfold Text.parseEmail. destruct (Regex.isValidEmail email) eqn:Hvalid; cbn [negb].
  - split; [split; discriminate|]. intros parsed H. injection H as <-.
    apply valid_user_split in Hvalid as (l & d & -> & Hl & Hd & ->).
    exists l, d. cbn. auto.
  - split; [tauto|discriminate].
Qed.

(** X24.  [truncateText] returns the text itself when it is not longer than
    [maxLength]; otherwise its first [maxLength - 3] code units (none when
    [maxLength] is below 3) and three dots, so the result has [maxLength] code
    units when [maxLength] is at least 3, and 3, more than asked for, when it
    is less. *)
Theorem truncateText_length (text : list Z) (maxLength : Z) :
  ((Z.of_nat (List.length text) <= maxLength)%Z -> Text.truncateText text maxLength = text) /\
  ((maxLength < Z.of_nat (List.length text))%Z ->
   Text.truncateText text maxLength
   = (firstn (Z.to_nat (maxLength - 3)) text ++ [46; 46; 46]%Z)%list /\
   Z.of_nat (List.length (Text.truncateText text maxLength)) = Z.max maxLength 3).
Proof.
  unfold Text.truncateText, Text.substring_to, Text.dots. split.
  - intros H. apply Z.leb_le in H. now rewrite H.
  - intros H. assert (E : (Z.of_nat (List.length text) <=? maxLength)%Z = false)
      by (apply Z.leb_gt; exact H).
    rewrite E. split; [reflexivity|]. rewrite List.length_app, length_firstn. cbn [List.length].
    lia.
Qed.

Lemma ToInt32_mod x : (Text.ToInt32 x mod 2 ^ 32 = x mod 2 ^ 32)%Z.
Proof.
  unfold Text.ToInt32. destruct (x mod 2 ^ 32 <? 2 ^ 31)%Z.
  - apply Z.mod_mod. lia.
  - rewrite <- (Z.mod_mod x (2 ^ 32)) at 2 by lia.
    replace (x mod 2 ^ 32 - 2 ^ 32)%Z with (x mod 2 ^ 32 + (-1) * 2 ^ 32)%Z by lia.
    apply Z.mod_add. lia.
Qed.

Lemma ToInt32_range x : (- 2 ^ 31 <= Text.ToInt32 x < 2 ^ 31)%Z.
Proof.
  unfold Text.ToInt32. pose proof (Z.mod_pos_bound x (2 ^ 32)) as H.
  destruct (x mod 2 ^ 32 <? 2 ^ 31)%Z eqn:E;
    [apply Z.ltb_lt in E | apply Z.ltb_ge in E]; lia.
Qed.

Lemma ToInt32_congruent x y : (x mod 2 ^ 32 = y mod 2 ^ 32)%Z -> Text.ToInt32 x = Text.ToInt32 y.
Proof. unfold Text.ToInt32. now intros ->. Qed.

Lemma ToInt32_twice x : Text.ToInt32 (Text.ToInt32 x) = Text.ToInt32 x.
Proof. apply ToInt32_congruent, ToInt32_mod. Qed.

(** One round of the loop, modulo 2^32. *)
Lemma simpleHash_round (hash hash' char : Z) :
  (hash mod 2 ^ 32 = hash' mod 2 ^ 32)%Z ->
  let next := (Text.shift_left hash 5 - hash + char)%Z in
  Text.bit_and next next = Text.ToInt32 (31 * hash' + char).
Proof.
  intros H. cbv zeta. unfold Text.bit_and. rewrite Z.land_diag, ToInt32_twice.
  apply ToInt32_congruent. unfold Text.shift_left. rewrite Z.shiftl_mul_pow2 by lia.
  rewrite <- Zplus_mod_idemp_l, <- Zminus_mod_idemp_l, ToInt32_mod.
  rewrite <- Zmult_mod_idemp_l, ToInt32_mod, Zmult_mod_idemp_l.
  rewrite <- Zminus_mod_idemp_r, H, Zminus_mod_idemp_r, Zminus_mod_idemp_l, Zplus_mod_idemp_l.
  rewrite <- Zplus_mod_idemp_l, <- Zminus_mod_idemp_l, <- Zmult_mod_idemp_l, H.
  rewrite Zmult_mod_idemp_l, Zminus_mod_idemp_l, Zplus_mod_idemp_l.
  f_equal. lia.
Qed.

(** The polynomial [c0 * 31^(n-1) + ... + c(n-1)] over the code units. *)
Definition polynomial (str : list Z) : Z :=
  fold_left (fun hash char => (31 * hash + char)%Z) str 0%Z.

(** X25.  [simpleHash] is the polynomial with base 31 over the code units
    of the string, reduced to a signed 32-bit integer: it never leaves the
    range from -2^31 to 2^31 - 1. *)
Theorem simpleHash_polynomial (str : list Z) :
  Text.simpleHash str = Text.ToInt32 (polynomial str) /\
  (- 2 ^ 31 <= Text.simpleHash str < 2 ^ 31)%Z.
Proof.
  assert (H : forall hash hash',
            (hash mod 2 ^ 32 = hash' mod 2 ^ 32)%Z -> (- 2 ^ 31 <= hash < 2 ^ 31)%Z ->
            fold_left (fun hash char =>
                         let hash := (Text.shift_left hash 5 - hash + char)%Z in
                         Text.bit_and hash hash) str hash
            = Text.ToInt32 (fold_left (fun hash char => (31 * hash + char)%Z) str hash')).
  { induction str as [|char str IH]; intros hash hash' Hmod Hrange; cbn [fold_left].
    - unfold Text.ToInt32. rewrite <- Hmod.
      destruct (Z_lt_le_dec hash 0) as [Hneg|Hpos].
      + replace (hash mod 2 ^ 32)%Z with (hash + 2 ^ 32)%Z.
        * assert (E : (hash + 2 ^ 32 <? 2 ^ 31)%Z = false) by (apply Z.ltb_ge; lia).
          rewrite E. lia.
        * symmetry. rewrite <- (Z.mod_add hash 1 (2 ^ 32)) by lia.
          apply Z.mod_small. lia.
      + rewrite Z.mod_small by lia.
        assert (E : (hash <? 2 ^ 31)%Z = true) by (apply Z.ltb_lt; lia). now rewrite E.
    - apply IH.
      + rewrite (simpleHash_round hash hash' char Hmod). apply ToInt32_mod.
      + rewrite (simpleHash_round hash hash' char Hmod). apply ToInt32_range. }
  assert (E : Text.simpleHash str = Text.ToInt32 (polynomial str))
    by (apply H; [reflexivity|lia]).
  split; [exact E|]. rewrite E. apply ToInt32_range.
Qed.

(** ** The API key check *)

Lemma prefix_split p : forall s, String.prefix p s = true -> exists r, s = p ++ r.
Proof.
  induction p as [|c p IH]; intros s H; [now exists s|].
  destruct s as [|d s]; [discriminate|]. cbn [String.prefix] in H.
  destruct (ascii_dec c d) as [<-|]; [|discriminate].
  destruct (IH s H) as (r & ->). now exists r.
Qed.

Lemma substring_all s : String.substring 0 (String.length s) s = s.
Proof. induction s as [|c s IH]; cbn; [reflexivity|]. now rewrite IH. Qed.

Lemma substring_after p r :
  String.substring (String.length p) (String.length (p ++ r) - String.length p) (p ++ r) = r.
Proof.
  rewrite JSON.length_append.
  replace (String.length p + String.length r - String.length p) with (String.length r) by lia.
  induction p as [|c p IH]; cbn [String.length append String.substring]; [|exact IH].
  apply substring_all.
Qed.

Lemma replace_prefix p rep r : Auth.replace p rep (p ++ r) = rep ++ r.
Proof.
  assert (Hp : String.prefix p (p ++ r) = true) by (apply prefix_append, prefix_correct;
    now rewrite substring_all).
  destruct (p ++ r) as [|c s] eqn:E; cbn [Auth.replace]; rewrite Hp, <- E;
    now rewrite substring_after.
Qed.

(** X26.  With an API key set, a request passes the check exactly when its
    [Authorization] header is [Bearer], a space and the key; with no key, or
    an empty one, every request passes. *)
Theorem api_key_check (apiKey authHeader : option string) :
  Auth.createApiKeyAuthWithCustomError apiKey authHeader = Auth.Next <->
  Js.truthy apiKey = false \/
  exists key, apiKey = Some key /\ authHeader = Some ("Bearer " ++ key).
Proof.
  unfold Auth.createApiKeyAuthWithCustomError.
  destruct apiKey as [[|k key]|]; cbn [Js.truthy]; try tauto.
  destruct authHeader as [authHeader|].
  - destruct (Js.startsWith "Bearer " authHeader) eqn:Hstart; cbn [negb].
    + unfold Js.startsWith in Hstart. apply prefix_split in Hstart as (token & ->).
      rewrite replace_prefix. change ("" ++ token) with token.
      destruct (String.eqb token (String k key)) eqn:E; cbn [negb].
      * apply String.eqb_eq in E. subst token. split; [|reflexivity].
        intros _. right. now exists (String k key).
      * apply String.eqb_neq in E. split; [discriminate|].
        intros [H|(key' & Hk & Hh)]; [discriminate|].
        injection Hk as <-. injection Hh as Hh. now subst token.
    + split; [discriminate|]. intros [H|(key' & Hk & Hh)]; [discriminate|].
      injection Hh as ->.
      assert (Hp : String.prefix "Bearer " ("Bearer " ++ key') = true)
        by (apply prefix_append; reflexivity).
      destruct (eq_true_false_abs _ Hp Hstart).
  - split; [discriminate|]. intros [H|(key' & _ & H)]; discriminate.
Qed.

(** ** Retrying *)

(** Attempt [k] is the first one that does not fail. *)
Definition first_success {A} (fn : nat -> result A) (k : nat) (x : A) : Prop :=
  fn k = Ok x /\ forall j, j < k -> exists error, fn j = Throw error.

(** The delay after the failure of attempt [i]. *)
Definition delay_after (baseDelay : Z) (backoff : bool) (i : nat) : Z :=
  if backoff then (baseDelay * 2 ^ Z.of_nat i)%Z else baseDelay.

Lemma attempts_outcome {A} (fn : nat -> result A) baseDelay backoff : forall remaining attempt,
  match Retry.attempts fn baseDelay backoff remaining attempt with
  | (Ok x, delays) =>
      exists k, k <= remaining /\ fn (attempt + k) = Ok x /\
                (forall j, j < k -> exists error, fn (attempt + j) = Throw error) /\
                delays = map (delay_after baseDelay backoff) (seq attempt k)
  | (Throw error, delays) =>
      fn (attempt + remaining) = Throw error /\
      (forall j, j <= remaining -> exists e, fn (attempt + j) = Throw e) /\
      delays = map (delay_after baseDelay backoff) (seq attempt remaining)
  end.
Proof.
  induction remaining as [|remaining IH]; intros attempt; cbn [Retry.attempts].
  - destruct (fn attempt) as [x|error] eqn:E.
    + exists 0. rewrite Nat.add_0_r. repeat split; try assumption; try lia.
    + rewrite Nat.add_0_r. repeat split; try assumption.
      intros j Hj. assert (j = 0) as -> by lia. rewrite Nat.add_0_r. eauto.
  - destruct (fn attempt) as [x|error] eqn:E.
    + exists 0. rewrite Nat.add_0_r. repeat split; try assumption; try lia.
    + specialize (IH (S attempt)).
      destruct (Retry.attempts fn baseDelay backoff remaining (S attempt))
        as [[x|error'] delays].
      * destruct IH as (k & Hk & Hx & Hfail & ->). exists (S k).
        split; [lia|]. split; [now rewrite Nat.add_succ_r|]. split; [|reflexivity].
        intros [|j] Hj; [rewrite Nat.add_0_r; eauto|].
        rewrite Nat.add_succ_r. apply Hfail. lia.
      * destruct IH as (Hlast & Hfail & ->). split; [now rewrite Nat.add_succ_r|].
        split; [|reflexivity].
        intros [|j] Hj; [rewrite Nat.add_0_r; eauto|].
        rewrite Nat.add_succ_r. apply Hfail. lia.
Qed.

(** X27.  [retry] calls [fn] until it succeeds, at most [retries + 1] times.
    It returns the result of the first attempt that succeeds, having waited
    after each failed attempt [i] before it for [delay * 2^i] ms ([delay] ms
    without backoff); when no attempt succeeds it throws the error of the
    last one, after [retries] delays: it does not wait after the last
    failure. *)
Theorem retry_outcome (A : Type) (fn : nat -> result A) (retries : nat) (delay : Z)
    (backoff : bool) :
  match Retry.retry fn retries (Some delay) (Some backoff) with
  | (Ok x, delays) =>
      exists k, k <= retries /\ first_success fn k x /\
                delays = map (delay_after delay backoff) (seq 0 k)
  | (Throw error, delays) =>
      fn retries = Throw error /\
      (forall j, j <= retries -> exists e, fn j = Throw e) /\
      delays = map (delay_after delay backoff) (seq 0 retries)
  end.
Proof.
  unfold Retry.retry. pose proof (attempts_outcome fn delay backoff retries 0) as H.
  destruct (Retry.attempts fn delay backoff retries 0) as [[x|error] delays].
  - destruct H as (k & Hk & Hx & Hfail & ->). exists k. repeat split; assumption.
  - exact H.
Qed.

(** ** The routes *)

Lemma check_required_first_missing config required :
  Create.check_required config required =
  match Routes.first_missing config required with
  | Some field => Throw (Error (Create.required_message field))
  | None => Ok tt
  end.
Proof.
  induction required as [|field rest IH]; cbn [Create.check_required Routes.first_missing];
    [reflexivity|].
  destruct (negb _); [reflexivity|exact IH].
Qed.

(** X28.  The checks of [POST /mail/create] for the provider [imap] are
    those of [validateImapConfig] without [isMine], with the same messages and
    status 400, whatever the request says about [isMine].  So a request with
    [isMine] and no domain, which [validateImapConfig] accepts, is refused by
    the route for its missing domain and never reaches the provider. *)
Theorem create_route_checks (imap : option ImapConfig) :
  Routes.create_checks (Some "imap") imap =
  match match imap with
        | Some config => Create.validateImapConfig config false
        | None => Throw (Error Create.missing_imap)
        end with
  | Ok _ => None
  | Throw error => Some {| Routes.status := 400; Routes.error := message error |}
  end /\
  (forall config,
     imap = Some config -> domain config = "" ->
     Create.validateImapConfig config true = Ok tt ->
     Routes.create_checks (Some "imap") imap
     = Some {| Routes.status := 400; Routes.error := "imap.domain 为必填字段" |}).
Proof.
  assert (H : forall config,
            Routes.create_checks (Some "imap") (Some config) =
            match Create.validateImapConfig config false with
            | Ok _ => None
            | Throw error => Some {| Routes.status := 400; Routes.error := message error |}
            end).
  { intros config. unfold Routes.create_checks, Create.validateImapConfig.
    cbn [String.eqb Ascii.eqb Bool.eqb]. rewrite check_required_first_missing.
    destruct (Routes.first_missing config _) as [field|]; cbn [bind]; [reflexivity|].
    destruct (negb (Regex.isValidEmail _)); [reflexivity|].
    destruct (imap_port config) as [port|]; [|reflexivity].
    now destruct (_ && _)%bool. }
  split.
  - destruct imap as [config|]; [apply H|reflexivity].
  - intros config -> Hdomain _. rewrite H. unfold Create.validateImapConfig.
    cbn [Create.check_required Create.field_value String.eqb Ascii.eqb Bool.eqb].
    rewrite Hdomain. reflexivity.
Qed.






